(** * The todo application of [app.js]: task store, ordering, persistence

    A shallow embedding of the script's data model and of the functions
    that read or change the task list, followed by the properties its
    specification states about them.

    - JavaScript strings are sequences of UTF-16 code units ([list N]).
    - The browser objects the script talks to ([localStorage], [JSON],
      [Date.now], [crypto.randomUUID], the DOM list, the live region, the
      console) are modelled next to the code: storage as a finite map,
      [JSON] by a printer and a parser over code units, the clock and the
      UUID generator as readings supplied with every event, and the calls
      made to the DOM, the announcer and the console as a trace.
    - The functions of the script run in a state-and-exception monad over
      the module-level variables [tasks] and [currentFilter]. *)

From Stdlib Require Import ZArith NArith List String Ascii Lia Bool Sorted.
From stdpp Require Import base list gmap.

Local Open Scope N_scope.

(* ================================================================== *)
(** ** 1. JavaScript strings *)

Abbreviation jsstring := (list N).

(** The code unit of an ASCII character, and the string of a literal. *)
Definition ch (c : ascii) : N := N_of_ascii c.

Definition js (s : string) : jsstring :=
  List.map N_of_ascii (list_ascii_of_string s).

(** ECMAScript [WhiteSpace] and [LineTerminator] code points, the ones
    [String.prototype.trim] strips. All of them are single code units. *)
Definition is_white (c : N) : bool :=
  (c =? 9) || (c =? 10) || (c =? 11) || (c =? 12) || (c =? 13) || (c =? 32)
  || (c =? 160) || (c =? 5760) || ((8192 <=? c) && (c <=? 8202))
  || (c =? 8232) || (c =? 8233) || (c =? 8239) || (c =? 8287)
  || (c =? 12288) || (c =? 65279).

Fixpoint trimStart (s : jsstring) : jsstring :=
  match s with
  | c :: r => if is_white c then trimStart r else s
  | [] => []
  end.

Definition trimEnd (s : jsstring) : jsstring := rev (trimStart (rev s)).

(** [text.trim()] *)
Definition trim (s : jsstring) : jsstring := trimEnd (trimStart s).

(** A string is falsy exactly when it is empty: [if (text)], [!text]. *)
Definition truthy_string (s : jsstring) : bool :=
  match s with [] => false | _ => true end.

(* ================================================================== *)
(** ** 2. JSON values, [JSON.stringify] on the task list, [JSON.parse] *)

(** A number literal is kept as the exact decimal [m * 10^e] it denotes. *)
#[warnings="-register-all"] Inductive json : Type :=
| JNull
| JBool (b : bool)
| JNum (m e : Z)
| JStr (s : jsstring)
| JArr (items : list json)
| JObj (fields : list (jsstring * json)).

(** *** Numbers *)

Fixpoint digits_of (fuel : nat) (n : N) : list N :=
  match fuel with
  | O => []
  | S f => if n <? 10 then [n] else digits_of f (n / 10) ++ [n mod 10]
  end.

(** The decimal digits of [n], most significant first. *)
Definition decimal_digits (n : N) : list N :=
  digits_of (S (N.to_nat (N.log2 n))) n.

Definition digits_value (ds : list N) : N :=
  fold_left (fun a d => 10 * a + d) ds 0.

Definition digit_char (d : N) : N := 48 + d.
Definition is_digit (c : N) : bool := (48 <=? c) && (c <=? 57).
Definition digit_val (c : N) : N := c - 48.

(** [Number::toString] on an integer, in positional notation (what it
    prints for every integer below 10^21, among them all clock readings
    and all order keys the script computes). *)
Definition Number_toString (z : Z) : jsstring :=
  (if (z <? 0)%Z then [ch "-"] else []) ++
  List.map digit_char (decimal_digits (Z.abs_N z)).

(** *** Strings: [QuoteJSONString] *)

Definition is_high_surrogate (c : N) : bool := (55296 <=? c) && (c <=? 56319).
Definition is_low_surrogate (c : N) : bool := (56320 <=? c) && (c <=? 57343).

Definition hex_char (d : N) : N := if d <? 10 then 48 + d else 87 + d.

(** [\uXXXX] with four lower-case hexadecimal digits. *)
Definition unicode_escape (c : N) : jsstring :=
  [ch "\"; ch "u"; hex_char ((c / 4096) mod 16); hex_char ((c / 256) mod 16);
   hex_char ((c / 16) mod 16); hex_char (c mod 16)].

(** One code unit that is not part of a surrogate pair. *)
Definition quote_unit (c : N) : jsstring :=
  if c =? 8 then [ch "\"; ch "b"]
  else if c =? 9 then [ch "\"; ch "t"]
  else if c =? 10 then [ch "\"; ch "n"]
  else if c =? 12 then [ch "\"; ch "f"]
  else if c =? 13 then [ch "\"; ch "r"]
  else if c =? 34 then [ch "\"; 34]
  else if c =? 92 then [ch "\"; ch "\"]
  else if (c <? 32) || is_high_surrogate c || is_low_surrogate c
       then unicode_escape c
  else [c].

(** The string is read code point by code point: a high surrogate followed
    by a low one is a pair and is copied; any other surrogate is lone. *)
Fixpoint quote_units (s : jsstring) : jsstring :=
  match s with
  | [] => []
  | c :: r =>
      if is_high_surrogate c then
        match r with
        | d :: r' =>
            if is_low_surrogate d then c :: d :: quote_units r'
            else quote_unit c ++ quote_units r
        | [] => quote_unit c
        end
      else quote_unit c ++ quote_units r
  end.

Definition QuoteJSONString (s : jsstring) : jsstring :=
  34 :: quote_units s ++ [34].

(** *** The parser *)

Inductive presult (A : Type) : Type :=
| POk (a : A) (rest : jsstring)
| PErr
| PFuel.
Arguments POk {A} a rest.
Arguments PErr {A}.
Arguments PFuel {A}.

Definition is_json_ws (c : N) : bool :=
  (c =? 32) || (c =? 9) || (c =? 10) || (c =? 13).

Fixpoint skip_ws (s : jsstring) : jsstring :=
  match s with
  | c :: r => if is_json_ws c then skip_ws r else s
  | [] => []
  end.

Fixpoint span_digits (s : jsstring) : list N * jsstring :=
  match s with
  | c :: r =>
      if is_digit c then let (ds, r') := span_digits r in (c :: ds, r')
      else ([], s)
  | [] => ([], [])
  end.

Definition hex_val (c : N) : option N :=
  if is_digit c then Some (c - 48)
  else if (97 <=? c) && (c <=? 102) then Some (c - 87)
  else if (65 <=? c) && (c <=? 70) then Some (c - 55)
  else None.

Definition hex4 (a b c d : N) : option N :=
  match hex_val a, hex_val b, hex_val c, hex_val d with
  | Some x, Some y, Some z, Some w => Some (4096 * x + 256 * y + 16 * z + w)
  | _, _, _, _ => None
  end.

Definition simple_escape (c : N) : option N :=
  if c =? 34 then Some 34
  else if c =? 92 then Some 92
  else if c =? ch "/" then Some (ch "/")
  else if c =? ch "b" then Some 8
  else if c =? ch "f" then Some 12
  else if c =? ch "n" then Some 10
  else if c =? ch "r" then Some 13
  else if c =? ch "t" then Some 9
  else None.

(** The characters of a string literal after its opening quote, up to and
    including the closing quote. *)
Fixpoint parse_chars (s : jsstring) : option (jsstring * jsstring) :=
  match s with
  | [] => None
  | c :: r =>
      if c =? 34 then Some ([], r)
      else if c =? 92 then
        match r with
        | [] => None
        | x :: r1 =>
            if x =? ch "u" then
              match r1 with
              | h1 :: h2 :: h3 :: h4 :: r2 =>
                  match hex4 h1 h2 h3 h4 with
                  | Some u =>
                      match parse_chars r2 with
                      | Some (str, rest) => Some (u :: str, rest)
                      | None => None
                      end
                  | None => None
                  end
              | _ => None
              end
            else
              match simple_escape x with
              | Some u =>
                  match parse_chars r1 with
                  | Some (str, rest) => Some (u :: str, rest)
                  | None => None
                  end
              | None => None
              end
        end
      else if c <? 32 then None
      else
        match parse_chars r with
        | Some (str, rest) => Some (c :: str, rest)
        | None => None
        end
  end.

Definition digits_Z (ds : list N) : Z :=
  Z.of_N (digits_value (List.map digit_val ds)).

(** The integer part: a single [0], or a run of digits not starting
    with [0]. *)
Definition parse_int_part (s : jsstring) : option (list N * jsstring) :=
  match s with
  | c :: r =>
      if c =? 48 then Some ([c], r)
      else if is_digit c then Some (span_digits s)
      else None
  | [] => None
  end.

Definition parse_frac_part (s : jsstring) : option (list N * jsstring) :=
  match s with
  | c :: r =>
      if c =? ch "." then
        match span_digits r with
        | ([], _) => None
        | (ds, r') => Some (ds, r')
        end
      else Some ([], s)
  | [] => Some ([], s)
  end.

Definition parse_exp_part (s : jsstring) : option (Z * jsstring) :=
  match s with
  | c :: r =>
      if (c =? ch "e") || (c =? ch "E") then
        let '(neg, r0) :=
          match r with
          | x :: r' =>
              if x =? ch "-" then (true, r')
              else if x =? ch "+" then (false, r')
              else (false, r)
          | [] => (false, r)
          end in
        match span_digits r0 with
        | ([], _) => None
        | (ds, r') => Some (if neg then (- digits_Z ds)%Z else digits_Z ds, r')
        end
      else Some (0%Z, s)
  | [] => Some (0%Z, s)
  end.

Definition parse_number (s : jsstring) : presult json :=
  let '(neg, s0) :=
    match s with
    | c :: r => if c =? ch "-" then (true, r) else (false, s)
    | [] => (false, s)
    end in
  match parse_int_part s0 with
  | None => PErr
  | Some (ip, s1) =>
      match parse_frac_part s1 with
      | None => PErr
      | Some (fp, s2) =>
          match parse_exp_part s2 with
          | None => PErr
          | Some (ex, s3) =>
              let m := digits_Z (ip ++ fp) in
              POk (JNum (if neg then (- m)%Z else m)
                        (ex - Z.of_nat (length fp))%Z) s3
          end
      end
  end.

Fixpoint strip_prefix (p s : jsstring) : option jsstring :=
  match p, s with
  | [], _ => Some s
  | a :: p', b :: s' => if a =? b then strip_prefix p' s' else None
  | _ :: _, [] => None
  end.

Definition parse_literal (s : jsstring) : presult json :=
  match strip_prefix (js "true") s with
  | Some r => POk (JBool true) r
  | None =>
      match strip_prefix (js "false") s with
      | Some r => POk (JBool false) r
      | None =>
          match strip_prefix (js "null") s with
          | Some r => POk JNull r
          | None => PErr
          end
      end
  end.

(** Recursive descent. Every call spends one unit of fuel;
    [JSON_parse] below supplies more than any input can use. *)
Fixpoint parse_value (fuel : nat) (s : jsstring) : presult json :=
  match fuel with
  | O => PFuel
  | S f =>
      match skip_ws s with
      | [] => PErr
      | c :: r =>
          if c =? ch "[" then
            match skip_ws r with
            | c' :: r' =>
                if c' =? ch "]" then POk (JArr []) r'
                else
                  match parse_elements f r with
                  | POk vs rest => POk (JArr vs) rest
                  | PErr => PErr
                  | PFuel => PFuel
                  end
            | [] => PErr
            end
          else if c =? ch "{" then
            match skip_ws r with
            | c' :: r' =>
                if c' =? ch "}" then POk (JObj []) r'
                else
                  match parse_members f r with
                  | POk kvs rest => POk (JObj kvs) rest
                  | PErr => PErr
                  | PFuel => PFuel
                  end
            | [] => PErr
            end
          else if c =? 34 then
            match parse_chars r with
            | Some (str, rest) => POk (JStr str) rest
            | None => PErr
            end
          else if (c =? ch "-") || is_digit c then parse_number (c :: r)
          else parse_literal (c :: r)
      end
  end
with parse_elements (fuel : nat) (s : jsstring) : presult (list json) :=
  match fuel with
  | O => PFuel
  | S f =>
      match parse_value f s with
      | POk v r =>
          match skip_ws r with
          | c :: r' =>
              if c =? ch "," then
                match parse_elements f r' with
                | POk vs rest => POk (v :: vs) rest
                | PErr => PErr
                | PFuel => PFuel
                end
              else if c =? ch "]" then POk [v] r'
              else PErr
          | [] => PErr
          end
      | PErr => PErr
      | PFuel => PFuel
      end
  end
with parse_members (fuel : nat) (s : jsstring)
  : presult (list (jsstring * json)) :=
  match fuel with
  | O => PFuel
  | S f =>
      match skip_ws s with
      | c :: r =>
          if c =? 34 then
            match parse_chars r with
            | Some (key, r1) =>
                match skip_ws r1 with
                | c1 :: r2 =>
                    if c1 =? ch ":" then
                      match parse_value f r2 with
                      | POk v r3 =>
                          match skip_ws r3 with
                          | c3 :: r4 =>
                              if c3 =? ch "," then
                                match parse_members f r4 with
                                | POk kvs rest => POk ((key, v) :: kvs) rest
                                | PErr => PErr
                                | PFuel => PFuel
                                end
                              else if c3 =? ch "}" then POk [(key, v)] r4
                              else PErr
                          | [] => PErr
                          end
                      | PErr => PErr
                      | PFuel => PFuel
                      end
                    else PErr
                | [] => PErr
                end
            | None => PErr
            end
          else PErr
      | [] => PErr
      end
  end.

Definition parse_fuel (s : jsstring) : nat := (2 * length s + 1)%nat.

(** [JSON.parse(text)]: the value, or [None] for a [SyntaxError]. *)
Definition JSON_parse (s : jsstring) : option json :=
  match parse_value (parse_fuel s) s with
  | POk v rest => match skip_ws rest with [] => Some v | _ => None end
  | _ => None
  end.

(* ================================================================== *)
(** ** 3. Data model *)

Local Open Scope Z_scope.

(** [const FILTER = { ALL: 'all', ACTIVE: 'active', COMPLETED: 'completed' }] *)
Module FILTER.
Definition ALL : jsstring := js "all".
Definition ACTIVE : jsstring := js "active".
Definition COMPLETED : jsstring := js "completed".
End FILTER.

Definition STORAGE_KEY : jsstring := js "todo-app-tasks".
Definition THEME_KEY : jsstring := js "todo-app-theme".
Definition FILTER_KEY : jsstring := js "todo-app-filter".

(** [class Task]: the objects the store operations work on, with the
    field types the script gives them. *)
Record Task : Type := new_Task {
  id : jsstring;
  text : jsstring;
  completed : bool;
  order : Z
}.

(** [constructor(id, text, completed = false, order = Date.now())]: an
    omitted argument takes its default; [now] is the clock reading. *)
Definition Task_constructor (now : Z) (i t : jsstring)
    (c : option bool) (o : option Z) : Task :=
  {| id := i; text := t; completed := default false c; order := default now o |}.

Definition set_text (s : jsstring) (t : Task) : Task :=
  {| id := id t; text := s; completed := completed t; order := order t |}.
Definition set_completed (b : bool) (t : Task) : Task :=
  {| id := id t; text := text t; completed := b; order := order t |}.
Definition set_order (o : Z) (t : Task) : Task :=
  {| id := id t; text := text t; completed := completed t; order := o |}.

(** A [Task] object built from whatever a parsed snapshot holds: every
    field is a JSON value or [undefined] ([None]). *)
Record TaskObj : Type := new_TaskObj {
  obj_id : option json;
  obj_text : option json;
  obj_completed : option json;
  obj_order : option json
}.

(** The same constructor on untyped arguments: a default replaces an
    [undefined] argument and nothing else. *)
Definition TaskObj_constructor (now : Z) (i t c o : option json) : TaskObj :=
  {| obj_id := i; obj_text := t;
     obj_completed := Some (default (JBool false) c);
     obj_order := Some (default (JNum now 0) o) |}.

Definition obj_of_Task (t : Task) : TaskObj :=
  {| obj_id := Some (JStr (id t)); obj_text := Some (JStr (text t));
     obj_completed := Some (JBool (completed t));
     obj_order := Some (JNum (order t) 0) |}.

(** What one [<li>] of the rendered list carries. *)
Record Item : Type := new_Item {
  data_id : jsstring;
  escapedText : jsstring;
  completedClass : bool
}.

Inductive Exn : Type := QuotaExceededError | TypeError | SyntaxError.

(** Calls made to the collaborators, in the order they happen. *)
Inductive Effect : Type :=
| SetItem (key value : jsstring)
| Render (items : list Item)
| Announce (message : jsstring)
| FocusInput
| ClearInput
| ConsoleError (message : jsstring) (x : Exn)
| Uncaught (x : Exn).

Record State : Type := new_State {
  tasks : list Task;
  currentFilter : jsstring;
  localStorage : gmap jsstring jsstring;
  trace : list Effect
}.

(** What the platform supplies while one event is handled. *)
Record Env : Type := new_Env {
  Date_now : Z;
  randomUUID : jsstring;
  quota_exceeded : bool
}.

(* ================================================================== *)
(** ** 4. The state-and-exception monad of the script *)

Inductive Res (A : Type) : Type :=
| Ret (a : A)
| Throw (x : Exn).
Arguments Ret {A} a.
Arguments Throw {A} x.

Definition M (A : Type) : Type := State -> Res A * State.

#[export] Instance M_ret : MRet M := fun A a st => (Ret a, st).
#[export] Instance M_bind : MBind M := fun A B k c st =>
  match c st with
  | (Ret a, st') => k a st'
  | (Throw x, st') => (Throw x, st')
  end.

#[export] Instance Res_ret : MRet Res := fun A a => Ret a.
#[export] Instance Res_bind : MBind Res := fun A B k c =>
  match c with
  | Ret a => k a
  | Throw x => Throw x
  end.

Definition get_tasks : M (list Task) := fun st => (Ret (tasks st), st).

Definition put_tasks (ts : list Task) : M unit := fun st =>
  (Ret tt, {| tasks := ts; currentFilter := currentFilter st;
              localStorage := localStorage st; trace := trace st |}).

Definition get_filter : M jsstring := fun st => (Ret (currentFilter st), st).

Definition log_effect (ev : Effect) (st : State) : State :=
  {| tasks := tasks st; currentFilter := currentFilter st;
     localStorage := localStorage st; trace := trace st ++ [ev] |}.

Definition emit (ev : Effect) : M unit := fun st => (Ret tt, log_effect ev st).

Definition throw {A : Type} (x : Exn) : M A := fun st => (Throw x, st).

(** [localStorage.setItem(key, value)]: throws when the quota is
    exceeded, and then stores nothing. *)
Definition localStorage_setItem (e : Env) (key value : jsstring) : M unit :=
  fun st =>
    let st' := log_effect (SetItem key value) st in
    if quota_exceeded e then (Throw QuotaExceededError, st')
    else (Ret tt, {| tasks := tasks st'; currentFilter := currentFilter st';
                     localStorage := <[key := value]> (localStorage st');
                     trace := trace st' |}).

(* ================================================================== *)
(** ** 5. Array helpers *)

(** [a === b] on strings *)
Definition streq (a b : jsstring) : bool := bool_decide (a = b).

Section Arrays.
Context {A : Type}.

Fixpoint findIndex_from (p : A -> bool) (l : list A) (i : Z) : Z :=
  match l with
  | [] => -1
  | x :: r => if p x then i else findIndex_from p r (i + 1)
  end.

(** [l.findIndex(p)]: the first index whose element passes, or -1. *)
Definition findIndex (p : A -> bool) (l : list A) : Z := findIndex_from p l 0.

(** Where [splice] starts: a negative [start] counts from the end, and
    the result is clamped to the array. *)
Definition splice_start (len : nat) (start : Z) : nat :=
  if start <? 0 then Z.to_nat (Z.max (Z.of_nat len + start) 0)
  else Z.to_nat (Z.min start (Z.of_nat len)).

(** [l.splice(start, deleteCount, ...items)]: the removed elements and
    the array afterwards. *)
Definition splice (l : list A) (start deleteCount : Z) (items : list A)
  : list A * list A :=
  let s := splice_start (length l) start in
  let d := Z.to_nat (Z.min (Z.max deleteCount 0) (Z.of_nat (length l - s))) in
  (take d (drop s l), take s l ++ items ++ drop (s + d) l).

(** In-place change of the object [l.find(p)] returns. *)
Fixpoint update_first (p : A -> bool) (f : A -> A) (l : list A) : list A :=
  match l with
  | [] => []
  | x :: r => if p x then f x :: r else x :: update_first p f r
  end.

(** Stable sort under a comparator [(a, b) => number]: [x] goes before
    the first element it does not compare greater than. *)
Fixpoint sort_insert (cmp : A -> A -> Z) (x : A) (l : list A) : list A :=
  match l with
  | [] => [x]
  | y :: r => if cmp x y <=? 0 then x :: y :: r else y :: sort_insert cmp x r
  end.

Fixpoint sort (cmp : A -> A -> Z) (l : list A) : list A :=
  match l with
  | [] => []
  | x :: r => sort_insert cmp x (sort cmp r)
  end.
End Arrays.

(* ================================================================== *)
(** ** 6. Persistence: [saveTasks], [loadTasks] *)

(** [JSON.stringify] of one [Task]: its own properties in creation
    order. *)
Definition stringify_Task (t : Task) : jsstring :=
  [ch "{"] ++ QuoteJSONString (js "id") ++ [ch ":"] ++ QuoteJSONString (id t)
  ++ [ch ","] ++ QuoteJSONString (js "text") ++ [ch ":"]
  ++ QuoteJSONString (text t)
  ++ [ch ","] ++ QuoteJSONString (js "completed") ++ [ch ":"]
  ++ (if completed t then js "true" else js "false")
  ++ [ch ","] ++ QuoteJSONString (js "order") ++ [ch ":"]
  ++ Number_toString (order t) ++ [ch "}"].

Fixpoint stringify_elements (ts : list Task) : jsstring :=
  match ts with
  | [] => []
  | [t] => stringify_Task t
  | t :: r => stringify_Task t ++ [ch ","] ++ stringify_elements r
  end.

(** [JSON.stringify(tasks)] *)
Definition JSON_stringify (ts : list Task) : jsstring :=
  [ch "["] ++ stringify_elements ts ++ [ch "]"].

Definition saveTasks (e : Env) : M unit :=
  ts ← get_tasks;
  localStorage_setItem e STORAGE_KEY (JSON_stringify ts).

(** The value of the last member named [k] (a later duplicate replaces an
    earlier one), or [undefined]. *)
Fixpoint own_property (k : jsstring) (fields : list (jsstring * json))
  : option json :=
  match fields with
  | [] => None
  | (k', v) :: r =>
      match own_property k r with
      | Some w => Some w
      | None => if streq k' k then Some v else None
      end
  end.

(** [t.k] for a parsed value [t] and [k] one of [id], [text],
    [completed], [order]: a [TypeError] on [null], the member on an
    object, [undefined] on anything else (no array, string, number or
    boolean has a property of these names). *)
Definition get_property (t : json) (k : jsstring) : Res (option json) :=
  match t with
  | JNull => Throw TypeError
  | JObj fields => Ret (own_property k fields)
  | _ => Ret None
  end.

(** [t => new Task(t.id, t.text, t.completed, t.order)]; [now] is what
    [Date.now()] answers during this call (the constructor reads it only
    when [t.order] is [undefined]). *)
Definition revive (now : Z) (t : json) : Res TaskObj :=
  i ← get_property t (js "id");
  x ← get_property t (js "text");
  c ← get_property t (js "completed");
  o ← get_property t (js "order");
  Ret (TaskObj_constructor now i x c o).

(** The loop of [map]: the callback is called on the elements in index
    order, with the element and its index, and the first exception ends
    the loop. *)
Fixpoint map_Res_from {A B : Type} (f : nat -> A -> Res B) (i : nat)
    (l : list A) : Res (list B) :=
  match l with
  | [] => Ret []
  | a :: r => b ← f i a; bs ← map_Res_from f (S i) r; Ret (b :: bs)
  end.

Definition map_Res {A B : Type} (f : nat -> A -> Res B) (l : list A)
  : Res (list B) :=
  map_Res_from f 0 l.

(** [parsed.map(f)]: only an array has a [map] to call. *)
Definition Array_map {B : Type} (parsed : json) (f : nat -> json -> Res B)
  : Res (list B) :=
  match parsed with
  | JArr items => map_Res f items
  | _ => Throw TypeError
  end.

(** The body of the [try] block of [loadTasks]. The constructor is
    called once per element, so the clock is read once per element:
    [clock i] is what [Date.now()] answers while the element at index
    [i] is built. *)
Definition parse_tasks (clock : nat -> Z) (data : jsstring)
  : Res (list TaskObj) :=
  parsed ← match JSON_parse data with
           | Some v => Ret v
           | None => Throw SyntaxError
           end;
  Array_map parsed (fun i t => revive (clock i) t).

(** [try { body } catch (e) { handler }] *)
Definition try_catch {A : Type} (body : Res A) (handler : Exn -> Res A)
  : Res A :=
  match body with
  | Ret a => Ret a
  | Throw x => handler x
  end.

(** [loadTasks()]: the value assigned to [tasks] and what is written to
    the console. [clock] gives the clock readings of the constructor
    calls, one per element of the stored array. *)
Definition loadTasks (clock : nat -> Z) (storage : gmap jsstring jsstring)
  : Res (list TaskObj * list Effect) :=
  let data := storage !! STORAGE_KEY in
  match data with
  | Some d =>
      if truthy_string d then
        try_catch
          (objs ← parse_tasks clock d; Ret (objs, []))
          (fun x =>
             Ret ([], [ConsoleError (js "Failed to parse tasks from storage") x]))
      else Ret ([], [])
  | None => Ret ([], [])
  end.

(* ================================================================== *)
(** ** 7. Rendering: [announce], [renderTasks] *)

(** [announce(message)]: the live region is handed the message (after a
    short timer, which is not modelled). *)
Definition announce (message : jsstring) : M unit := emit (Announce message).

(** [[...tasks].sort((a, b) => a.order - b.order)] *)
Definition sortByOrder (ts : list Task) : list Task :=
  sort (fun a b => order a - order b) ts.

(** The predicate of [sorted.filter(...)] under the filter [f]. *)
Definition passes (f : jsstring) (task : Task) : bool :=
  if streq f FILTER.ALL then true
  else if streq f FILTER.ACTIVE then negb (completed task)
  else if streq f FILTER.COMPLETED then completed task
  else true.

(** [filtered] in [renderTasks]: the projection shown to the user. *)
Definition project (ts : list Task) (f : jsstring) : list Task :=
  List.filter (passes f) (sortByOrder ts).

(** [text.replace(/</g, '&lt;').replace(/>/g, '&gt;')] *)
Definition escape_html (s : jsstring) : jsstring :=
  flat_map (fun c : N =>
    if (c =? ch "<")%N then js "&lt;"
    else if (c =? ch ">")%N then js "&gt;"
    else [c]) s.

Definition render_item (task : Task) : Item :=
  {| data_id := id task; escapedText := escape_html (text task);
     completedClass := completed task |}.

(** The markup assigned to [taskList.innerHTML] is kept as the list of
    its items; attaching the drag listeners to them changes no data. *)
Definition renderTasks : M unit :=
  ts ← get_tasks;
  f ← get_filter;
  emit (Render (List.map render_item (project ts f))).

(* ================================================================== *)
(** ** 8. Drag and drop: [onDrop] *)

(** [tasks.forEach((t, i) => (t.order = now + i))] *)
Definition reassign_order (now : Z) (ts : list Task) : list Task :=
  imap (fun i t => set_order (now + Z.of_nat i) t) ts.

(** [draggedId] is the transfer payload (empty when there is none),
    [targetId] the [data-id] of the item dropped on. The calls that only
    restyle the item ([preventDefault], [classList.remove]) are left
    out. *)
Definition onDrop (e : Env) (draggedId targetId : jsstring) : M unit :=
  if negb (truthy_string draggedId) || streq draggedId targetId then mret tt
  else
    ts ← get_tasks;
    let draggedIndex := findIndex (fun t => streq (id t) draggedId) ts in
    let targetIndex := findIndex (fun t => streq (id t) targetId) ts in
    if (draggedIndex =? -1) || (targetIndex =? -1) then mret tt
    else
      let '(removed, ts1) := splice ts draggedIndex 1 [] in
      match removed with
      | draggedTask :: _ =>
          let insertAt :=
            if draggedIndex <? targetIndex then targetIndex - 1
            else targetIndex in
          let '(_, ts2) := splice ts1 insertAt 0 [draggedTask] in
          let now := Date_now e in
          put_tasks (reassign_order now ts2);;
          saveTasks e;;
          renderTasks;;
          announce (js "Task reordered")
      | [] =>
          (* nothing was removed: [draggedTask] is [undefined], and the
             [forEach] fails on it; [draggedIndex] being a valid index,
             this branch is never taken *)
          throw TypeError
      end.

(* ================================================================== *)
(** ** 9. Task manipulation *)

Definition addTask (e : Env) (text0 : jsstring) : M unit :=
  if negb (truthy_string text0) then mret tt
  else
    let id0 := randomUUID e in
    let task := Task_constructor (Date_now e) id0 text0 None None in
    ts ← get_tasks;
    put_tasks (ts ++ [task]);;
    saveTasks e;;
    renderTasks;;
    announce (js "Task added");;
    emit FocusInput.

Definition editTask (e : Env) (id0 newText : jsstring) : M unit :=
  ts ← get_tasks;
  match List.find (fun t => streq (id t) id0) ts with
  | None => mret tt
  | Some _ =>
      put_tasks (update_first (fun t => streq (id t) id0) (set_text newText) ts);;
      saveTasks e;;
      renderTasks;;
      announce (js "Task edited")
  end.

Definition deleteTask (e : Env) (id0 : jsstring) : M unit :=
  ts ← get_tasks;
  let index := findIndex (fun t => streq (id t) id0) ts in
  if index =? -1 then mret tt
  else
    put_tasks (snd (splice ts index 1 []));;
    saveTasks e;;
    renderTasks;;
    announce (js "Task deleted").

Definition toggleComplete (e : Env) (id0 : jsstring) : M unit :=
  ts ← get_tasks;
  match List.find (fun t => streq (id t) id0) ts with
  | None => mret tt
  | Some task =>
      put_tasks (update_first (fun t => streq (id t) id0)
                   (fun t => set_completed (negb (completed t)) t) ts);;
      saveTasks e;;
      renderTasks;;
      announce (if negb (completed task) then js "Task completed"
                else js "Task marked as active")
  end.

Definition clearCompleted (e : Env) : M unit :=
  ts ← get_tasks;
  let before := length ts in
  put_tasks (List.filter (fun t => negb (completed t)) ts);;
  ts' ← get_tasks;
  if negb (length ts' =? before)%nat then
    saveTasks e;;
    renderTasks;;
    announce (js "Completed tasks cleared")
  else mret tt.

(* ================================================================== *)
(** ** 10. Event handlers *)

(** The [submit] listener of the form (the [Enter] shortcut on the input
    does the same): [value] is what the input field holds. *)
Definition onSubmit (e : Env) (value : jsstring) : M unit :=
  let text0 := trim value in
  if truthy_string text0 then
    addTask e text0;;
    emit ClearInput
  else mret tt.

(** The edit button (and Ctrl+E): [answer] is what [prompt] returned,
    [None] when it was cancelled. *)
Definition onEdit (e : Env) (id0 : jsstring) (answer : option jsstring)
  : M unit :=
  match answer with
  | Some newText => editTask e id0 (trim newText)
  | None => mret tt
  end.

(** The functions that change the task list. *)
Inductive Action : Type :=
| AddTask (text0 : jsstring)
| EditTask (id0 newText : jsstring)
| DeleteTask (id0 : jsstring)
| ToggleComplete (id0 : jsstring)
| ClearCompleted
| Drop (draggedId targetId : jsstring).

Definition perform (e : Env) (a : Action) : M unit :=
  match a with
  | AddTask t => addTask e t
  | EditTask i t => editTask e i t
  | DeleteTask i => deleteTask e i
  | ToggleComplete i => toggleComplete e i
  | ClearCompleted => clearCompleted e
  | Drop d t => onDrop e d t
  end.

(** How the browser runs a listener: an exception the listener lets
    escape is reported to the console and the page goes on. *)
Definition dispatch (handler : M unit) (st : State) : State :=
  match handler st with
  | (Ret _, st') => st'
  | (Throw x, st') => log_effect (Uncaught x) st'
  end.


(* ================================================================== *)
(** ** 11. Vocabulary of the properties *)

Definition with_tasks (ts : list Task) (st : State) : State :=
  {| tasks := ts; currentFilter := currentFilter st;
     localStorage := localStorage st; trace := trace st |}.

(** A computation that changes neither [tasks] nor [currentFilter]. *)
Definition keeps_store {A : Type} (c : M A) : Prop :=
  forall st, tasks (snd (c st)) = tasks st /\
             currentFilter (snd (c st)) = currentFilter st.

(** What a reorder must not touch. *)
Definition core (t : Task) : jsstring * jsstring * bool :=
  (id t, text t, completed t).

(** The collection [A(order=1), B(order=2), C(order=3)] of the reorder
    scenario, with any texts and completion flags. *)
Definition scenario (ta tb tc : jsstring) (ca cb cc : bool) : list Task :=
  [new_Task (js "A") ta ca 1; new_Task (js "B") tb cb 2;
   new_Task (js "C") tc cc 3].

(** A page showing the scenario under the [All] filter, nothing stored
    yet, and a clock reading with working storage. *)
Definition scenario_state : State :=
  new_State (scenario (js "a") (js "b") (js "c") false true false)
            FILTER.ALL ∅ [].

Definition scenario_env : Env := new_Env 1700000000000 (js "u-1") false.

(** A clock that has advanced by one millisecond at each reading. *)
Definition ticking (start : Z) : nat -> Z := fun i => start + Z.of_nat i.

(** A computation that returns normally and changes neither [tasks] nor
    [currentFilter]: what follows [saveTasks] in every operation. *)
Definition quiet (c : M unit) : Prop :=
  forall st, fst (c st) = Ret tt /\ tasks (snd (c st)) = tasks st /\
             currentFilter (snd (c st)) = currentFilter st.

Definition all_white (s : jsstring) : Prop :=
  Forall (fun c => is_white c = true) s.

(** [s] neither starts nor ends with white space. *)
Definition trimmed (s : jsstring) : Prop :=
  (forall c r, s = c :: r -> is_white c = false) /\
  (forall c r, s = r ++ [c] -> is_white c = false).

(** An empty page: no tasks, the [All] filter, nothing stored. *)
Definition empty_state : State := new_State [] FILTER.ALL ∅ [].

(** The value [JSON.stringify] writes for a task, as [JSON.parse] reads
    it back. *)
Definition json_of_Task (t : Task) : json :=
  JObj [(js "id", JStr (id t)); (js "text", JStr (text t));
        (js "completed", JBool (completed t)); (js "order", JNum (order t) 0)].

(** The typed task a loaded object is, when its four fields have the
    types of the data model. *)
Definition Task_of_obj (o : TaskObj) : option Task :=
  match obj_id o, obj_text o, obj_completed o, obj_order o with
  | Some (JStr i), Some (JStr x), Some (JBool c), Some (JNum m 0) =>
      Some (new_Task i x c m)
  | _, _, _, _ => None
  end.

(** The result of reading a string literal whose first code units are
    [c], given the result [r] of reading what follows them. *)
Definition read_more (c : jsstring) (r : option (jsstring * jsstring))
  : option (jsstring * jsstring) :=
  match r with
  | Some (str, rest) => Some (c ++ str, rest)
  | None => None
  end.

Definition is_null (v : json) : bool :=
  match v with JNull => true | _ => false end.

Definition parse_failure (x : Exn) : Effect :=
  ConsoleError (js "Failed to parse tasks from storage") x.

(* ================================================================== *)
(** ** 12. Filter changes, the remaining listeners, start-up *)

Definition put_filter (f : jsstring) : M unit := fun st =>
  (Ret tt, {| tasks := tasks st; currentFilter := f;
              localStorage := localStorage st; trace := trace st |}).

(** The click listener of a filter button: [filter] is
    [btn.dataset.filter], [None] when the button has no such attribute.
    Setting [aria-pressed] on the buttons changes no data and is left
    out. *)
Definition onFilterClick (e : Env) (filter : option jsstring) : M unit :=
  match filter with
  | None => mret tt
  | Some f =>
      if negb (truthy_string f) then mret tt
      else
        put_filter f;;
        localStorage_setItem e FILTER_KEY f;;
        renderTasks
  end.

Section Capitalised.
(** [String.prototype.toUpperCase], which follows the Unicode case
    tables, on the string of at most one code unit that [charAt(0)]
    returns. *)
Variable toUpperCase : jsstring -> jsstring.

(** [s.charAt(0).toUpperCase() + s.slice(1)] *)
Definition capitalised (s : jsstring) : jsstring :=
  toUpperCase (take 1 s) ++ drop 1 s.

(** [setFilter(filter)], what Alt+1, Alt+2 and Alt+3 call. *)
Definition setFilter (e : Env) (filter : jsstring) : M unit :=
  put_filter filter;;
  localStorage_setItem e FILTER_KEY filter;;
  renderTasks;;
  announce (capitalised filter ++ js " filter applied").

(** The Alt+1, Alt+2, Alt+3 branch of the [keydown] listener: [key] is
    [e.key]. *)
Definition onAltKey (e : Env) (key : jsstring) : M unit :=
  if streq key (js "1") then setFilter e FILTER.ALL
  else if streq key (js "2") then setFilter e FILTER.ACTIVE
  else if streq key (js "3") then setFilter e FILTER.COMPLETED
  else mret tt.
End Capitalised.

(** The delete button (and the Delete key): [confirmed] is what
    [confirm] returned. *)
Definition onDelete (e : Env) (id0 : jsstring) (confirmed : bool) : M unit :=
  if confirmed then deleteTask e id0 else mret tt.

(** [localStorage.getItem(key) || fallback] *)
Definition getItem_or (storage : gmap jsstring jsstring)
    (key fallback : jsstring) : jsstring :=
  match storage !! key with
  | Some v => if truthy_string v then v else fallback
  | None => fallback
  end.

(** [savedFilter] of [initApp]: the value [currentFilter] starts with. *)
Definition savedFilter (storage : gmap jsstring jsstring) : jsstring :=
  getItem_or storage FILTER_KEY FILTER.ALL.

(** [task.text.replace(/</g, '&lt;').replace(/>/g, '&gt;')] of
    [renderTasks] on a loaded object: only a string has a [replace] to
    call, and on [undefined] and [null] the property access itself
    throws. *)
Definition escapedText_of (task : TaskObj) : Res jsstring :=
  match obj_text task with
  | Some (JStr s) => Ret (escape_html s)
  | _ => Throw TypeError
  end.

(* ================================================================== *)
(** ** 13. Vocabulary of the further properties *)

(** What the user can do to the page, with what the dialogs answered. *)
Inductive Event : Type :=
| Submit (value : jsstring)
| EditClick (id0 : jsstring) (answer : option jsstring)
| DeleteClick (id0 : jsstring) (confirmed : bool)
| ToggleClick (id0 : jsstring)
| ClearClick
| DropOn (draggedId targetId : jsstring)
| FilterClick (filter : option jsstring)
| AltKey (key : jsstring).

(** The listener an event runs. *)
Definition listener (toUpperCase : jsstring -> jsstring) (e : Env)
    (ev : Event) : M unit :=
  match ev with
  | Submit v => onSubmit e v
  | EditClick i a => onEdit e i a
  | DeleteClick i c => onDelete e i c
  | ToggleClick i => toggleComplete e i
  | ClearClick => clearCompleted e
  | DropOn d t => onDrop e d t
  | FilterClick f => onFilterClick e f
  | AltKey k => onAltKey toUpperCase e k
  end.

(** A session: the events in turn, each with the readings of its
    moment. *)
Fixpoint session (toUpperCase : jsstring -> jsstring)
    (evs : list (Env * Event)) (st : State) : State :=
  match evs with
  | [] => st
  | (e, ev) :: rest =>
      session toUpperCase rest (dispatch (listener toUpperCase e ev) st)
  end.

(** Reloading the page would bring back the task list and the filter. *)
Definition restorable (st : State) : Prop :=
  (forall clock, loadTasks clock (localStorage st)
                 = Ret (List.map obj_of_Task (tasks st), [])) /\
  savedFilter (localStorage st) = currentFilter st.

Definition appends (evs : list Effect) (st : State) : State :=
  {| tasks := tasks st; currentFilter := currentFilter st;
     localStorage := localStorage st; trace := trace st ++ evs |}.

(** An effect on what the user sees or hears, not on storage or the
    console. *)
Definition is_display (ev : Effect) : Prop :=
  match ev with
  | Render _ | Announce _ | FocusInput | ClearInput => True
  | _ => False
  end.

(** A computation that returns normally and only adds display effects. *)
Definition display_only (c : M unit) : Prop :=
  forall st, exists evs, c st = (Ret tt, appends evs st) /\ Forall is_display evs.

(** The state after a write of the task list [ts] that storage accepted,
    followed by the display effects [evs]. *)
Definition written (ts : list Task) (evs : list Effect) (st : State) : State :=
  {| tasks := ts; currentFilter := currentFilter st;
     localStorage := <[STORAGE_KEY := JSON_stringify ts]> (localStorage st);
     trace := trace st ++ SetItem STORAGE_KEY (JSON_stringify ts) :: evs |}.

(** The state after a write of [ts] that storage refused. *)
Definition unwritten (ts : list Task) (st : State) : State :=
  {| tasks := ts; currentFilter := currentFilter st;
     localStorage := localStorage st;
     trace := trace st ++ [SetItem STORAGE_KEY (JSON_stringify ts)] |}.

(** Ascending order keys. *)
Definition ascending (ts : list Task) : Prop :=
  StronglySorted (fun a b => order a <= order b) ts.

Definition has_id (i : jsstring) (t : Task) : bool := streq (id t) i.

(* ================================================================== *)
(** * Properties *)

(** ** Arrays *)

Section ArrayFacts.
Context {A : Type}.
Implicit Types (p : A -> bool) (l : list A).

Lemma findIndex_from_spec p l i :
  (findIndex_from p l i = -1 /\ ~ 0 <= i) \/
  (findIndex_from p l i = -1 /\ forall x, In x l -> p x = false) \/
  (exists k x, findIndex_from p l i = i + Z.of_nat k /\ l !! k = Some x /\
               p x = true /\ forall y, In y (take k l) -> p y = false).
Proof.
  revert i. induction l as [|a l IH]; intros i; simpl.
  - right; left. split; [reflexivity | intros x []].
  - destruct (p a) eqn:Hpa.
    + right; right. exists 0%nat, a. simpl.
      repeat split; [lia | assumption | intros y []].
    + destruct (IH (i + 1)) as [[E Hi] | [[E Hall] | (k & x & E & Hk & Hx & Hbefore)]].
      * destruct (Z_le_gt_dec 0 i) as [Hle | Hgt]; [lia |].
        left. split; [assumption | lia].
      * right; left. split; [assumption |].
        intros x [<- | Hin]; auto.
      * right; right. exists (S k), x. simpl.
        repeat split; [lia | assumption | assumption |].
        intros y [<- | Hin]; auto.
Qed.

Lemma findIndex_absent p l :
  (forall x, In x l -> p x = false) -> findIndex p l = -1.
Proof.
  intros Hall. unfold findIndex.
  destruct (findIndex_from_spec p l 0)
    as [[E _] | [[E _] | (k & x & _ & Hk & Hx & _)]]; try assumption.
  apply list_elem_of_lookup_2, list_elem_of_In in Hk.
  rewrite (Hall x Hk) in Hx. discriminate.
Qed.

Lemma findIndex_present p l x :
  In x l -> p x = true ->
  exists k y, findIndex p l = Z.of_nat k /\ l !! k = Some y /\ p y = true /\
              forall z, In z (take k l) -> p z = false.
Proof.
  intros Hin Hx. unfold findIndex.
  destruct (findIndex_from_spec p l 0)
    as [[_ H0] | [[_ Hall] | (k & y & E & Hk & Hy & Hb)]].
  - lia.
  - rewrite (Hall x Hin) in Hx. discriminate.
  - exists k, y. rewrite E. repeat split; auto.
Qed.

Lemma splice_remove_one l (k : nat) x :
  l !! k = Some x ->
  splice l (Z.of_nat k) 1 [] = ([x], take k l ++ drop (S k) l).
Proof.
  intros Hk. pose proof (lookup_lt_Some _ _ _ Hk) as Hlt.
  unfold splice, splice_start.
  destruct (Z.ltb_spec (Z.of_nat k) 0) as [? | _]; [lia |].
  replace (Z.to_nat (Z.min (Z.of_nat k) (Z.of_nat (length l)))) with k by lia.
  replace (Z.to_nat (Z.min (Z.max 1 0) (Z.of_nat (length l - k)))) with 1%nat
    by lia.
  replace (k + 1)%nat with (S k) by lia.
  simpl. rewrite (drop_S _ _ _ Hk). reflexivity.
Qed.

Lemma splice_insert_one l (k : Z) x :
  0 <= k <= Z.of_nat (length l) ->
  splice l k 0 [x] = ([], take (Z.to_nat k) l ++ x :: drop (Z.to_nat k) l).
Proof.
  intros Hk. unfold splice, splice_start.
  destruct (Z.ltb_spec k 0) as [? | _]; [lia |].
  replace (Z.to_nat (Z.min k (Z.of_nat (length l)))) with (Z.to_nat k) by lia.
  replace (Z.to_nat (Z.min (Z.max 0 0) (Z.of_nat (length l - Z.to_nat k))))
    with 0%nat by lia.
  simpl. rewrite Nat.add_0_r. reflexivity.
Qed.

Lemma remove_insert_Permutation l (k j : nat) x :
  l !! k = Some x ->
  let l1 := take k l ++ drop (S k) l in
  Permutation (take j l1 ++ x :: drop j l1) l.
Proof.
  intros Hk l1.
  rewrite <- Permutation_middle, (take_drop j l1). unfold l1.
  rewrite Permutation_middle, <- (drop_S _ _ _ Hk), take_drop. reflexivity.
Qed.

Lemma sort_insert_Permutation cmp (x : A) l :
  Permutation (sort_insert cmp x l) (x :: l).
Proof.
  induction l as [|y l IH]; simpl; [reflexivity |].
  destruct (cmp x y <=? 0); [reflexivity |].
  rewrite IH. apply perm_swap.
Qed.

Lemma sort_Permutation cmp l : Permutation (sort cmp l) l.
Proof.
  induction l as [|x l IH]; simpl; [reflexivity |].
  rewrite sort_insert_Permutation, IH. reflexivity.
Qed.

(** An element that compares at most equal to everything after it
    stays in front. *)
Lemma sort_insert_least cmp (x : A) l :
  (forall y, In y l -> cmp x y <= 0) -> sort_insert cmp x l = x :: l.
Proof.
  destruct l as [|y l]; simpl; [reflexivity |].
  intros H. destruct (Z.leb_spec (cmp x y) 0) as [_ | Hgt]; [reflexivity |].
  specialize (H y (or_introl eq_refl)). lia.
Qed.
End ArrayFacts.

Arguments splice : simpl never.
Arguments findIndex : simpl never.
Arguments JSON_stringify : simpl never.
Arguments project : simpl never.
Arguments sortByOrder : simpl never.

(** ** The monad and the effects that leave the task list alone *)

Lemma keeps_store_bind {A B : Type} (c : M A) (k : A -> M B) :
  keeps_store c -> (forall a, keeps_store (k a)) -> keeps_store (c ≫= k).
Proof.
  intros Hc Hk st. unfold mbind, M_bind.
  destruct (Hc st) as [H1 H2]. destruct (c st) as [[a | x] st']; simpl in *.
  - destruct (Hk a st') as [H3 H4]. split; congruence.
  - split; assumption.
Qed.

Lemma keeps_store_emit ev : keeps_store (emit ev).
Proof. intros st. split; reflexivity. Qed.

Lemma keeps_store_mret {A : Type} (a : A) : keeps_store (mret a).
Proof. intros st. split; reflexivity. Qed.

Lemma keeps_store_setItem e k v : keeps_store (localStorage_setItem e k v).
Proof.
  intros st. unfold localStorage_setItem.
  destruct (quota_exceeded e); split; reflexivity.
Qed.

Lemma keeps_store_saveTasks e : keeps_store (saveTasks e).
Proof.
  apply keeps_store_bind.
  - intros st. split; reflexivity.
  - intros ts. apply keeps_store_setItem.
Qed.

Lemma keeps_store_renderTasks : keeps_store renderTasks.
Proof.
  apply keeps_store_bind; [intros st; split; reflexivity |].
  intros ts. apply keeps_store_bind; [intros st; split; reflexivity |].
  intros f. apply keeps_store_emit.
Qed.

Lemma keeps_store_announce m : keeps_store (announce m).
Proof. apply keeps_store_emit. Qed.

Create HintDb store discriminated.
#[export] Hint Resolve keeps_store_emit keeps_store_mret keeps_store_saveTasks
  keeps_store_renderTasks keeps_store_announce : store.

Ltac keeps :=
  repeat first
    [ solve [ auto with store ] | apply keeps_store_bind; [| intros ? ] ].

Lemma quiet_bind (c : M unit) (k : unit -> M unit) :
  quiet c -> (forall a, quiet (k a)) -> quiet (c ≫= k).
Proof.
  intros Hc Hk st. unfold mbind, M_bind.
  destruct (Hc st) as (H1 & H2 & H3).
  destruct (c st) as [[[] | x] st']; simpl in *; [| discriminate].
  destruct (Hk tt st') as (H4 & H5 & H6). repeat split; congruence.
Qed.

Lemma quiet_emit ev : quiet (emit ev).
Proof. intros st. repeat split; reflexivity. Qed.

Lemma quiet_announce m : quiet (announce m).
Proof. apply quiet_emit. Qed.

Lemma quiet_renderTasks : quiet renderTasks.
Proof. intros st. repeat split; reflexivity. Qed.

Lemma quiet_keeps_store c : quiet c -> keeps_store c.
Proof. intros H st. destruct (H st) as (_ & H1 & H2). split; assumption. Qed.

#[export] Hint Resolve quiet_emit quiet_announce quiet_renderTasks : store.

Ltac quiet :=
  repeat first
    [ solve [ auto with store ] | apply quiet_bind; [| intros ? ] ].

Lemma streq_true a b : streq a b = true <-> a = b.
Proof. unfold streq. apply bool_decide_eq_true. Qed.

Lemma streq_false a b : streq a b = false <-> a <> b.
Proof. unfold streq. apply bool_decide_eq_false. Qed.

Lemma truthy_string_nonempty s : s <> [] -> truthy_string s = true.
Proof. destruct s; [congruence | reflexivity]. Qed.

(** ** Reordering *)

Lemma id_present d (ts : list Task) :
  In d (List.map id ts) ->
  exists x, In x ts /\ streq (id x) d = true.
Proof.
  intros H. apply in_map_iff in H as (x & <- & Hin).
  exists x. split; [assumption | apply streq_true; reflexivity].
Qed.

(** What a drop with a payload, distinct ids and both ids resolved does
    on the task list [ts]: the dragged task leaves index [di] and
    re-enters at index [k]. *)
Lemma onDrop_run d t (ts : list Task) :
  d <> [] -> d <> t ->
  In d (List.map id ts) -> In t (List.map id ts) ->
  exists (di ti : nat) (x y : Task),
    ts !! di = Some x /\ id x = d /\
    ts !! ti = Some y /\ id y = t /\
    di <> ti /\
    let ts1 := take di ts ++ drop (S di) ts in
    let k := if (di <? ti)%nat then (ti - 1)%nat else ti in
    let ts2 := take k ts1 ++ x :: drop k ts1 in
    forall e st, tasks st = ts ->
      onDrop e d t st =
      (saveTasks e;; renderTasks;; announce (js "Task reordered"))
        (with_tasks (reassign_order (Date_now e) ts2) st).
Proof.
  intros Hd Hne Hind Hint.
  destruct (id_present _ _ Hind) as (x0 & Hx0 & Hpx0).
  destruct (id_present _ _ Hint) as (y0 & Hy0 & Hpy0).
  destruct (findIndex_present (fun t0 => streq (id t0) d) _ _ Hx0 Hpx0)
    as (di & x & Edi & Hdi & Hx & _).
  destruct (findIndex_present (fun t0 => streq (id t0) t) _ _ Hy0 Hpy0)
    as (ti & y & Eti & Hti & Hy & _).
  apply streq_true in Hx, Hy.
  assert (di <> ti) as Hdt by (intros ->; congruence).
  exists di, ti, x, y. repeat split; try assumption.
  intros ts1 k ts2 e st <-.
  pose proof (lookup_lt_Some _ _ _ Hdi) as Hldi.
  pose proof (lookup_lt_Some _ _ _ Hti) as Hlti.
  unfold onDrop.
  rewrite (truthy_string_nonempty _ Hd), (proj2 (streq_false d t) Hne).
  cbn [negb orb].
  unfold mbind at 1, M_bind at 1, get_tasks at 1. cbv beta iota.
  rewrite Edi, Eti.
  replace ((Z.of_nat di =? -1) || (Z.of_nat ti =? -1)) with false
    by (symmetry; apply orb_false_iff; split; apply Z.eqb_neq; lia).
  rewrite (splice_remove_one _ _ _ Hdi). fold ts1.
  assert (length ts1 = (length (tasks st) - 1)%nat) as Hlen.
  { unfold ts1. rewrite length_app, length_take, length_drop. lia. }
  rewrite splice_insert_one.
  2:{ destruct (Z.ltb_spec (Z.of_nat di) (Z.of_nat ti)); lia. }
  replace (Z.to_nat (if Z.of_nat di <? Z.of_nat ti then Z.of_nat ti - 1
                     else Z.of_nat ti)) with k.
  2:{ unfold k. destruct (Z.ltb_spec (Z.of_nat di) (Z.of_nat ti));
      destruct (Nat.ltb_spec di ti); lia. }
  reflexivity.
Qed.

(** A drop is either ignored, or it stores a rearrangement of the tasks
    under fresh keys and then persists, renders and announces. Which of
    the two, and which rearrangement, depends on the task list alone. *)
Lemma onDrop_cases d t (ts : list Task) :
  (forall e st, tasks st = ts -> onDrop e d t st = (Ret tt, st)) \/
  (exists moved,
     Permutation moved ts /\
     forall e st, tasks st = ts ->
       onDrop e d t st =
       (saveTasks e;; renderTasks;; announce (js "Task reordered"))
         (with_tasks (reassign_order (Date_now e) moved) st)).
Proof.
  destruct (decide (d = [])) as [-> | Hd]; [left; reflexivity |].
  destruct (decide (d = t)) as [-> | Hne].
  { left. intros e st _. unfold onDrop.
    rewrite (proj2 (streq_true t t) eq_refl), orb_true_r. reflexivity. }
  destruct (decide (d ∈ List.map id ts)) as [Hind | Hnd];
    rewrite list_elem_of_In in *.
  - destruct (decide (t ∈ List.map id ts)) as [Hint | Hnt];
      rewrite list_elem_of_In in *.
    + right.
      destruct (onDrop_run d t ts Hd Hne Hind Hint)
        as (di & ti & x & y & Hdi & _ & _ & _ & _ & Hrun).
      cbv zeta in Hrun. eexists. split; [| exact Hrun].
      apply remove_insert_Permutation. exact Hdi.
    + left. intros e st <-. unfold onDrop.
      rewrite (truthy_string_nonempty _ Hd), (proj2 (streq_false d t) Hne).
      cbn [negb orb]. unfold mbind at 1, M_bind at 1, get_tasks at 1.
      cbv beta iota.
      rewrite (findIndex_absent (fun t0 => streq (id t0) t)).
      * rewrite orb_true_r. reflexivity.
      * intros x Hx. apply streq_false. intros <-. apply Hnt.
        apply in_map. exact Hx.
  - left. intros e st <-. unfold onDrop.
    rewrite (truthy_string_nonempty _ Hd), (proj2 (streq_false d t) Hne).
    cbn [negb orb]. unfold mbind at 1, M_bind at 1, get_tasks at 1.
    cbv beta iota.
    rewrite (findIndex_absent (fun t0 => streq (id t0) d)).
    + reflexivity.
    + intros x Hx. apply streq_false. intros <-. apply Hnd.
      apply in_map. exact Hx.
Qed.

Lemma reassign_order_core now ts :
  List.map core (reassign_order now ts) = List.map core ts.
Proof.
  unfold reassign_order.
  assert (forall (g : nat -> Task -> Task),
             (forall i t, core (g i t) = core t) ->
             List.map core (imap g ts) = List.map core ts) as Hgen.
  { induction ts as [|t ts IH]; intros g Hg; simpl; [reflexivity |].
    rewrite Hg. f_equal. apply IH. intros i t0. apply Hg. }
  apply Hgen. reflexivity.
Qed.

Lemma reassign_order_lookup now ts (i : nat) t :
  reassign_order now ts !! i = Some t ->
  exists t0, ts !! i = Some t0 /\ t = set_order (now + Z.of_nat i) t0.
Proof.
  unfold reassign_order. rewrite list_lookup_imap.
  destruct (ts !! i) as [t0|]; simpl; [| discriminate].
  intros [= <-]. exists t0. split; reflexivity.
Qed.

Lemma reassign_order_length now ts :
  length (reassign_order now ts) = length ts.
Proof. apply length_imap. Qed.

(** A list whose order keys grow strictly with the index is its own
    sorted copy. *)
Lemma sortByOrder_increasing ts :
  (forall (i j : nat) a b, (i < j)%nat -> ts !! i = Some a -> ts !! j = Some b ->
                           order a < order b) ->
  sortByOrder ts = ts.
Proof.
  unfold sortByOrder. induction ts as [|t ts IH]; intros Hinc; [reflexivity |].
  simpl. rewrite IH.
  - apply sort_insert_least. intros y Hy.
    apply list_elem_of_In, list_elem_of_lookup in Hy as [j Hj].
    specialize (Hinc 0%nat (S j) t y). simpl in Hinc.
    specialize (Hinc ltac:(lia) eq_refl Hj). lia.
  - intros i j a b Hij Ha Hb. apply (Hinc (S i) (S j)); [lia | exact Ha | exact Hb].
Qed.

Lemma filter_all_passes ts : List.filter (passes FILTER.ALL) ts = ts.
Proof.
  induction ts as [|t ts IH]; simpl; [reflexivity |].
  rewrite IH. reflexivity.
Qed.

Lemma tasks_after_persist e m st :
  tasks (snd ((saveTasks e;; renderTasks;; announce m) st)) = tasks st.
Proof.
  assert (keeps_store (saveTasks e;; renderTasks;; announce m)) as H by keeps.
  apply H.
Qed.

(** A drop never changes anything but positions and order keys, whether
    it reorders or is ignored. *)
Lemma onDrop_permutes e d t st :
  exists moved,
    Permutation moved (tasks st) /\
    (tasks (snd (onDrop e d t st)) = tasks st \/
     tasks (snd (onDrop e d t st)) = reassign_order (Date_now e) moved).
Proof.
  destruct (onDrop_cases d t (tasks st)) as [E | (moved & Hperm & E)].
  - exists (tasks st). split; [reflexivity | left].
    rewrite (E e st eq_refl). reflexivity.
  - exists moved. split; [exact Hperm | right].
    rewrite (E e st eq_refl), tasks_after_persist. reflexivity.
Qed.

(** The task list a drop leaves, as a function of the task list it
    found and of the clock reading. *)
Lemma onDrop_tasks e d t st :
  tasks (snd (onDrop e d t st)) =
  let ts := tasks st in
  if negb (truthy_string d) || streq d t then ts
  else
    let di := findIndex (fun t0 => streq (id t0) d) ts in
    let ti := findIndex (fun t0 => streq (id t0) t) ts in
    if (di =? -1) || (ti =? -1) then ts
    else
      match splice ts di 1 [] with
      | (x :: _, ts1) =>
          reassign_order (Date_now e)
            (snd (splice ts1 (if di <? ti then ti - 1 else ti) 0 [x]))
      | ([], _) => ts
      end.
Proof.
  cbv zeta. unfold onDrop.
  destruct (negb (truthy_string d) || streq d t); [reflexivity |].
  unfold mbind at 1, M_bind at 1, get_tasks at 1. cbv beta iota.
  destruct ((findIndex (fun t0 => streq (id t0) d) (tasks st) =? -1)
            || (findIndex (fun t0 => streq (id t0) t) (tasks st) =? -1));
    [reflexivity |].
  destruct (splice (tasks st) _ 1 []) as [[|x removed] ts1]; [reflexivity |].
  destruct (splice ts1 _ 0 [x]) as [removed' ts2].
  unfold mbind at 1, M_bind at 1, put_tasks at 1. cbv beta iota.
  apply tasks_after_persist.
Qed.

Lemma reassign_order_increasing now ts (i j : nat) a b :
  (i < j)%nat ->
  reassign_order now ts !! i = Some a -> reassign_order now ts !! j = Some b ->
  order a < order b.
Proof.
  intros Hij Ha Hb.
  apply reassign_order_lookup in Ha as (a0 & _ & ->).
  apply reassign_order_lookup in Hb as (b0 & _ & ->).
  simpl. lia.
Qed.

(** C1, as the specification states it, fails on its forward half:
    dropping [A] onto [C] leaves [A] right before [C]. *)
Lemma drop_A_onto_C_is_not_BCA :
  List.map id (tasks (snd (onDrop scenario_env (js "A") (js "C") scenario_state)))
  = [js "B"; js "A"; js "C"] /\
  List.map id (tasks (snd (onDrop scenario_env (js "A") (js "C") scenario_state)))
  <> [js "B"; js "C"; js "A"] /\
  List.map id (project
    (tasks (snd (onDrop scenario_env (js "A") (js "C") scenario_state)))
    FILTER.ALL)
  <> [js "B"; js "C"; js "A"].
Proof. vm_compute. repeat split; discriminate. Qed.

(** C1 (amended). From [A(order=1), B(order=2), C(order=3)], whatever
    the texts, flags, filter, storage and clock: dropping [A] onto [C]
    (forward) gives the sequence [B, A, C], and dropping [C] onto [A]
    (backward) gives [C, A, B]; the list shown under the [All] filter is
    in the same sequence. *)
Theorem reorder_scenario e ta tb tc ca cb cc f storage tr :
  let st := new_State (scenario ta tb tc ca cb cc) f storage tr in
  let forward := tasks (snd (onDrop e (js "A") (js "C") st)) in
  let backward := tasks (snd (onDrop e (js "C") (js "A") st)) in
  List.map core forward =
    [(js "B", tb, cb); (js "A", ta, ca); (js "C", tc, cc)] /\
  List.map core backward =
    [(js "C", tc, cc); (js "A", ta, ca); (js "B", tb, cb)] /\
  List.map core (project forward FILTER.ALL) = List.map core forward /\
  List.map core (project backward FILTER.ALL) = List.map core backward.
Proof.
  intros st forward backward.
  assert (forward = reassign_order (Date_now e)
            [new_Task (js "B") tb cb 2; new_Task (js "A") ta ca 1;
             new_Task (js "C") tc cc 3]) as Hf
    by (unfold forward; rewrite onDrop_tasks; vm_compute; reflexivity).
  assert (backward = reassign_order (Date_now e)
            [new_Task (js "C") tc cc 3; new_Task (js "A") ta ca 1;
             new_Task (js "B") tb cb 2]) as Hb
    by (unfold backward; rewrite onDrop_tasks; vm_compute; reflexivity).
  assert (forall l, project (reassign_order (Date_now e) l) FILTER.ALL
                    = reassign_order (Date_now e) l) as Hp.
  { intros l. unfold project.
    rewrite sortByOrder_increasing, filter_all_passes; [reflexivity |].
    intros i j a b. apply reassign_order_increasing. }
  rewrite Hf, Hb, !Hp, !reassign_order_core. repeat split; reflexivity.
Qed.

(** C6. After a drop that reorders (a payload, distinct ids, both
    resolved), the task at every index [i] has order key
    [Date.now() + i] for the one clock reading of the drop; the keys grow
    strictly along the stored sequence; and sorting by order, hence the
    list shown under [All], gives back exactly the stored sequence, which
    is the post-drop arrangement [moved] of the old tasks under the new
    keys, whatever the old keys were. *)
Theorem reorder_reassigns_order e d t st :
  d <> [] -> d <> t ->
  In d (List.map id (tasks st)) -> In t (List.map id (tasks st)) ->
  let ts' := tasks (snd (onDrop e d t st)) in
  (exists moved, Permutation moved (tasks st) /\
                 ts' = reassign_order (Date_now e) moved /\
                 List.map core ts' = List.map core moved) /\
  (forall (i : nat) task, ts' !! i = Some task ->
                          order task = Date_now e + Z.of_nat i) /\
  (forall (i j : nat) a b, (i < j)%nat -> ts' !! i = Some a -> ts' !! j = Some b ->
                           order a < order b) /\
  sortByOrder ts' = ts' /\
  project ts' FILTER.ALL = ts'.
Proof.
  intros Hd Hne Hind Hint ts'.
  destruct (onDrop_run d t (tasks st) Hd Hne Hind Hint)
    as (di & ti & x & y & Hdi & _ & _ & _ & _ & Hrun).
  cbv zeta in Hrun.
  assert (exists moved, Permutation moved (tasks st) /\
                        ts' = reassign_order (Date_now e) moved)
    as (moved & Hperm & Hts').
  { unfold ts'. rewrite (Hrun e st eq_refl), tasks_after_persist. simpl.
    eexists. split; [| reflexivity].
    apply remove_insert_Permutation. exact Hdi. }
  assert (forall (i j : nat) a b, (i < j)%nat ->
            ts' !! i = Some a -> ts' !! j = Some b -> order a < order b) as Hinc.
  { rewrite Hts'. intros i j a b. apply reassign_order_increasing. }
  assert (sortByOrder ts' = ts') as Hsort
    by (apply sortByOrder_increasing; exact Hinc).
  repeat split.
  - exists moved. repeat split; try assumption.
    rewrite Hts'. apply reassign_order_core.
  - intros i task Hi. rewrite Hts' in Hi.
    apply reassign_order_lookup in Hi as (t0 & _ & ->). reflexivity.
  - exact Hinc.
  - exact Hsort.
  - unfold project. rewrite Hsort. apply filter_all_passes.
Qed.

(** The scenario, [C] dropped onto [A]. *)
Lemma reorder_reassigns_order_witness :
  let ts' := tasks (snd (onDrop scenario_env (js "C") (js "A") scenario_state)) in
  (exists moved, Permutation moved (tasks scenario_state) /\
                 ts' = reassign_order (Date_now scenario_env) moved /\
                 List.map core ts' = List.map core moved) /\
  (forall (i : nat) task, ts' !! i = Some task ->
                          order task = Date_now scenario_env + Z.of_nat i) /\
  (forall (i j : nat) a b, (i < j)%nat -> ts' !! i = Some a -> ts' !! j = Some b ->
                           order a < order b) /\
  sortByOrder ts' = ts' /\
  project ts' FILTER.ALL = ts'.
Proof.
  apply (reorder_reassigns_order scenario_env (js "C") (js "A") scenario_state).
  - discriminate.
  - discriminate.
  - simpl. right. right. left. reflexivity.
  - simpl. left. reflexivity.
Defined.

(** C10. A drop with distinct ids that are both present permutes the
    collection: same length, the same ids, every task with its text and
    completed flag; only positions and order keys can differ. *)
Theorem reorder_is_permutation e d t st :
  d <> t ->
  In d (List.map id (tasks st)) -> In t (List.map id (tasks st)) ->
  let ts' := tasks (snd (onDrop e d t st)) in
  length ts' = length (tasks st) /\
  Permutation (List.map core ts') (List.map core (tasks st)) /\
  Permutation (List.map id ts') (List.map id (tasks st)) /\
  (forall i, In i (List.map id ts') <-> In i (List.map id (tasks st))) /\
  (forall task', In task' ts' ->
     exists task, In task (tasks st) /\ id task = id task' /\
                  text task = text task' /\ completed task = completed task').
Proof.
  intros _ _ _ ts'.
  assert (Permutation (List.map core ts') (List.map core (tasks st))) as Hcore.
  { destruct (onDrop_permutes e d t st) as (moved & Hperm & [E | E]);
      unfold ts'; rewrite E; [reflexivity |].
    rewrite reassign_order_core. apply Permutation_map. exact Hperm. }
  assert (Permutation (List.map id ts') (List.map id (tasks st))) as Hid.
  { apply (Permutation_map (fun c : jsstring * jsstring * bool => fst (fst c)))
      in Hcore.
    rewrite !List.map_map in Hcore. exact Hcore. }
  repeat split.
  - apply Permutation_length in Hcore. rewrite !length_map in Hcore. exact Hcore.
  - exact Hcore.
  - exact Hid.
  - apply Permutation_in. exact Hid.
  - apply Permutation_in. symmetry. exact Hid.
  - intros task' Hin.
    assert (In (core task') (List.map core (tasks st))) as Hc.
    { eapply Permutation_in; [exact Hcore |]. apply in_map. exact Hin. }
    apply in_map_iff in Hc as (task & Ec & Htask).
    exists task. unfold core in Ec. injection Ec as E1 E2 E3. auto.
Qed.

(** The scenario, [A] dropped onto [C]. *)
Lemma reorder_is_permutation_witness :
  let ts' := tasks (snd (onDrop scenario_env (js "A") (js "C") scenario_state)) in
  length ts' = length (tasks scenario_state) /\
  Permutation (List.map core ts') (List.map core (tasks scenario_state)) /\
  Permutation (List.map id ts') (List.map id (tasks scenario_state)) /\
  (forall i, In i (List.map id ts') <-> In i (List.map id (tasks scenario_state))) /\
  (forall task', In task' ts' ->
     exists task, In task (tasks scenario_state) /\ id task = id task' /\
                  text task = text task' /\ completed task = completed task').
Proof.
  apply (reorder_is_permutation scenario_env (js "A") (js "C") scenario_state).
  - discriminate.
  - simpl. left. reflexivity.
  - simpl. right. right. left. reflexivity.
Defined.

(** ** Edit, delete, toggle, clear *)

Lemma find_absent {A : Type} (p : A -> bool) (l : list A) :
  (forall x, In x l -> p x = false) -> List.find p l = None.
Proof.
  induction l as [|a l IH]; intros H; simpl; [reflexivity |].
  rewrite (H a (or_introl eq_refl)). apply IH. intros x Hx. apply H. right. exact Hx.
Qed.

Lemma id_absent id0 (ts : list Task) :
  ~ In id0 (List.map id ts) ->
  forall x, In x ts -> streq (id x) id0 = false.
Proof.
  intros Hn x Hx. apply streq_false. intros <-. apply Hn, in_map, Hx.
Qed.

(** C4. On an id that no task has, [editTask], [deleteTask] and
    [toggleComplete] return normally and leave the whole state as it was:
    the task list, the storage and the trace of calls, so nothing was
    written to storage and nothing was announced. *)
Theorem unknown_id_is_ignored e id0 newText st :
  ~ In id0 (List.map id (tasks st)) ->
  editTask e id0 newText st = (Ret tt, st) /\
  deleteTask e id0 st = (Ret tt, st) /\
  toggleComplete e id0 st = (Ret tt, st).
Proof.
  intros Hn. pose proof (id_absent _ _ Hn) as Hall.
  unfold editTask, deleteTask, toggleComplete.
  unfold mbind at 1 5 9, M_bind at 1 5 9, get_tasks. cbv beta iota.
  rewrite (find_absent _ _ Hall), (findIndex_absent _ _ Hall).
  repeat split; reflexivity.
Qed.

(** The scenario has no task with id [Z]. *)
Lemma unknown_id_is_ignored_witness :
  ~ In (js "Z") (List.map id (tasks scenario_state)) /\
  editTask scenario_env (js "Z") (js "new text") scenario_state
    = (Ret tt, scenario_state) /\
  deleteTask scenario_env (js "Z") scenario_state = (Ret tt, scenario_state) /\
  toggleComplete scenario_env (js "Z") scenario_state = (Ret tt, scenario_state).
Proof.
  assert (~ In (js "Z") (List.map id (tasks scenario_state))) as H.
  { simpl. intros [H | [H | [H | []]]]; discriminate H. }
  split; [exact H |].
  apply (unknown_id_is_ignored scenario_env (js "Z") (js "new text")
           scenario_state H).
Defined.

Lemma filter_active_length (ts : list Task) :
  (length (List.filter (fun t => negb (completed t)) ts) =? length ts)%nat
  = negb (existsb completed ts).
Proof.
  induction ts as [|t ts IH]; [reflexivity |].
  pose proof (filter_length_le (fun t => negb (completed t)) ts) as Hle.
  simpl. destruct (completed t); simpl.
  - apply Nat.eqb_neq. lia.
  - exact IH.
Qed.

Lemma filter_active_id (ts : list Task) :
  existsb completed ts = false ->
  List.filter (fun t => negb (completed t)) ts = ts.
Proof.
  induction ts as [|t ts IH]; [reflexivity |].
  simpl. destruct (completed t); simpl; [discriminate |].
  intros H. rewrite IH by exact H. reflexivity.
Qed.

Lemma filter_active_none (ts : list Task) :
  existsb completed (List.filter (fun t => negb (completed t)) ts) = false.
Proof.
  induction ts as [|t ts IH]; [reflexivity |].
  simpl. destruct (completed t) eqn:E; simpl; [exact IH |].
  rewrite E. exact IH.
Qed.

Lemma with_tasks_same st : with_tasks (tasks st) st = st.
Proof. destruct st. reflexivity. Qed.

(** [clearCompleted] keeps the tasks that are not completed; it goes on
    to persist, render and announce exactly when some task was
    completed. *)
Lemma clearCompleted_run e st :
  clearCompleted e st =
  if existsb completed (tasks st) then
    (saveTasks e;; renderTasks;; announce (js "Completed tasks cleared"))
      (with_tasks (List.filter (fun t => negb (completed t)) (tasks st)) st)
  else (Ret tt, st).
Proof.
  unfold clearCompleted.
  unfold mbind at 1 2 3, M_bind at 1 2 3, get_tasks, put_tasks.
  cbv beta iota. cbn [tasks]. rewrite filter_active_length, negb_involutive.
  destruct (existsb completed (tasks st)) eqn:E; [reflexivity |].
  rewrite filter_active_id by exact E.
  unfold mret, M_ret. f_equal. apply with_tasks_same.
Qed.

(** C5. [clearCompleted] leaves exactly the tasks that are not completed.
    When no task was completed the whole state, trace included, stays as
    it was; otherwise one write of the new list is attempted and, the
    write done, one render and one announcement follow. A second call
    right after the first is therefore ignored: no second write, no
    second announcement. *)
Theorem clearCompleted_only_when_changed e e' st :
  let st1 := snd (clearCompleted e st) in
  tasks st1 = List.filter (fun t => negb (completed t)) (tasks st) /\
  (forall t, In t (tasks st1) <-> In t (tasks st) /\ completed t = false) /\
  trace st1 = trace st ++
    (if existsb completed (tasks st) then
       SetItem STORAGE_KEY (JSON_stringify (tasks st1)) ::
       (if quota_exceeded e then []
        else [Render (List.map render_item (project (tasks st1) (currentFilter st)));
              Announce (js "Completed tasks cleared")])
     else []) /\
  (if existsb completed (tasks st) then True
   else clearCompleted e st = (Ret tt, st)) /\
  clearCompleted e' st1 = (Ret tt, st1).
Proof.
  intros st1.
  assert (tasks st1 = List.filter (fun t => negb (completed t)) (tasks st)) as Ht.
  { unfold st1. rewrite clearCompleted_run.
    destruct (existsb completed (tasks st)) eqn:E.
    - rewrite tasks_after_persist. reflexivity.
    - simpl. symmetry. apply filter_active_id. exact E. }
  split; [exact Ht |]. split; [| split; [| split]].
  - intros t. rewrite Ht, filter_In, negb_true_iff. reflexivity.
  - rewrite Ht. unfold st1. rewrite clearCompleted_run.
    destruct (existsb completed (tasks st)) eqn:E.
    + unfold saveTasks, localStorage_setItem, renderTasks, announce, emit,
        get_tasks, get_filter, mbind, M_bind.
      destruct (quota_exceeded e); simpl; rewrite <- ?app_assoc; reflexivity.
    + simpl. rewrite app_nil_r. reflexivity.
  - rewrite clearCompleted_run.
    destruct (existsb completed (tasks st)); [exact I | reflexivity].
  - rewrite (clearCompleted_run e' st1), Ht, filter_active_none. reflexivity.
Qed.

(** ** View projection *)

Lemma passes_active t : passes FILTER.ACTIVE t = negb (completed t).
Proof. reflexivity. Qed.

Lemma passes_completed t : passes FILTER.COMPLETED t = completed t.
Proof. reflexivity. Qed.

Lemma filter_split_Permutation {A : Type} (p : A -> bool) (l : list A) :
  Permutation (List.filter (fun x => negb (p x)) l ++ List.filter p l) l.
Proof.
  induction l as [|a l IH]; simpl; [reflexivity |].
  destruct (p a); simpl.
  - rewrite <- Permutation_middle. constructor. exact IH.
  - constructor. exact IH.
Qed.

(** C9. Under [All] the projection holds the ids of the collection, each
    as often as the collection does. The projections under [Active] and
    [Completed] split the collection: together they are a rearrangement
    of it, [Active] holds the tasks with [completed = false] and
    [Completed] those with [completed = true], so every task is in exactly
    one of the two. *)
Theorem projection_partitions (ts : list Task) :
  Permutation (List.map id (project ts FILTER.ALL)) (List.map id ts) /\
  (forall i, In i (List.map id (project ts FILTER.ALL)) <-> In i (List.map id ts)) /\
  Permutation (project ts FILTER.ACTIVE ++ project ts FILTER.COMPLETED) ts /\
  (forall t, In t (project ts FILTER.ACTIVE) <-> In t ts /\ completed t = false) /\
  (forall t, In t (project ts FILTER.COMPLETED) <-> In t ts /\ completed t = true) /\
  (forall t, In t ts ->
     (In t (project ts FILTER.ACTIVE) /\ ~ In t (project ts FILTER.COMPLETED)) \/
     (In t (project ts FILTER.COMPLETED) /\ ~ In t (project ts FILTER.ACTIVE))).
Proof.
  assert (Permutation (sortByOrder ts) ts) as Hsort by apply sort_Permutation.
  assert (forall t, In t (sortByOrder ts) <-> In t ts) as Hin.
  { intros t. split; apply Permutation_in; [exact Hsort | symmetry; exact Hsort]. }
  assert (forall t, In t (project ts FILTER.ACTIVE) <-> In t ts /\ completed t = false)
    as Hact.
  { intros t. unfold project. rewrite filter_In, passes_active, Hin, negb_true_iff.
    reflexivity. }
  assert (forall t, In t (project ts FILTER.COMPLETED) <-> In t ts /\ completed t = true)
    as Hcom.
  { intros t. unfold project. rewrite filter_In, passes_completed, Hin.
    reflexivity. }
  assert (Permutation (List.map id (project ts FILTER.ALL)) (List.map id ts)) as Hall.
  { unfold project. rewrite filter_all_passes. apply Permutation_map, Hsort. }
  split; [exact Hall |]. split.
  { intros i. split; apply Permutation_in; [exact Hall | symmetry; exact Hall]. }
  split.
  { unfold project. rewrite <- Hsort at 3.
    apply (filter_split_Permutation completed). }
  split; [exact Hact |]. split; [exact Hcom |].
  intros t Ht. destruct (completed t) eqn:E.
  - right. split; [apply Hcom; auto |]. intros H. apply Hact in H as [_ H].
    congruence.
  - left. split; [apply Hact; auto |]. intros H. apply Hcom in H as [_ H].
    congruence.
Qed.

(** ** Persistence failure *)

(** Every operation is either ignored, or it replaces the task list, calls
    [saveTasks] and then only renders and announces. Which of the two,
    and the new list, depend on the old task list and on the clock and
    UUID readings alone, never on whether storage works. *)
Lemma perform_cases a (ts : list Task) :
  (forall e st, tasks st = ts -> perform e a st = (Ret tt, st)) \/
  (exists (next : Z -> jsstring -> list Task) (rest : M unit),
     quiet rest /\
     forall e st, tasks st = ts ->
       perform e a st =
       (saveTasks e;; rest) (with_tasks (next (Date_now e) (randomUUID e)) st)).
Proof.
  destruct a as [t | i t | i | i | | d t]; simpl.
  - destruct t as [|c t]; [left; reflexivity |].
    right.
    exists (fun now uuid =>
              ts ++ [Task_constructor now uuid (c :: t) None None]),
           (renderTasks;; announce (js "Task added");; emit FocusInput).
    split; [quiet |]. intros e st <-. reflexivity.
  - destruct (List.find (fun t0 => streq (id t0) i) ts) eqn:E.
    + right.
      exists (fun _ _ =>
                update_first (fun t0 => streq (id t0) i) (set_text t) ts),
             (renderTasks;; announce (js "Task edited")).
      split; [quiet |]. intros e st <-. unfold editTask.
      unfold mbind at 1, M_bind at 1, get_tasks. cbv beta iota.
      rewrite E. reflexivity.
    + left. intros e st <-. unfold editTask.
      unfold mbind at 1, M_bind at 1, get_tasks. cbv beta iota.
      rewrite E. reflexivity.
  - destruct (findIndex (fun t0 => streq (id t0) i) ts =? -1) eqn:E.
    + left. intros e st <-. unfold deleteTask.
      unfold mbind at 1, M_bind at 1, get_tasks. cbv beta iota.
      rewrite E. reflexivity.
    + right.
      exists (fun _ _ =>
                snd (splice ts (findIndex (fun t0 => streq (id t0) i) ts) 1 [])),
             (renderTasks;; announce (js "Task deleted")).
      split; [quiet |]. intros e st <-. unfold deleteTask.
      unfold mbind at 1, M_bind at 1, get_tasks. cbv beta iota.
      rewrite E. reflexivity.
  - destruct (List.find (fun t0 => streq (id t0) i) ts) as [task|] eqn:E.
    + right.
      exists (fun _ _ =>
                update_first (fun t0 => streq (id t0) i)
                  (fun t0 => set_completed (negb (completed t0)) t0) ts),
             (renderTasks;;
              announce (if negb (completed task) then js "Task completed"
                        else js "Task marked as active")).
      split; [quiet |]. intros e st <-. unfold toggleComplete.
      unfold mbind at 1, M_bind at 1, get_tasks. cbv beta iota.
      rewrite E. reflexivity.
    + left. intros e st <-. unfold toggleComplete.
      unfold mbind at 1, M_bind at 1, get_tasks. cbv beta iota.
      rewrite E. reflexivity.
  - destruct (existsb completed ts) eqn:E.
    + right.
      exists (fun _ _ => List.filter (fun t => negb (completed t)) ts),
             (renderTasks;; announce (js "Completed tasks cleared")).
      split; [quiet |]. intros e st <-.
      rewrite clearCompleted_run, E. reflexivity.
    + left. intros e st <-. rewrite clearCompleted_run, E. reflexivity.
  - destruct (onDrop_cases d t ts) as [H | (moved & _ & H)].
    + left. exact H.
    + right.
      exists (fun now _ => reassign_order now moved),
             (renderTasks;; announce (js "Task reordered")).
      split; [quiet |]. exact H.
Qed.

Lemma save_then_quiet e rest st :
  quiet rest ->
  let r := (saveTasks e;; rest) st in
  tasks (snd r) = tasks st /\ currentFilter (snd r) = currentFilter st /\
  if quota_exceeded e then
    fst r = Throw QuotaExceededError /\
    localStorage (snd r) = localStorage st /\
    trace (snd r) = trace st ++ [SetItem STORAGE_KEY (JSON_stringify (tasks st))]
  else fst r = Ret tt.
Proof.
  intros Hq r. unfold r, saveTasks, localStorage_setItem, get_tasks.
  unfold mbind, M_bind. destruct (quota_exceeded e); simpl.
  - repeat split; reflexivity.
  - match goal with |- context [rest ?s] => destruct (Hq s) as (H1 & H2 & H3) end.
    simpl in *. repeat split; assumption.
Qed.

(** The task list an operation leaves depends on the task list it found
    and on the readings of the event, not on the rest of the state. *)
Lemma perform_tasks e a st st' :
  tasks st = tasks st' ->
  tasks (snd (perform e a st)) = tasks (snd (perform e a st')).
Proof.
  intros H.
  destruct (perform_cases a (tasks st)) as [E | (next & rest & Hq & E)].
  - rewrite (E e st eq_refl), (E e st' (eq_sym H)). simpl. exact H.
  - rewrite (E e st eq_refl), (E e st' (eq_sym H)).
    destruct (save_then_quiet e rest
                (with_tasks (next (Date_now e) (randomUUID e)) st) Hq)
      as (-> & _).
    destruct (save_then_quiet e rest
                (with_tasks (next (Date_now e) (randomUUID e)) st') Hq)
      as (-> & _).
    reflexivity.
Qed.

Lemma tasks_dispatch c st : tasks (dispatch c st) = tasks (snd (c st)).
Proof. unfold dispatch. destruct (c st) as [[[] | x] st']; reflexivity. Qed.

(** C7, as the specification states it, fails: the script neither
    catches nor logs a failed write. With storage refusing the write,
    [deleteTask] on the scenario removes [A] from the list in memory and
    then ends in the [QuotaExceededError] of [setItem]: the one call it
    has made is the attempted write; nothing was written to the console,
    nothing was rendered, nothing was announced. *)
Lemma failed_save_is_not_logged :
  deleteTask (new_Env 1700000000000 (js "u-1") true) (js "A") scenario_state =
  (Throw QuotaExceededError,
   new_State
     [new_Task (js "B") (js "b") true 2; new_Task (js "C") (js "c") false 3]
     FILTER.ALL ∅
     [SetItem STORAGE_KEY
        (JSON_stringify
           [new_Task (js "B") (js "b") true 2;
            new_Task (js "C") (js "c") false 3])]).
Proof. vm_compute. reflexivity. Qed.

(** C7 (amended). Let an operation run once with storage refusing the
    write and once with storage accepting it, all else equal. The task
    list in memory is the same after both runs, and so is the filter.
    Either the operation never wrote (it was ignored, and both runs leave
    the state as it was), or the failed run ends in the
    [QuotaExceededError] of [setItem] right after the attempted write,
    storage untouched and nothing rendered, announced or logged by the
    script; the error escapes the listener, where the browser reports it,
    and the page goes on: whatever operation comes next finds the task
    list the successful run would have left, and leaves the same list. *)
Theorem failed_save_keeps_memory a now uuid st :
  let failing := new_Env now uuid true in
  let working := new_Env now uuid false in
  let bad := perform failing a st in
  let good := perform working a st in
  tasks (snd bad) = tasks (snd good) /\
  currentFilter (snd bad) = currentFilter (snd good) /\
  ((bad = (Ret tt, st) /\ good = (Ret tt, st)) \/
   (fst bad = Throw QuotaExceededError /\ fst good = Ret tt /\
    localStorage (snd bad) = localStorage st /\
    trace (snd bad) =
      trace st ++ [SetItem STORAGE_KEY (JSON_stringify (tasks (snd good)))] /\
    trace (dispatch (perform failing a) st) =
      trace st ++ [SetItem STORAGE_KEY (JSON_stringify (tasks (snd good)));
                   Uncaught QuotaExceededError])) /\
  tasks (dispatch (perform failing a) st) =
    tasks (dispatch (perform working a) st) /\
  (forall e2 a2,
     tasks (dispatch (perform e2 a2) (dispatch (perform failing a) st)) =
     tasks (dispatch (perform e2 a2) (dispatch (perform working a) st))).
Proof.
  intros failing working bad good.
  assert (tasks (snd bad) = tasks (snd good) /\
          currentFilter (snd bad) = currentFilter (snd good) /\
          ((bad = (Ret tt, st) /\ good = (Ret tt, st)) \/
           (fst bad = Throw QuotaExceededError /\ fst good = Ret tt /\
            localStorage (snd bad) = localStorage st /\
            trace (snd bad) =
              trace st ++
              [SetItem STORAGE_KEY (JSON_stringify (tasks (snd good)))])))
    as (Ht & Hf & Hcases).
  { unfold bad, good.
    destruct (perform_cases a (tasks st)) as [E | (next & rest & Hq & E)].
    - rewrite (E failing st eq_refl), (E working st eq_refl).
      repeat split. left. split; reflexivity.
    - rewrite (E failing st eq_refl), (E working st eq_refl).
      destruct (save_then_quiet failing rest
                  (with_tasks (next now uuid) st) Hq)
        as (H1 & H2 & H3 & H4 & H5).
      destruct (save_then_quiet working rest
                  (with_tasks (next now uuid) st) Hq)
        as (H6 & H7 & H8).
      simpl in *. repeat split; try congruence.
      right. repeat split; try assumption. rewrite H6. exact H5. }
  assert (tasks (dispatch (perform failing a) st) =
          tasks (dispatch (perform working a) st)) as Hd.
  { rewrite !tasks_dispatch. exact Ht. }
  repeat split; try assumption.
  - destruct Hcases as [[Hb Hg] | (Hb & Hg & Hs & Htr)]; [left | right].
    + split; assumption.
    + repeat split; try assumption.
      unfold dispatch. fold bad. destruct bad as [[[] | x] st']; simpl in *.
      * discriminate.
      * injection Hb as ->. rewrite Htr, <- app_assoc. reflexivity.
  - intros e2 a2. rewrite !tasks_dispatch. apply perform_tasks. exact Hd.
Qed.

(** ** Adding a task *)

Lemma trimStart_split s :
  exists pre, s = pre ++ trimStart s /\ all_white pre.
Proof.
  induction s as [|c s (pre & E & Hpre)]; simpl.
  - exists []. split; [reflexivity | constructor].
  - destruct (is_white c) eqn:Hc.
    + exists (c :: pre). split; [simpl; congruence | constructor; assumption].
    + exists []. split; [reflexivity | constructor].
Qed.

Lemma trimStart_head s c r : trimStart s = c :: r -> is_white c = false.
Proof.
  induction s as [|a s IH]; simpl; [discriminate |].
  destruct (is_white a) eqn:Ha; [exact IH |].
  intros [= <- _]. exact Ha.
Qed.

Lemma trimStart_snoc s c :
  is_white c = false -> trimStart (s ++ [c]) = trimStart s ++ [c].
Proof.
  intros Hc. induction s as [|a s IH]; simpl.
  - rewrite Hc. reflexivity.
  - destruct (is_white a); [exact IH | reflexivity].
Qed.

Lemma trimEnd_split s :
  exists suf, s = trimEnd s ++ suf /\ all_white suf.
Proof.
  unfold trimEnd. destruct (trimStart_split (rev s)) as (pre & E & Hpre).
  exists (rev pre). split.
  - rewrite <- rev_app_distr, <- E, rev_involutive. reflexivity.
  - apply Forall_rev. exact Hpre.
Qed.

Lemma trimEnd_last s c r : trimEnd s = r ++ [c] -> is_white c = false.
Proof.
  unfold trimEnd. intros E.
  apply (f_equal (@rev N)) in E. rewrite rev_involutive, rev_app_distr in E.
  simpl in E. apply trimStart_head in E. exact E.
Qed.

Lemma trimEnd_head c r :
  is_white c = false -> exists r', trimEnd (c :: r) = c :: r'.
Proof.
  intros Hc. unfold trimEnd. simpl.
  rewrite trimStart_snoc by exact Hc. rewrite rev_app_distr. simpl.
  eexists. reflexivity.
Qed.

(** [trim] removes a run of white space at each end and leaves a string
    that neither starts nor ends with white space. *)
Lemma trim_spec s :
  exists pre suf,
    s = pre ++ trim s ++ suf /\ all_white pre /\ all_white suf /\
    trimmed (trim s).
Proof.
  destruct (trimStart_split s) as (pre & E1 & Hpre).
  destruct (trimEnd_split (trimStart s)) as (suf & E2 & Hsuf).
  exists pre, suf. unfold trim. repeat split; try assumption.
  - rewrite <- E2. exact E1.
  - intros c r E. destruct (trimStart s) as [|a s'] eqn:Es.
    + discriminate E.
    + pose proof (trimStart_head _ _ _ Es) as Ha.
      destruct (trimEnd_head a s' Ha) as (r' & E'). congruence.
  - intros c r E. apply (trimEnd_last _ _ _ E).
Qed.

Lemma sort_insert_before_last {A : Type} cmp (x t : A) l :
  cmp x t <= 0 -> sort_insert cmp x (l ++ [t]) = sort_insert cmp x l ++ [t].
Proof.
  intros Hxt. induction l as [|y l IH]; simpl.
  - destruct (Z.leb_spec (cmp x t) 0); [reflexivity | lia].
  - destruct (cmp x y <=? 0); [reflexivity |]. rewrite IH. reflexivity.
Qed.

(** A task whose key is not below any other key is shown last. *)
Lemma sortByOrder_snoc ts t :
  (forall x, In x ts -> order x <= order t) ->
  sortByOrder (ts ++ [t]) = sortByOrder ts ++ [t].
Proof.
  unfold sortByOrder. induction ts as [|x ts IH]; intros H; [reflexivity |].
  simpl. rewrite IH by (intros y Hy; apply H; right; exact Hy).
  apply sort_insert_before_last.
  specialize (H x (or_introl eq_refl)). lia.
Qed.

Lemma addTask_run e t st :
  t <> [] ->
  addTask e t st =
  (saveTasks e;; renderTasks;; announce (js "Task added");; emit FocusInput)
    (with_tasks (tasks st ++ [new_Task (randomUUID e) t false (Date_now e)]) st).
Proof. destruct t; [congruence | reflexivity]. Qed.

(** C2, as the specification states it, fails on [addTask]: the function
    stores its argument as given, white space included, and it does add a
    task for a text that is empty after trimming. And a task added at a
    clock reading below a stored key (here: one millisecond after a drop
    re-keyed three tasks) is not shown last. *)
Lemma addTask_does_not_trim :
  List.map text (tasks (snd (addTask scenario_env (js "  buy milk  ") empty_state)))
    = [js "  buy milk  "] /\
  js "  buy milk  " <> js "buy milk" /\
  trim (js "   ") = [] /\
  List.map text (tasks (snd (addTask scenario_env (js "   ") empty_state)))
    = [js "   "] /\
  let dropped := snd (onDrop scenario_env (js "A") (js "C") scenario_state) in
  let later := new_Env (Date_now scenario_env + 1) (js "u-2") false in
  List.map id (project (tasks (snd (onSubmit later (js "buy milk") dropped)))
                       FILTER.ALL)
    = [js "B"; js "A"; js "u-2"; js "C"].
Proof. vm_compute. repeat split; discriminate. Qed.

(** C2 (amended). The add path of the page, the submit listener, trims
    the value of the input field and calls [addTask] only with a
    non-empty result. It is ignored (state and trace as they were) when
    the value is empty after trimming. Otherwise the stored collection
    grows at its end by one task whose text is the value without its
    leading and trailing white space, whose [completed] is [false], whose
    id is the value drawn from [crypto.randomUUID] (so ids stay unique
    when that value is not an id already) and whose key is the clock
    reading; that task is the last one shown under [All] when no stored
    key exceeds the clock reading. [addTask] itself is ignored only on
    the empty string and stores any other argument as given. *)
Theorem submit_adds_trimmed_task e value st :
  let text0 := trim value in
  let task := new_Task (randomUUID e) text0 false (Date_now e) in
  let st' := snd (onSubmit e value st) in
  (exists pre suf, value = pre ++ text0 ++ suf /\ all_white pre /\
                   all_white suf /\ trimmed text0) /\
  (text0 = [] -> onSubmit e value st = (Ret tt, st)) /\
  (text0 <> [] ->
     tasks st' = tasks st ++ [task] /\
     (~ In (randomUUID e) (List.map id (tasks st)) ->
      NoDup (List.map id (tasks st)) -> NoDup (List.map id (tasks st'))) /\
     ((forall t, In t (tasks st) -> order t <= Date_now e) ->
      project (tasks st') FILTER.ALL = project (tasks st) FILTER.ALL ++ [task]) /\
     (quota_exceeded e = false ->
      fst (onSubmit e value st) = Ret tt /\
      localStorage st' !! STORAGE_KEY = Some (JSON_stringify (tasks st')) /\
      trace st' = trace st ++
        [SetItem STORAGE_KEY (JSON_stringify (tasks st'));
         Render (List.map render_item (project (tasks st') (currentFilter st)));
         Announce (js "Task added"); FocusInput; ClearInput])) /\
  addTask e [] st = (Ret tt, st) /\
  (forall t, t <> [] ->
     tasks (snd (addTask e t st)) =
     tasks st ++ [new_Task (randomUUID e) t false (Date_now e)]).
Proof.
  intros text0 task st'. split; [apply trim_spec |].
  split; [| split; [| split; [reflexivity |]]].
  - intros E. unfold onSubmit. fold text0. rewrite E. reflexivity.
  - intros Hne.
    assert (onSubmit e value st =
            (saveTasks e;; renderTasks;; announce (js "Task added");;
             emit FocusInput;; emit ClearInput)
              (with_tasks (tasks st ++ [task]) st)) as Hrun.
    { unfold onSubmit. fold text0.
      rewrite (truthy_string_nonempty _ Hne).
      unfold mbind at 1, M_bind at 1. rewrite (addTask_run e text0 st Hne).
      fold task. unfold mbind, M_bind.
      destruct (saveTasks e (with_tasks (tasks st ++ [task]) st))
        as [[[] | x] s1]; reflexivity. }
    assert (tasks st' = tasks st ++ [task]) as Ht.
    { unfold st'. rewrite Hrun.
      assert (keeps_store (saveTasks e;; renderTasks;;
                announce (js "Task added");; emit FocusInput;; emit ClearInput))
        as Hk by keeps.
      rewrite (proj1 (Hk _)). reflexivity. }
    split; [exact Ht |]. split; [| split].
    + intros Hfresh Hnd. rewrite Ht, List.map_app. simpl.
      apply NoDup_app. split; [exact Hnd |]. split.
      * intros x Hx Hx'. apply list_elem_of_In in Hx.
        apply list_elem_of_singleton in Hx'. subst x. contradiction.
      * apply NoDup_singleton.
    + intros Hclock. rewrite Ht. unfold project.
      rewrite sortByOrder_snoc by exact Hclock.
      rewrite !filter_all_passes. reflexivity.
    + intros Hq. rewrite Ht. unfold st'. rewrite Hrun.
      unfold saveTasks, localStorage_setItem, renderTasks, announce, emit,
        get_tasks, get_filter, mbind, M_bind.
      rewrite Hq. simpl. rewrite lookup_insert_eq, <- !app_assoc.
      repeat split; reflexivity.
  - intros t Ht. rewrite (addTask_run e t st Ht).
    assert (keeps_store (saveTasks e;; renderTasks;;
              announce (js "Task added");; emit FocusInput)) as Hk by keeps.
    rewrite (proj1 (Hk _)). reflexivity.
Qed.

(** Submitting the padded text on the scenario, and submitting blanks. *)
Lemma submit_adds_trimmed_task_witness :
  let st' := snd (onSubmit scenario_env (js "  buy milk  ") scenario_state) in
  let task := new_Task (js "u-1") (js "buy milk") false 1700000000000 in
  trim (js "  buy milk  ") = js "buy milk" /\
  trim (js "  buy milk  ") <> [] /\
  tasks st' = tasks scenario_state ++ [task] /\
  NoDup (List.map id (tasks st')) /\
  project (tasks st') FILTER.ALL = project (tasks scenario_state) FILTER.ALL ++ [task] /\
  onSubmit scenario_env (js "   ") scenario_state = (Ret tt, scenario_state).
Proof.
  intros st' task.
  assert (trim (js "  buy milk  ") <> []) as Hne by discriminate.
  destruct (submit_adds_trimmed_task scenario_env (js "  buy milk  ")
              scenario_state) as (_ & _ & Hadd & _).
  destruct (Hadd Hne) as (Ht & Hfresh & Hlast & _).
  split; [reflexivity |]. split; [exact Hne |]. split; [exact Ht |].
  split; [| split].
  - apply Hfresh.
    + simpl. intros [H | [H | [H | []]]]; discriminate H.
    + apply (bool_decide_unpack _). vm_compute. exact I.
  - apply Hlast. simpl. intros t [<- | [<- | [<- | []]]]; simpl; lia.
  - destruct (submit_adds_trimmed_task scenario_env (js "   ") scenario_state)
      as (_ & Hnoop & _).
    apply Hnoop. reflexivity.
Defined.

(** ** JSON: what is printed is read back *)

Section Numbers.
Local Open Scope N_scope.

Lemma digits_value_snoc ds d :
  digits_value (ds ++ [d]) = 10 * digits_value ds + d.
Proof. unfold digits_value. rewrite fold_left_app. reflexivity. Qed.

Lemma digits_of_value fuel n :
  n < 2 ^ N.of_nat fuel -> digits_value (digits_of fuel n) = n.
Proof.
  revert n. induction fuel as [|f IH]; intros n Hn.
  - simpl in Hn. assert (n = 0) as -> by lia. reflexivity.
  - simpl. destruct (N.ltb_spec n 10) as [Hlt | Hge].
    + unfold digits_value. simpl. lia.
    + rewrite digits_value_snoc, IH.
      * pose proof (N.div_mod n 10). lia.
      * apply N.Div0.div_lt_upper_bound.
        rewrite Nat2N.inj_succ, N.pow_succ_r' in Hn. lia.
Qed.

Lemma digits_of_small fuel n :
  Forall (fun d => d < 10) (digits_of fuel n).
Proof.
  revert n. induction fuel as [|f IH]; intros n; simpl; [constructor |].
  destruct (N.ltb_spec n 10) as [Hlt | Hge].
  - repeat constructor. exact Hlt.
  - apply Forall_app. split; [apply IH |].
    repeat constructor. apply N.mod_lt. lia.
Qed.

Lemma digits_of_head fuel n :
  0 < n -> n < 2 ^ N.of_nat fuel ->
  exists d r, digits_of fuel n = d :: r /\ 0 < d.
Proof.
  revert n. induction fuel as [|f IH]; intros n Hpos Hn.
  - simpl in Hn. lia.
  - simpl. destruct (N.ltb_spec n 10) as [Hlt | Hge].
    + exists n, []. split; [reflexivity | exact Hpos].
    + destruct (IH (n / 10)) as (d & r & E & Hd).
      * apply N.div_str_pos. lia.
      * apply N.Div0.div_lt_upper_bound.
        rewrite Nat2N.inj_succ, N.pow_succ_r' in Hn. lia.
      * rewrite E. exists d, (r ++ [n mod 10]). split; [reflexivity | exact Hd].
Qed.

Lemma decimal_digits_fuel n : n < 2 ^ N.of_nat (S (N.to_nat (N.log2 n))).
Proof.
  rewrite Nat2N.inj_succ, N2Nat.id.
  destruct (N.eq_dec n 0) as [-> | Hn]; [reflexivity |].
  apply N.log2_spec. lia.
Qed.

Lemma decimal_digits_value n : digits_value (decimal_digits n) = n.
Proof. apply digits_of_value, decimal_digits_fuel. Qed.

Lemma digit_val_char ds :
  List.map digit_val (List.map digit_char ds) = ds.
Proof.
  rewrite List.map_map. rewrite <- (List.map_id ds) at 2.
  apply List.map_ext. intros d. unfold digit_val, digit_char. lia.
Qed.

Lemma is_digit_char d : d < 10 -> is_digit (digit_char d) = true.
Proof.
  intros Hd. unfold is_digit, digit_char.
  apply andb_true_iff. split; apply N.leb_le; lia.
Qed.

Lemma span_digits_chars ds rest :
  Forall (fun d => d < 10) ds ->
  (forall c r, rest = c :: r -> is_digit c = false) ->
  span_digits (List.map digit_char ds ++ rest) = (List.map digit_char ds, rest).
Proof.
  intros Hds Hrest. induction Hds as [|d ds Hd _ IH]; simpl.
  - destruct rest as [|c r]; [reflexivity |].
    simpl. rewrite (Hrest c r eq_refl). reflexivity.
  - rewrite (is_digit_char d Hd), IH. reflexivity.
Qed.

(** A printed integer followed by the closing brace of its object is
    read back as that integer. *)
Lemma parse_number_toString z rest :
  parse_number (Number_toString z ++ ch "}" :: rest)
  = POk (JNum z 0) (ch "}" :: rest).
Proof.
  unfold Number_toString.
  set (n := Z.abs_N z).
  pose proof (digits_of_small (S (N.to_nat (N.log2 n))) n) as Hsmall.
  pose proof (decimal_digits_value n) as Hval.
  fold (decimal_digits n) in Hsmall.
  assert (parse_int_part (List.map digit_char (decimal_digits n) ++ ch "}" :: rest)
          = Some (List.map digit_char (decimal_digits n), ch "}" :: rest)) as Hint.
  { destruct (N.eq_dec n 0) as [E | Hn].
    - rewrite E. reflexivity.
    - destruct (digits_of_head _ n ltac:(lia) (decimal_digits_fuel n))
        as (d & r & E & Hd).
      fold (decimal_digits n) in E.
      assert (d < 10) as Hd10 by (rewrite E in Hsmall; inversion Hsmall; assumption).
      rewrite <- (span_digits_chars (decimal_digits n) (ch "}" :: rest) Hsmall)
        by (intros c r' [= <- _]; reflexivity).
      rewrite E. unfold parse_int_part. cbn [List.map app].
      replace (digit_char d =? 48) with false
        by (symmetry; apply N.eqb_neq; unfold digit_char; lia).
      rewrite (is_digit_char d Hd10). reflexivity. }
  assert (digits_Z (List.map digit_char (decimal_digits n) ++ []) = Z.of_N n)
    as Hm.
  { rewrite app_nil_r. unfold digits_Z. rewrite digit_val_char, Hval.
    reflexivity. }
  assert (forall ds, exists c r, List.map digit_char (decimal_digits n) ++ ds
                                 = c :: r /\ (c =? ch "-") = false) as Hhead.
  { intros ds. destruct (decimal_digits n) as [|d r] eqn:E.
    - exfalso. unfold decimal_digits in E. simpl in E.
      destruct (n <? 10); [discriminate |].
      destruct (digits_of _ _); discriminate.
    - exists (digit_char d), (List.map digit_char r ++ ds).
      split; [reflexivity |]. apply N.eqb_neq. unfold digit_char, ch. simpl. lia. }
  unfold parse_number.
  destruct (Z.ltb_spec z 0) as [Hneg | Hpos].
  - cbn [app]. replace (ch "-" =? ch "-") with true by reflexivity.
    rewrite Hint. cbn [parse_frac_part parse_exp_part].
    replace (ch "}" =? ch ".") with false by reflexivity.
    replace ((ch "}" =? ch "e") || (ch "}" =? ch "E")) with false by reflexivity.
    rewrite Hm. simpl. f_equal. f_equal. unfold n. lia.
  - cbn [app]. destruct (Hhead (ch "}" :: rest)) as (c & r & E & Hc).
    rewrite E, Hc, <- E, Hint. cbn [parse_frac_part parse_exp_part].
    replace (ch "}" =? ch ".") with false by reflexivity.
    replace ((ch "}" =? ch "e") || (ch "}" =? ch "E")) with false by reflexivity.
    rewrite Hm. simpl. f_equal. f_equal. unfold n. lia.
Qed.
End Numbers.

Section Strings.
Local Open Scope N_scope.

Lemma hex_val_char d : d < 16 -> hex_val (hex_char d) = Some d.
Proof.
  intros Hd. unfold hex_val, hex_char, is_digit.
  destruct (N.ltb_spec d 10) as [Hlt | Hge].
  - replace ((48 <=? 48 + d) && (48 + d <=? 57)) with true
      by (symmetry; apply andb_true_iff; split; apply N.leb_le; lia).
    f_equal. lia.
  - replace ((48 <=? 87 + d) && (87 + d <=? 57)) with false
      by (symmetry; apply andb_false_iff; right; apply N.leb_gt; lia).
    replace ((97 <=? 87 + d) && (87 + d <=? 102)) with true
      by (symmetry; apply andb_true_iff; split; apply N.leb_le; lia).
    f_equal. lia.
Qed.

Lemma hex_digits_value c :
  c < 65536 ->
  4096 * ((c / 4096) mod 16) + 256 * ((c / 256) mod 16)
  + 16 * ((c / 16) mod 16) + c mod 16 = c.
Proof.
  intros Hc.
  assert (c / 256 = c / 16 / 16) as E1
    by (rewrite N.Div0.div_div; reflexivity).
  assert (c / 4096 = c / 16 / 16 / 16) as E2
    by (rewrite !N.Div0.div_div; reflexivity).
  pose proof (N.div_mod c 16 ltac:(lia)) as H0.
  pose proof (N.div_mod (c / 16) 16 ltac:(lia)) as H1.
  pose proof (N.div_mod (c / 16 / 16) 16 ltac:(lia)) as H2.
  assert (c / 4096 < 16) as H3
    by (apply N.Div0.div_lt_upper_bound; lia).
  rewrite (N.mod_small (c / 4096) 16 H3).
  rewrite E1, E2 in *.
  generalize dependent (c / 16 / 16 / 16).
  generalize dependent (c / 16 / 16).
  generalize dependent (c / 16).
  intros. lia.
Qed.

Lemma hex4_unicode_escape c :
  c < 65536 ->
  hex4 (hex_char ((c / 4096) mod 16)) (hex_char ((c / 256) mod 16))
       (hex_char ((c / 16) mod 16)) (hex_char (c mod 16)) = Some c.
Proof.
  intros Hc. unfold hex4.
  rewrite !hex_val_char by (apply N.mod_lt; lia).
  f_equal. apply hex_digits_value. exact Hc.
Qed.

Lemma parse_chars_literal c tail :
  c <> 34 -> c <> 92 -> 32 <= c ->
  parse_chars (c :: tail) = read_more [c] (parse_chars tail).
Proof.
  intros H1 H2 H3. simpl.
  rewrite (proj2 (N.eqb_neq c 34) H1), (proj2 (N.eqb_neq c 92) H2).
  rewrite (proj2 (N.ltb_ge c 32) H3).
  destruct (parse_chars tail) as [[str rest]|]; reflexivity.
Qed.

Lemma surrogate_range c :
  is_high_surrogate c || is_low_surrogate c = true -> 55296 <= c <= 57343.
Proof.
  unfold is_high_surrogate, is_low_surrogate.
  rewrite orb_true_iff, !andb_true_iff, !N.leb_le. lia.
Qed.

(** What [quote_unit] writes for a code unit is read back as that
    code unit. *)
Lemma parse_chars_quote_unit c tail :
  parse_chars (quote_unit c ++ tail) = read_more [c] (parse_chars tail).
Proof.
  unfold quote_unit.
  destruct (N.eqb_spec c 8) as [-> | H8];
    [simpl; destruct (parse_chars tail) as [[? ?]|]; reflexivity |].
  destruct (N.eqb_spec c 9) as [-> | H9];
    [simpl; destruct (parse_chars tail) as [[? ?]|]; reflexivity |].
  destruct (N.eqb_spec c 10) as [-> | H10];
    [simpl; destruct (parse_chars tail) as [[? ?]|]; reflexivity |].
  destruct (N.eqb_spec c 12) as [-> | H12];
    [simpl; destruct (parse_chars tail) as [[? ?]|]; reflexivity |].
  destruct (N.eqb_spec c 13) as [-> | H13];
    [simpl; destruct (parse_chars tail) as [[? ?]|]; reflexivity |].
  destruct (N.eqb_spec c 34) as [-> | H34];
    [simpl; destruct (parse_chars tail) as [[? ?]|]; reflexivity |].
  destruct (N.eqb_spec c 92) as [-> | H92];
    [simpl; destruct (parse_chars tail) as [[? ?]|]; reflexivity |].
  destruct ((c <? 32) || is_high_surrogate c || is_low_surrogate c) eqn:E.
  - assert (c < 65536) as Hc.
    { rewrite <- orb_assoc in E. apply orb_true_iff in E as [E | E].
      - apply N.ltb_lt in E. lia.
      - apply surrogate_range in E. lia. }
    unfold unicode_escape. cbn [app parse_chars].
    replace (ch "\" =? 34) with false by reflexivity.
    replace (ch "\" =? 92) with true by reflexivity.
    replace (ch "u" =? ch "u") with true by reflexivity.
    rewrite (hex4_unicode_escape c Hc).
    destruct (parse_chars tail) as [[? ?]|]; reflexivity.
  - apply orb_false_iff in E as [E _]. apply orb_false_iff in E as [E _].
    apply N.ltb_ge in E.
    apply (parse_chars_literal c tail H34 H92 E).
Qed.

Lemma parse_chars_pair c d tail :
  is_high_surrogate c = true -> is_low_surrogate d = true ->
  parse_chars (c :: d :: tail) = read_more [c; d] (parse_chars tail).
Proof.
  intros Hc Hd.
  assert (55296 <= c <= 57343) as Rc
    by (apply surrogate_range; rewrite Hc; reflexivity).
  assert (55296 <= d <= 57343) as Rd
    by (apply surrogate_range; rewrite Hd; apply orb_true_r).
  rewrite parse_chars_literal by lia.
  rewrite parse_chars_literal by lia.
  destruct (parse_chars tail) as [[? ?]|]; reflexivity.
Qed.

Lemma parse_chars_quote_units_le n s rest :
  (length s <= n)%nat ->
  parse_chars (quote_units s ++ 34 :: rest) = Some (s, rest).
Proof.
  revert s. induction n as [|n IH]; intros s Hlen.
  - destruct s; [reflexivity | simpl in Hlen; lia].
  - destruct s as [|c r]; [reflexivity |].
    simpl in Hlen. cbn [quote_units].
    destruct (is_high_surrogate c) eqn:Hc.
    + destruct r as [|d r'].
      * rewrite parse_chars_quote_unit. reflexivity.
      * destruct (is_low_surrogate d) eqn:Hd.
        -- cbn [app]. rewrite (parse_chars_pair c d _ Hc Hd).
           rewrite IH by (simpl in Hlen; lia). reflexivity.
        -- rewrite <- app_assoc, parse_chars_quote_unit.
           rewrite IH by lia. reflexivity.
    + rewrite <- app_assoc, parse_chars_quote_unit.
      rewrite IH by lia. reflexivity.
Qed.

(** A quoted string is read back as the string. *)
Lemma parse_chars_quote_units s rest :
  parse_chars (quote_units s ++ 34 :: rest) = Some (s, rest).
Proof. apply (parse_chars_quote_units_le (length s)). lia. Qed.
End Strings.

Section Snapshot.
Local Open Scope N_scope.

Lemma QuoteJSONString_app s rest :
  QuoteJSONString s ++ rest = 34 :: quote_units s ++ 34 :: rest.
Proof. unfold QuoteJSONString. simpl. rewrite <- app_assoc. reflexivity. Qed.

Lemma parse_value_string f s rest :
  parse_value (S f) (QuoteJSONString s ++ rest) = POk (JStr s) rest.
Proof.
  rewrite QuoteJSONString_app. simpl.
  rewrite parse_chars_quote_units. reflexivity.
Qed.

Lemma parse_value_bool f (b : bool) rest :
  parse_value (S f) ((if b then js "true" else js "false") ++ ch "," :: rest)
  = POk (JBool b) (ch "," :: rest).
Proof. destruct b; reflexivity. Qed.

Lemma parse_value_number_start f c r :
  (c =? ch "-") || is_digit c = true ->
  parse_value (S f) (c :: r) = parse_number (c :: r).
Proof.
  intros H.
  assert (c = 45 \/ 48 <= c <= 57) as Hc.
  { apply orb_true_iff in H as [H | H].
    - left. apply N.eqb_eq in H. exact H.
    - right. unfold is_digit in H.
      apply andb_true_iff in H as [H1 H2].
      apply N.leb_le in H1, H2. lia. }
  cbn [parse_value skip_ws].
  replace (is_json_ws c) with false.
  2:{ symmetry. unfold is_json_ws. rewrite !orb_false_iff.
      repeat split; apply N.eqb_neq; lia. }
  replace (c =? ch "[") with false
    by (symmetry; apply N.eqb_neq; unfold ch; simpl; lia).
  replace (c =? ch "{") with false
    by (symmetry; apply N.eqb_neq; unfold ch; simpl; lia).
  replace (c =? 34) with false by (symmetry; apply N.eqb_neq; lia).
  rewrite H. reflexivity.
Qed.

Lemma Number_toString_head z :
  exists c r, Number_toString z = c :: r /\
              (c =? ch "-") || is_digit c = true.
Proof.
  unfold Number_toString. destruct (z <? 0)%Z.
  - eexists _, _. split; [reflexivity | reflexivity].
  - pose proof (digits_of_small (S (N.to_nat (N.log2 (Z.abs_N z)))) (Z.abs_N z))
      as Hsmall.
    fold (decimal_digits (Z.abs_N z)) in Hsmall.
    destruct (decimal_digits (Z.abs_N z)) as [|d r] eqn:E.
    + exfalso. unfold decimal_digits in E. simpl in E.
      destruct (Z.abs_N z <? 10); [discriminate |].
      destruct (digits_of _ _); discriminate.
    + exists (digit_char d), (List.map digit_char r).
      split; [reflexivity |].
      inversion Hsmall; subst. rewrite is_digit_char by assumption.
      apply orb_true_r.
Qed.

Lemma parse_value_number f z rest :
  parse_value (S f) (Number_toString z ++ ch "}" :: rest)
  = POk (JNum z 0) (ch "}" :: rest).
Proof.
  destruct (Number_toString_head z) as (c & r & E & Hc).
  pose proof (parse_number_toString z rest) as Hp.
  rewrite E in *. cbn [app] in *.
  rewrite parse_value_number_start by exact Hc. exact Hp.
Qed.

(** One member [key:value] of an object, the key quoted by
    [QuoteJSONString]. *)
Lemma parse_members_step f key s v r3 :
  parse_value f s = POk v r3 ->
  parse_members (S f) (QuoteJSONString key ++ ch ":" :: s) =
  match skip_ws r3 with
  | c3 :: r4 =>
      if c3 =? ch "," then
        match parse_members f r4 with
        | POk kvs rest => POk ((key, v) :: kvs) rest
        | PErr => PErr
        | PFuel => PFuel
        end
      else if c3 =? ch "}" then POk [(key, v)] r4
      else PErr
  | [] => PErr
  end.
Proof.
  intros Hv. rewrite QuoteJSONString_app.
  cbn [parse_members skip_ws].
  replace (is_json_ws 34) with false by reflexivity.
  replace (34 =? 34) with true by reflexivity.
  rewrite parse_chars_quote_units.
  cbn [skip_ws]. replace (is_json_ws (ch ":")) with false by reflexivity.
  replace (ch ":" =? ch ":") with true by reflexivity.
  rewrite Hv. reflexivity.
Qed.

Lemma stringify_Task_app t rest :
  stringify_Task t ++ rest =
  ch "{" :: QuoteJSONString (js "id") ++ ch ":" ::
    QuoteJSONString (id t) ++ ch "," ::
    QuoteJSONString (js "text") ++ ch ":" ::
    QuoteJSONString (text t) ++ ch "," ::
    QuoteJSONString (js "completed") ++ ch ":" ::
    (if completed t then js "true" else js "false") ++ ch "," ::
    QuoteJSONString (js "order") ++ ch ":" ::
    Number_toString (order t) ++ ch "}" :: rest.
Proof.
  unfold stringify_Task. rewrite <- !app_assoc. reflexivity.
Qed.

Lemma skip_ws_comma r : skip_ws (ch "," :: r) = ch "," :: r.
Proof. reflexivity. Qed.

Lemma skip_ws_rbrace r : skip_ws (ch "}" :: r) = ch "}" :: r.
Proof. reflexivity. Qed.

(** A printed task is read back as the object of its four fields. *)
Lemma parse_value_Task n t rest :
  (6 <= n)%nat ->
  parse_value n (stringify_Task t ++ rest) = POk (json_of_Task t) rest.
Proof.
  intros Hn. do 6 (destruct n as [|n]; [lia |]). clear Hn. rename n into f.
  rewrite stringify_Task_app.
  cbn [parse_value skip_ws].
  replace (is_json_ws (ch "{")) with false by reflexivity.
  replace (ch "{" =? ch "[") with false by reflexivity.
  replace (ch "{" =? ch "{") with true by reflexivity.
  rewrite QuoteJSONString_app at 1. cbn [skip_ws].
  replace (is_json_ws 34) with false by reflexivity.
  replace (34 =? ch "}") with false by reflexivity.
  rewrite (parse_members_step _ _ _ _ _ (parse_value_string _ _ _)).
  rewrite skip_ws_comma. replace (ch "," =? ch ",") with true by reflexivity.
  rewrite (parse_members_step _ _ _ _ _ (parse_value_string _ _ _)).
  rewrite skip_ws_comma. replace (ch "," =? ch ",") with true by reflexivity.
  rewrite (parse_members_step _ _ _ _ _ (parse_value_bool _ _ _)).
  rewrite skip_ws_comma. replace (ch "," =? ch ",") with true by reflexivity.
  rewrite (parse_members_step _ _ _ _ _ (parse_value_number _ _ _)).
  rewrite skip_ws_rbrace.
  replace (ch "}" =? ch ",") with false by reflexivity.
  replace (ch "}" =? ch "}") with true by reflexivity.
  reflexivity.
Qed.

Lemma stringify_Task_head t :
  exists r, stringify_Task t = ch "{" :: r.
Proof. eexists. unfold stringify_Task. reflexivity. Qed.

Lemma stringify_elements_cons t ts :
  ts <> [] ->
  stringify_elements (t :: ts) =
  stringify_Task t ++ ch "," :: stringify_elements ts.
Proof. destruct ts; [congruence | reflexivity]. Qed.

(** The printed elements of a non-empty task list, up to the closing
    bracket, are read back as the objects of the tasks. *)
Lemma parse_elements_Tasks ts : forall n rest,
  ts <> [] -> (length ts + 6 <= n)%nat ->
  parse_elements n (stringify_elements ts ++ ch "]" :: rest)
  = POk (List.map json_of_Task ts) rest.
Proof.
  induction ts as [|t ts IH]; intros n rest Hne Hn; [congruence |].
  destruct n as [|n]; [simpl in Hn; lia |].
  destruct ts as [|t' ts'].
  - cbn [stringify_elements parse_elements].
    rewrite parse_value_Task by (simpl in Hn; lia). reflexivity.
  - rewrite stringify_elements_cons by discriminate.
    rewrite <- app_assoc. cbn [app parse_elements].
    rewrite parse_value_Task by (simpl in Hn; lia).
    rewrite skip_ws_comma. replace (ch "," =? ch ",") with true by reflexivity.
    rewrite IH by (try discriminate; simpl in *; lia). reflexivity.
Qed.

Lemma stringify_elements_length ts :
  (length ts <= length (stringify_elements ts))%nat.
Proof.
  induction ts as [|t ts IH]; [simpl; lia |].
  destruct (stringify_Task_head t) as (r & E).
  destruct ts as [|t' ts'].
  - cbn [stringify_elements]. rewrite E. simpl. lia.
  - rewrite stringify_elements_cons by discriminate.
    rewrite E, length_app. simpl length in *. lia.
Qed.

Lemma parse_value_snapshot ts f :
  (1 <= f)%nat -> (ts <> [] -> length ts + 7 <= f)%nat ->
  parse_value f (JSON_stringify ts) = POk (JArr (List.map json_of_Task ts)) [].
Proof.
  intros Hf1 Hf. unfold JSON_stringify.
  destruct f as [|f]; [lia |].
  destruct ts as [|t ts].
  - reflexivity.
  - specialize (Hf ltac:(discriminate)).
    cbn [app parse_value skip_ws].
    replace (is_json_ws (ch "[")) with false by reflexivity.
    replace (ch "[" =? ch "[") with true by reflexivity.
    destruct (stringify_Task_head t) as (r & E).
    assert (exists r', stringify_elements (t :: ts) ++ [ch "]"] = ch "{" :: r')
      as (r' & E').
    { destruct ts.
      - cbn [stringify_elements]. rewrite E. eexists. reflexivity.
      - rewrite stringify_elements_cons by discriminate.
        rewrite E. eexists. reflexivity. }
    rewrite E'. cbn [skip_ws].
    replace (is_json_ws (ch "{")) with false by reflexivity.
    replace (ch "{" =? ch "]") with false by reflexivity.
    rewrite <- E'.
    rewrite (parse_elements_Tasks (t :: ts) f [])
      by (try discriminate; simpl in *; lia).
    reflexivity.
Qed.

(** [JSON.parse(JSON.stringify(tasks))] is the array of the tasks'
    objects. *)
Lemma JSON_parse_stringify ts :
  JSON_parse (JSON_stringify ts) = Some (JArr (List.map json_of_Task ts)).
Proof.
  unfold JSON_parse.
  rewrite parse_value_snapshot; [reflexivity | unfold parse_fuel; lia |].
  unfold parse_fuel, JSON_stringify.
  pose proof (stringify_elements_length ts) as Hlen.
  destruct ts as [|t ts]; intros Hne.
  - congruence.
  - destruct (stringify_Task_head t) as (r & E).
    assert (2 <= length (stringify_elements (t :: ts)))%nat.
    { destruct ts.
      - cbn [stringify_elements]. unfold stringify_Task. simpl. lia.
      - rewrite stringify_elements_cons by discriminate.
        rewrite E, length_app. simpl length. lia. }
    cbn [app length]. rewrite length_app. simpl length in *. lia.
Qed.
End Snapshot.

(** ** The parser never runs out of fuel *)

Section Fuel.
Local Open Scope nat_scope.

Lemma skip_ws_length s : length (skip_ws s) <= length s.
Proof.
  induction s as [|c s IH]; simpl; [lia |].
  destruct (is_json_ws c); simpl; lia.
Qed.

Lemma skip_ws_cons s c r : skip_ws s = c :: r -> length r < length s.
Proof.
  intros E. pose proof (skip_ws_length s) as H. rewrite E in H.
  simpl in H. lia.
Qed.

Lemma span_digits_length s ds r :
  span_digits s = (ds, r) -> length r <= length s.
Proof.
  revert ds r. induction s as [|c s IH]; simpl; intros ds r E.
  - injection E as _ <-. simpl. lia.
  - destruct (is_digit c).
    + destruct (span_digits s) as [ds' r'] eqn:Es.
      injection E as _ <-. specialize (IH _ _ eq_refl). lia.
    + injection E as _ <-. simpl. lia.
Qed.

Lemma parse_chars_length_le n s str r :
  length s <= n -> parse_chars s = Some (str, r) -> length r < length s.
Proof.
  revert s str r. induction n as [|n IH]; intros s str r Hn E.
  - destruct s; [discriminate | simpl in Hn; lia].
  - destruct s as [|c s]; [discriminate |].
    simpl in Hn. cbn [parse_chars] in E.
    destruct (c =? 34)%N.
    + injection E as _ <-. simpl. lia.
    + destruct (c =? 92)%N.
      * destruct s as [|x r1]; [discriminate |].
        destruct (x =? ch "u")%N.
        -- destruct r1 as [|h1 [|h2 [|h3 [|h4 r2]]]]; try discriminate.
           destruct (hex4 h1 h2 h3 h4); [| discriminate].
           destruct (parse_chars r2) as [[str' rest']|] eqn:E2; [| discriminate].
           injection E as _ <-.
           apply IH in E2; simpl in *; lia.
        -- destruct (simple_escape x); [| discriminate].
           destruct (parse_chars r1) as [[str' rest']|] eqn:E1; [| discriminate].
           injection E as _ <-.
           apply IH in E1; simpl in *; lia.
      * destruct (c <? 32)%N; [discriminate |].
        destruct (parse_chars s) as [[str' rest']|] eqn:Es; [| discriminate].
        injection E as _ <-.
        apply IH in Es; simpl in *; lia.
Qed.

Lemma parse_chars_length s str r :
  parse_chars s = Some (str, r) -> length r < length s.
Proof. apply (parse_chars_length_le (length s)). lia. Qed.

Lemma parse_int_part_length s ip r :
  parse_int_part s = Some (ip, r) -> length r <= length s.
Proof.
  unfold parse_int_part. destruct s as [|c s]; [discriminate |].
  destruct (c =? 48)%N.
  - intros [= _ <-]. simpl. lia.
  - destruct (is_digit c); [| discriminate].
    intros E.
    assert (span_digits (c :: s) = (ip, r)) as E' by congruence.
    apply span_digits_length in E'. exact E'.
Qed.

Lemma parse_frac_part_length s fp r :
  parse_frac_part s = Some (fp, r) -> length r <= length s.
Proof.
  unfold parse_frac_part. destruct s as [|c s].
  - intros [= _ <-]. lia.
  - destruct (c =? ch ".")%N.
    + destruct (span_digits s) as [[|d ds] r'] eqn:E; [discriminate |].
      intros [= _ <-]. apply span_digits_length in E. simpl. lia.
    + intros [= _ <-]. lia.
Qed.

Lemma parse_exp_part_length s ex r :
  parse_exp_part s = Some (ex, r) -> length r <= length s.
Proof.
  unfold parse_exp_part. destruct s as [|c s].
  - intros [= _ <-]. lia.
  - destruct ((c =? ch "e") || (c =? ch "E"))%N.
    + destruct (match s with
                | [] => (false, s)
                | x :: r' =>
                    if (x =? ch "-")%N then (true, r')
                    else if (x =? ch "+")%N then (false, r') else (false, s)
                end) as [neg r0] eqn:E0.
      assert (length r0 <= length s) as H0.
      { destruct s as [|x r']; [injection E0 as _ <-; lia |].
        destruct (x =? ch "-")%N; [injection E0 as _ <-; simpl; lia |].
        destruct (x =? ch "+")%N; injection E0 as _ <-; simpl; lia. }
      destruct (span_digits r0) as [[|d ds] r'] eqn:E; [discriminate |].
      intros [= _ <-]. apply span_digits_length in E. simpl. lia.
    + intros [= _ <-]. lia.
Qed.

Lemma parse_number_length s v r :
  parse_number s = POk v r -> length r <= length s.
Proof.
  unfold parse_number.
  destruct (match s with
            | [] => (false, s)
            | c :: r0 => if (c =? ch "-")%N then (true, r0) else (false, s)
            end) as [neg s0] eqn:E0.
  assert (length s0 <= length s) as H0.
  { destruct s as [|c r0]; [injection E0 as _ <-; lia |].
    destruct (c =? ch "-")%N; injection E0 as _ <-; simpl; lia. }
  destruct (parse_int_part s0) as [[ip s1]|] eqn:E1; [| discriminate].
  destruct (parse_frac_part s1) as [[fp s2]|] eqn:E2; [| discriminate].
  destruct (parse_exp_part s2) as [[ex s3]|] eqn:E3; [| discriminate].
  intros [= _ <-].
  apply parse_int_part_length in E1. apply parse_frac_part_length in E2.
  apply parse_exp_part_length in E3. lia.
Qed.

Lemma strip_prefix_length p s r :
  strip_prefix p s = Some r -> length r <= length s.
Proof.
  revert s. induction p as [|a p IH]; intros s; simpl.
  - intros [= <-]. lia.
  - destruct s as [|b s]; [discriminate |].
    destruct (a =? b)%N; [| discriminate].
    intros E. apply IH in E. simpl. lia.
Qed.

Lemma parse_literal_length s v r :
  parse_literal s = POk v r -> length r <= length s.
Proof.
  unfold parse_literal.
  destruct (strip_prefix (js "true") s) eqn:E1.
  { intros [= _ <-]. apply strip_prefix_length in E1. exact E1. }
  destruct (strip_prefix (js "false") s) eqn:E2.
  { intros [= _ <-]. apply strip_prefix_length in E2. exact E2. }
  destruct (strip_prefix (js "null") s) eqn:E3; [| discriminate].
  intros [= _ <-]. apply strip_prefix_length in E3. exact E3.
Qed.

(** No parser returns more input than it was given. *)
Lemma parse_lengths f :
  (forall s v r, parse_value f s = POk v r -> length r <= length s) /\
  (forall s v r, parse_elements f s = POk v r -> length r <= length s) /\
  (forall s v r, parse_members f s = POk v r -> length r <= length s).
Proof.
  induction f as [|f (IHv & IHe & IHm)].
  { repeat split; intros s v r E; discriminate E. }
  split; [| split]; intros s v r E.
  - cbn [parse_value] in E.
    destruct (skip_ws s) as [|c r0] eqn:Es; [discriminate |].
    apply skip_ws_cons in Es.
    destruct (c =? ch "[")%N.
    { destruct (skip_ws r0) as [|c' r'] eqn:Es'; [discriminate |].
      apply skip_ws_cons in Es'.
      destruct (c' =? ch "]")%N; [injection E as _ <-; lia |].
      destruct (parse_elements f r0) as [vs rest| |] eqn:Ee; try discriminate.
      injection E as _ <-. apply IHe in Ee. lia. }
    destruct (c =? ch "{")%N.
    { destruct (skip_ws r0) as [|c' r'] eqn:Es'; [discriminate |].
      apply skip_ws_cons in Es'.
      destruct (c' =? ch "}")%N; [injection E as _ <-; lia |].
      destruct (parse_members f r0) as [vs rest| |] eqn:Ee; try discriminate.
      injection E as _ <-. apply IHm in Ee. lia. }
    destruct (c =? 34)%N.
    { destruct (parse_chars r0) as [[str rest]|] eqn:Ec; [| discriminate].
      injection E as _ <-. apply parse_chars_length in Ec. lia. }
    destruct ((c =? ch "-") || is_digit c)%N.
    { apply parse_number_length in E. simpl in E. lia. }
    apply parse_literal_length in E. simpl in E. lia.
  - cbn [parse_elements] in E.
    destruct (parse_value f s) as [v0 r0| |] eqn:Ev; try discriminate.
    apply IHv in Ev.
    destruct (skip_ws r0) as [|c r'] eqn:Es; [discriminate |].
    apply skip_ws_cons in Es.
    destruct (c =? ch ",")%N.
    { destruct (parse_elements f r') as [vs rest| |] eqn:Ee; try discriminate.
      injection E as _ <-. apply IHe in Ee. lia. }
    destruct (c =? ch "]")%N; [| discriminate].
    injection E as _ <-. lia.
  - cbn [parse_members] in E.
    destruct (skip_ws s) as [|c r0] eqn:Es; [discriminate |].
    apply skip_ws_cons in Es.
    destruct (c =? 34)%N; [| discriminate].
    destruct (parse_chars r0) as [[key r1]|] eqn:Ec; [| discriminate].
    apply parse_chars_length in Ec.
    destruct (skip_ws r1) as [|c1 r2] eqn:Es1; [discriminate |].
    apply skip_ws_cons in Es1.
    destruct (c1 =? ch ":")%N; [| discriminate].
    destruct (parse_value f r2) as [v0 r3| |] eqn:Ev; try discriminate.
    apply IHv in Ev.
    destruct (skip_ws r3) as [|c3 r4] eqn:Es3; [discriminate |].
    apply skip_ws_cons in Es3.
    destruct (c3 =? ch ",")%N.
    { destruct (parse_members f r4) as [kvs rest| |] eqn:Em; try discriminate.
      injection E as _ <-. apply IHm in Em. lia. }
    destruct (c3 =? ch "}")%N; [| discriminate].
    injection E as _ <-. lia.
Qed.

Lemma parse_number_not_PFuel s : parse_number s <> PFuel.
Proof.
  unfold parse_number.
  destruct (match s with
            | [] => (false, s)
            | c :: r0 => if (c =? ch "-")%N then (true, r0) else (false, s)
            end) as [neg s0].
  destruct (parse_int_part s0) as [[ip s1]|]; [| discriminate].
  destruct (parse_frac_part s1) as [[fp s2]|]; [| discriminate].
  destruct (parse_exp_part s2) as [[ex s3]|]; discriminate.
Qed.

Lemma parse_literal_not_PFuel s : parse_literal s <> PFuel.
Proof.
  unfold parse_literal.
  destruct (strip_prefix (js "true") s); [discriminate |].
  destruct (strip_prefix (js "false") s); [discriminate |].
  destruct (strip_prefix (js "null") s); discriminate.
Qed.

(** With two units of fuel per code unit, and one more, the parser
    never runs out. *)
Lemma parse_fuel_enough f :
  (forall s, 2 * length s + 1 <= f -> parse_value f s <> PFuel) /\
  (forall s, 2 * length s + 2 <= f -> parse_elements f s <> PFuel) /\
  (forall s, 2 * length s + 2 <= f -> parse_members f s <> PFuel).
Proof.
  induction f as [|f (IHv & IHe & IHm)].
  { repeat split; intros s Hf; lia. }
  destruct (parse_lengths f) as (Lv & Le & Lm).
  split; [| split]; intros s Hf.
  - cbn [parse_value].
    destruct (skip_ws s) as [|c r0] eqn:Es; [discriminate |].
    apply skip_ws_cons in Es.
    destruct (c =? ch "[")%N.
    { destruct (skip_ws r0) as [|c' r'] eqn:Es'; [discriminate |].
      destruct (c' =? ch "]")%N; [discriminate |].
      specialize (IHe r0 ltac:(lia)).
      destruct (parse_elements f r0); congruence. }
    destruct (c =? ch "{")%N.
    { destruct (skip_ws r0) as [|c' r'] eqn:Es'; [discriminate |].
      destruct (c' =? ch "}")%N; [discriminate |].
      specialize (IHm r0 ltac:(lia)).
      destruct (parse_members f r0); congruence. }
    destruct (c =? 34)%N.
    { destruct (parse_chars r0) as [[str rest]|]; discriminate. }
    destruct ((c =? ch "-") || is_digit c)%N.
    { apply parse_number_not_PFuel. }
    apply parse_literal_not_PFuel.
  - cbn [parse_elements].
    specialize (IHv s ltac:(lia)).
    destruct (parse_value f s) as [v0 r0| |] eqn:Ev; [| discriminate | congruence].
    apply Lv in Ev.
    destruct (skip_ws r0) as [|c r'] eqn:Es; [discriminate |].
    apply skip_ws_cons in Es.
    destruct (c =? ch ",")%N.
    { specialize (IHe r' ltac:(lia)).
      destruct (parse_elements f r'); congruence. }
    destruct (c =? ch "]")%N; discriminate.
  - cbn [parse_members].
    destruct (skip_ws s) as [|c r0] eqn:Es; [discriminate |].
    apply skip_ws_cons in Es.
    destruct (c =? 34)%N; [| discriminate].
    destruct (parse_chars r0) as [[key r1]|] eqn:Ec; [| discriminate].
    apply parse_chars_length in Ec.
    destruct (skip_ws r1) as [|c1 r2] eqn:Es1; [discriminate |].
    apply skip_ws_cons in Es1.
    destruct (c1 =? ch ":")%N; [| discriminate].
    specialize (IHv r2 ltac:(lia)).
    destruct (parse_value f r2) as [v0 r3| |] eqn:Ev; [| discriminate | congruence].
    apply Lv in Ev.
    destruct (skip_ws r3) as [|c3 r4] eqn:Es3; [discriminate |].
    apply skip_ws_cons in Es3.
    destruct (c3 =? ch ",")%N.
    { specialize (IHm r4 ltac:(lia)).
      destruct (parse_members f r4); congruence. }
    destruct (c3 =? ch "}")%N; discriminate.
Qed.

(** [JSON_parse] fails only on text that is not JSON: the fuel it
    supplies is never used up. *)
Lemma JSON_parse_fuel s : parse_value (parse_fuel s) s <> PFuel.
Proof.
  apply (proj1 (parse_fuel_enough (parse_fuel s))). unfold parse_fuel. lia.
Qed.
End Fuel.

(** ** Loading *)

Lemma revive_json_of_Task now t : revive now (json_of_Task t) = Ret (obj_of_Task t).
Proof. reflexivity. Qed.

Lemma map_Res_from_revive (clock : nat -> Z) i ts :
  map_Res_from (fun i t => revive (clock i) t) i (List.map json_of_Task ts)
  = Ret (List.map obj_of_Task ts).
Proof.
  revert i. induction ts as [|t ts IH]; intros i; [reflexivity |].
  cbn [List.map map_Res_from]. rewrite revive_json_of_Task, IH. reflexivity.
Qed.

Lemma Task_of_obj_of_Task t : Task_of_obj (obj_of_Task t) = Some t.
Proof. destruct t. reflexivity. Qed.

Lemma JSON_stringify_truthy ts : truthy_string (JSON_stringify ts) = true.
Proof. reflexivity. Qed.

Lemma loadTasks_stringify clock storage ts :
  loadTasks clock (<[STORAGE_KEY := JSON_stringify ts]> storage)
  = Ret (List.map obj_of_Task ts, []).
Proof.
  unfold loadTasks. rewrite lookup_insert_eq. cbv zeta.
  rewrite JSON_stringify_truthy. unfold parse_tasks.
  rewrite JSON_parse_stringify. cbn [mbind Res_bind Array_map].
  unfold mbind, Res_bind, map_Res. rewrite map_Res_from_revive. reflexivity.
Qed.

(** C3. When [saveTasks] has written the collection (storage accepting
    the write), [loadTasks] reads back one object per task, in the same
    sequence, each with the id, text, completed flag and order key of its
    task, and nothing is reported on the console: the loaded collection
    is the saved one, whatever the clock reads during the load. *)
Theorem load_after_save e clock st :
  quota_exceeded e = false ->
  let st' := snd (saveTasks e st) in
  fst (saveTasks e st) = Ret tt /\
  tasks st' = tasks st /\
  localStorage st' !! STORAGE_KEY = Some (JSON_stringify (tasks st)) /\
  loadTasks clock (localStorage st') = Ret (List.map obj_of_Task (tasks st), []) /\
  List.map Task_of_obj (List.map obj_of_Task (tasks st))
    = List.map Some (tasks st).
Proof.
  intros Hq st'.
  assert (saveTasks e st =
          (Ret tt, {| tasks := tasks st; currentFilter := currentFilter st;
                      localStorage := <[STORAGE_KEY := JSON_stringify (tasks st)]>
                                        (localStorage st);
                      trace := trace st ++
                               [SetItem STORAGE_KEY (JSON_stringify (tasks st))] |}))
    as Hsave.
  { unfold saveTasks, localStorage_setItem, get_tasks, mbind, M_bind.
    rewrite Hq. reflexivity. }
  unfold st'. rewrite Hsave. cbn [fst snd tasks localStorage].
  split; [reflexivity |]. split; [reflexivity |].
  split; [apply lookup_insert_eq |].
  split; [apply loadTasks_stringify |].
  rewrite List.map_map. apply List.map_ext. apply Task_of_obj_of_Task.
Qed.

(** Saving the scenario and loading it again. *)
Lemma load_after_save_witness :
  quota_exceeded scenario_env = false /\
  let st' := snd (saveTasks scenario_env scenario_state) in
  fst (saveTasks scenario_env scenario_state) = Ret tt /\
  tasks st' = tasks scenario_state /\
  localStorage st' !! STORAGE_KEY = Some (JSON_stringify (tasks scenario_state)) /\
  loadTasks (ticking 0) (localStorage st')
    = Ret (List.map obj_of_Task (tasks scenario_state), []) /\
  List.map Task_of_obj (List.map obj_of_Task (tasks scenario_state))
    = List.map Some (tasks scenario_state).
Proof.
  split; [reflexivity |].
  apply (load_after_save scenario_env (ticking 0) scenario_state). reflexivity.
Defined.

Lemma revive_cases now v :
  if is_null v then revive now v = Throw TypeError
  else exists o, revive now v = Ret o.
Proof. destruct v; simpl; try reflexivity; eexists; reflexivity. Qed.

Lemma map_Res_from_revive_cases (clock : nat -> Z) i items :
  if existsb is_null items
  then map_Res_from (fun i t => revive (clock i) t) i items = Throw TypeError
  else exists objs,
         map_Res_from (fun i t => revive (clock i) t) i items = Ret objs /\
         length objs = length items.
Proof.
  revert i. induction items as [|v items IH]; intros i; cbn [existsb map_Res_from].
  - exists []. split; reflexivity.
  - pose proof (revive_cases (clock i) v) as Hv. specialize (IH (S i)).
    destruct (is_null v); cbn [orb].
    + rewrite Hv. reflexivity.
    + destruct Hv as (o & ->). unfold mbind, Res_bind.
      destruct (existsb is_null items).
      * rewrite IH. reflexivity.
      * destruct IH as (objs & -> & Hlen).
        exists (o :: objs). split; [reflexivity | simpl; congruence].
Qed.

(** C8. The code misses part of what the claim says. [loadTasks] puts
    the parse and the rebuilding of the tasks under one [try]: stored
    text that is not JSON, a JSON value that is not an array, and an
    array with a [null] element are reported on the console and give the
    empty collection. An array whose elements are no task objects slips
    through: the array of one empty object loads as one object without
    id and without text, the array of a number and a boolean as two, and
    nothing is reported. Such an object is no task of the data model,
    and replacing in its text, the first thing [renderTasks] does with
    it, throws. *)
Theorem load_keeps_malformed_snapshot (clock : nat -> Z) :
  let stored (data : jsstring) : gmap jsstring jsstring :=
    <[STORAGE_KEY := data]> ∅ in
  let blank i :=
    new_TaskObj None None (Some (JBool false)) (Some (JNum (clock i) 0)) in
  loadTasks clock (stored (js "{oops"))
    = Ret ([], [parse_failure SyntaxError]) /\
  loadTasks clock (stored (js "{}")) = Ret ([], [parse_failure TypeError]) /\
  loadTasks clock (stored (js "[null]"))
    = Ret ([], [parse_failure TypeError]) /\
  loadTasks clock (stored (js "[{}]")) = Ret ([blank 0%nat], []) /\
  loadTasks clock (stored (js "[1,true]"))
    = Ret ([blank 0%nat; blank 1%nat], []) /\
  (forall i, Task_of_obj (blank i) = None /\
             escapedText_of (blank i) = Throw TypeError).
Proof.
  intros stored blank.
  assert (forall data, loadTasks clock (stored data)
                       = if truthy_string data
                         then try_catch
                                (objs ← parse_tasks clock data; Ret (objs, []))
                                (fun x => Ret ([], [parse_failure x]))
                         else Ret ([], [])) as Hload.
  { intros data. unfold loadTasks, stored. rewrite lookup_insert_eq. reflexivity. }
  rewrite !Hload.
  repeat split; reflexivity.
Qed.

(** X20. [loadTasks] never lets an exception escape. It yields the
    empty collection, and reports nothing, when nothing is stored and
    when the stored string is empty; it yields the empty collection and
    reports the failure on the console when the stored string is not
    JSON text, when the JSON value is not an array, and when the array
    has a [null] element. For every other stored array it yields one
    object per element, built from the members [id], [text], [completed]
    and [order] the element has, and reports nothing. ([JSON_parse]
    answers [None] only for text that is not JSON: it never runs out of
    fuel.) *)
Theorem loadTasks_never_throws (clock : nat -> Z) (storage : gmap jsstring jsstring) :
  (exists objs log, loadTasks clock storage = Ret (objs, log)) /\
  (forall data, parse_value (parse_fuel data) data <> PFuel) /\
  match storage !! STORAGE_KEY with
  | None => loadTasks clock storage = Ret ([], [])
  | Some [] => loadTasks clock storage = Ret ([], [])
  | Some data =>
      match JSON_parse data with
      | None => loadTasks clock storage = Ret ([], [parse_failure SyntaxError])
      | Some (JArr items) =>
          if existsb is_null items
          then loadTasks clock storage = Ret ([], [parse_failure TypeError])
          else exists objs,
                 loadTasks clock storage = Ret (objs, []) /\
                 map_Res (fun i t => revive (clock i) t) items = Ret objs /\
                 length objs = length items
      | Some _ => loadTasks clock storage = Ret ([], [parse_failure TypeError])
      end
  end.
Proof.
  assert (match storage !! STORAGE_KEY with
          | None => loadTasks clock storage = Ret ([], [])
          | Some [] => loadTasks clock storage = Ret ([], [])
          | Some data =>
              match JSON_parse data with
              | None =>
                  loadTasks clock storage = Ret ([], [parse_failure SyntaxError])
              | Some (JArr items) =>
                  if existsb is_null items
                  then loadTasks clock storage
                       = Ret ([], [parse_failure TypeError])
                  else exists objs,
                         loadTasks clock storage = Ret (objs, []) /\
                         map_Res (fun i t => revive (clock i) t) items
                           = Ret objs /\
                         length objs = length items
              | Some _ =>
                  loadTasks clock storage = Ret ([], [parse_failure TypeError])
              end
          end) as H.
  { unfold loadTasks. destruct (storage !! STORAGE_KEY) as [[|c data]|];
      [reflexivity | | reflexivity].
    cbv zeta. cbn [truthy_string]. unfold parse_tasks.
    destruct (JSON_parse (c :: data)) as [v|]; [| reflexivity].
    destruct v; try reflexivity.
    cbn [mbind Res_bind Array_map]. unfold mbind at 2, Res_bind at 2.
    cbn [Array_map]. unfold map_Res.
    pose proof (map_Res_from_revive_cases clock 0 items) as Hitems.
    destruct (existsb is_null items).
    - rewrite Hitems. reflexivity.
    - destruct Hitems as (objs & E & Hlen). exists objs. rewrite E.
      split; [reflexivity |]. split; [reflexivity | exact Hlen]. }
  split; [| split; [exact JSON_parse_fuel | exact H]].
  destruct (storage !! STORAGE_KEY) as [[|c data]|]; eauto.
  destruct (JSON_parse (c :: data)) as [[| | | | items |]|]; eauto.
  destruct (existsb is_null items); eauto.
  destruct H as (objs & E & _). eauto.
Qed.

(** * Further properties *)

(** ** The order of the rendered list *)

Lemma ascending_cons t ts :
  ascending (t :: ts) <-> ascending ts /\ (forall y, In y ts -> order t <= order y).
Proof.
  unfold ascending. split.
  - intros H. apply StronglySorted_inv in H as [Hs Hall].
    split; [exact Hs |]. apply List.Forall_forall. exact Hall.
  - intros [Hs Hall]. constructor; [exact Hs |]. apply List.Forall_forall. exact Hall.
Qed.

Lemma sort_insert_In (x y : Task) ts :
  In y (sort_insert (fun a b => order a - order b) x ts) <-> y = x \/ In y ts.
Proof.
  pose proof (sort_insert_Permutation (fun a b => order a - order b) x ts) as H.
  split.
  - intros Hin. apply (Permutation_in _ H) in Hin as [<- | Hin]; auto.
  - intros Hin. apply (Permutation_in _ (Permutation_sym H)).
    destruct Hin as [-> | Hin]; [left; reflexivity | right; exact Hin].
Qed.

Lemma sort_insert_ascending x ts :
  ascending ts -> ascending (sort_insert (fun a b => order a - order b) x ts).
Proof.
  induction ts as [|y ts IH]; intros Hs; simpl.
  - apply ascending_cons. split; [constructor | intros z []].
  - apply ascending_cons in Hs as [Hs Hy].
    destruct (Z.leb_spec (order x - order y) 0) as [Hle | Hgt].
    + apply ascending_cons. split.
      * apply ascending_cons. split; assumption.
      * intros z [<- | Hz]; [lia |]. specialize (Hy z Hz). lia.
    + apply ascending_cons. split; [apply IH; exact Hs |].
      intros z Hz. apply sort_insert_In in Hz as [-> | Hz]; [lia | auto].
Qed.

Lemma sortByOrder_ascending ts : ascending (sortByOrder ts).
Proof.
  unfold sortByOrder. induction ts as [|t ts IH]; simpl; [constructor |].
  apply sort_insert_ascending. exact IH.
Qed.

Lemma filter_sort_insert (p : Task -> bool) x ts :
  ascending ts ->
  List.filter p (sort_insert (fun a b => order a - order b) x ts) =
  if p x then sort_insert (fun a b => order a - order b) x (List.filter p ts)
  else List.filter p ts.
Proof.
  induction ts as [|y ts IH]; intros Hs.
  - simpl. destruct (p x); reflexivity.
  - apply ascending_cons in Hs as [Hs Hy]. cbn [sort_insert].
    destruct (Z.leb_spec (order x - order y) 0) as [Hle | Hgt].
    + cbn [List.filter]. destruct (p x) eqn:Hpx; [| reflexivity].
      symmetry. apply sort_insert_least.
      intros z Hz.
      assert (In z (y :: ts)) as Hz'.
      { change (In z (List.filter p (y :: ts))) in Hz.
        apply filter_In in Hz as [Hz _]. exact Hz. }
      destruct Hz' as [<- | Hz']; [lia |]. specialize (Hy z Hz'). lia.
    + cbn [List.filter]. rewrite (IH Hs).
      destruct (p y) eqn:Hpy; destruct (p x) eqn:Hpx; try reflexivity.
      cbn [sort_insert].
      destruct (Z.leb_spec (order x - order y) 0); [lia | reflexivity].
Qed.

(** Filtering and sorting commute: a filter never reorders, and the sort
    never depends on the tasks that are filtered out. *)
Lemma filter_sortByOrder (p : Task -> bool) ts :
  List.filter p (sortByOrder ts) = sortByOrder (List.filter p ts).
Proof.
  induction ts as [|t ts IH]; [reflexivity |].
  change (sortByOrder (t :: ts))
    with (sort_insert (fun a b => order a - order b) t (sortByOrder ts)).
  rewrite filter_sort_insert by apply sortByOrder_ascending.
  rewrite IH. cbn [List.filter]. destruct (p t); reflexivity.
Qed.

Lemma sortByOrder_same_key k ts :
  (forall t, In t ts -> order t = k) -> sortByOrder ts = ts.
Proof.
  unfold sortByOrder. induction ts as [|t ts IH]; intros H; [reflexivity |].
  simpl. rewrite IH by (intros y Hy; apply H; right; exact Hy).
  apply sort_insert_least. intros y Hy.
  rewrite (H t (or_introl eq_refl)), (H y (or_intror Hy)). lia.
Qed.

(** X1. The list [renderTasks] shows is in ascending order of the keys,
    it holds exactly the stored tasks that pass the filter, and tasks
    with equal keys are shown in the sequence they are stored in. *)
Theorem rendered_list_sorted_and_stable (ts : list Task) (f : jsstring) :
  ascending (project ts f) /\
  Permutation (project ts f) (List.filter (passes f) ts) /\
  (forall k, List.filter (fun t => order t =? k) (project ts f)
             = List.filter (fun t => order t =? k) (List.filter (passes f) ts)).
Proof.
  assert (project ts f = sortByOrder (List.filter (passes f) ts)) as E
    by apply filter_sortByOrder.
  rewrite E. split; [apply sortByOrder_ascending |].
  split; [apply sort_Permutation |].
  intros k. rewrite filter_sortByOrder. apply (sortByOrder_same_key k).
  intros t Ht. apply filter_In in Ht as [_ Ht]. apply Z.eqb_eq. exact Ht.
Qed.

Lemma filter_twice {A : Type} (p : A -> bool) (l : list A) :
  List.filter p (List.filter p l) = List.filter p l.
Proof.
  induction l as [|a l IH]; [reflexivity |].
  simpl. destruct (p a) eqn:E; simpl; rewrite ?E, IH; reflexivity.
Qed.

Lemma filter_none {A : Type} (p : A -> bool) (l : list A) :
  (forall x, In x l -> p x = false) -> List.filter p l = [].
Proof.
  induction l as [|a l IH]; intros H; [reflexivity |].
  simpl. rewrite (H a (or_introl eq_refl)). apply IH.
  intros x Hx. apply H. right. exact Hx.
Qed.

(** X2. Clearing the completed tasks leaves the list shown under
    [Active] exactly as it was, sequence included; afterwards the list
    under [All] is that same list and the list under [Completed] is
    empty. *)
Theorem clearCompleted_keeps_active_view e st :
  let ts' := tasks (snd (clearCompleted e st)) in
  project ts' FILTER.ACTIVE = project (tasks st) FILTER.ACTIVE /\
  project ts' FILTER.ALL = project (tasks st) FILTER.ACTIVE /\
  project ts' FILTER.COMPLETED = [].
Proof.
  intros ts'.
  assert (ts' = List.filter (passes FILTER.ACTIVE) (tasks st)) as E.
  { unfold ts'. rewrite clearCompleted_run.
    destruct (existsb completed (tasks st)) eqn:Ex.
    - rewrite tasks_after_persist. reflexivity.
    - simpl. symmetry. apply filter_active_id. exact Ex. }
  rewrite E. unfold project. rewrite <- !filter_sortByOrder.
  split; [apply filter_twice |]. split; [apply filter_all_passes |].
  apply filter_none. intros t Ht. apply filter_In in Ht as [_ Ht].
  rewrite passes_active in Ht. rewrite passes_completed.
  apply negb_true_iff. exact Ht.
Qed.

(** ** What edit, toggle and delete change *)

Lemma tasks_after_put ts e m st :
  tasks (snd ((put_tasks ts;; saveTasks e;; renderTasks;; announce m) st)) = ts.
Proof.
  unfold mbind at 1, M_bind at 1, put_tasks. cbv beta iota.
  apply tasks_after_persist.
Qed.

Lemma update_first_absent {A : Type} (p : A -> bool) (f : A -> A) (l : list A) :
  (forall x, In x l -> p x = false) -> update_first p f l = l.
Proof.
  induction l as [|a l IH]; intros H; [reflexivity |].
  simpl. rewrite (H a (or_introl eq_refl)). f_equal.
  apply IH. intros x Hx. apply H. right. exact Hx.
Qed.

Lemma find_none_all {A : Type} (p : A -> bool) (l : list A) :
  List.find p l = None -> forall x, In x l -> p x = false.
Proof. intros H x Hx. exact (List.find_none p l H x Hx). Qed.

Lemma editTask_tasks e i new st :
  tasks (snd (editTask e i new st)) =
  update_first (has_id i) (set_text new) (tasks st).
Proof.
  unfold editTask. unfold mbind at 1, M_bind at 1, get_tasks. cbv beta iota.
  change (fun t : Task => streq (id t) i) with (has_id i).
  destruct (List.find (has_id i) (tasks st)) eqn:E.
  - apply tasks_after_put.
  - rewrite (update_first_absent _ _ _ (find_none_all _ _ E)). reflexivity.
Qed.

Lemma toggleComplete_tasks e i st :
  tasks (snd (toggleComplete e i st)) =
  update_first (has_id i) (fun t => set_completed (negb (completed t)) t)
    (tasks st).
Proof.
  unfold toggleComplete. unfold mbind at 1, M_bind at 1, get_tasks.
  cbv beta iota. change (fun t : Task => streq (id t) i) with (has_id i).
  destruct (List.find (has_id i) (tasks st)) eqn:E.
  - apply tasks_after_put.
  - rewrite (update_first_absent _ _ _ (find_none_all _ _ E)). reflexivity.
Qed.

Lemma deleteTask_tasks e i st :
  tasks (snd (deleteTask e i st)) =
  if findIndex (has_id i) (tasks st) =? -1 then tasks st
  else snd (splice (tasks st) (findIndex (has_id i) (tasks st)) 1 []).
Proof.
  unfold deleteTask. unfold mbind at 1, M_bind at 1, get_tasks. cbv beta iota.
  change (fun t : Task => streq (id t) i) with (has_id i).
  destruct (findIndex (has_id i) (tasks st) =? -1); [reflexivity |].
  apply tasks_after_put.
Qed.

Lemma has_id_true i t : has_id i t = true <-> id t = i.
Proof. apply streq_true. Qed.

Lemma has_id_false i t : has_id i t = false <-> id t <> i.
Proof. apply streq_false. Qed.

Lemma update_first_ids (p : Task -> bool) (f : Task -> Task) ts :
  (forall t, id (f t) = id t) ->
  List.map id (update_first p f ts) = List.map id ts.
Proof.
  intros Hf. induction ts as [|t ts IH]; [reflexivity |].
  simpl. destruct (p t); simpl; [rewrite Hf | rewrite IH]; reflexivity.
Qed.

(** With unique ids the first task with an id is the only one. *)
Lemma update_first_unique i (f : Task -> Task) ts :
  NoDup (List.map id ts) ->
  update_first (has_id i) f ts =
  List.map (fun t => if has_id i t then f t else t) ts.
Proof.
  induction ts as [|t ts IH]; intros Hnd; [reflexivity |].
  simpl in Hnd. apply NoDup_cons in Hnd as [Hnotin Hnd].
  simpl. destruct (has_id i t) eqn:E.
  - f_equal. apply has_id_true in E.
    rewrite <- (List.map_id ts) at 1. apply List.map_ext_in.
    intros x Hx. destruct (has_id i x) eqn:Ex; [| reflexivity].
    apply has_id_true in Ex. exfalso. apply Hnotin.
    apply list_elem_of_In. rewrite E, <- Ex. apply in_map. exact Hx.
  - f_equal. apply IH. exact Hnd.
Qed.

Lemma filter_out_unique i ts :
  NoDup (List.map id ts) ->
  forall (k : nat) x, ts !! k = Some x -> id x = i ->
  List.filter (fun t => negb (has_id i t)) ts = take k ts ++ drop (S k) ts.
Proof.
  induction ts as [|t ts IH]; intros Hnd k x Hk Hx; [discriminate |].
  simpl in Hnd. apply NoDup_cons in Hnd as [Hnotin Hnd].
  destruct k as [|k]; simpl in Hk.
  - injection Hk as ->. simpl.
    rewrite (proj2 (has_id_true i x) Hx). simpl.
    rewrite drop_0. apply forallb_filter_id. apply forallb_forall.
    intros y Hy. apply negb_true_iff, has_id_false. intros Ey.
    apply Hnotin. apply list_elem_of_In. rewrite Hx, <- Ey.
    apply in_map. exact Hy.
  - simpl.
    assert (has_id i t = false) as Et.
    { apply has_id_false. intros Et. apply Hnotin.
      apply list_elem_of_In. rewrite Et, <- Hx. apply in_map.
      apply list_elem_of_In. eapply list_elem_of_lookup_2. exact Hk. }
    rewrite Et. simpl. f_equal. apply (IH Hnd k x Hk Hx).
Qed.

(** X3. With unique ids, [editTask] changes the text of the task with
    the given id and nothing else, and [toggleComplete] flips the
    completed flag of that task and nothing else: every other task, the
    sequence and all ids and order keys stay as they were. *)
Theorem edit_and_toggle_change_one_task e i new st :
  NoDup (List.map id (tasks st)) ->
  tasks (snd (editTask e i new st)) =
    List.map (fun t => if has_id i t then set_text new t else t) (tasks st) /\
  tasks (snd (toggleComplete e i st)) =
    List.map (fun t => if has_id i t then set_completed (negb (completed t)) t
                       else t) (tasks st).
Proof.
  intros Hnd. rewrite editTask_tasks, toggleComplete_tasks.
  split; apply update_first_unique; exact Hnd.
Qed.

(** The scenario, editing and toggling [B]. *)
Lemma edit_and_toggle_change_one_task_witness :
  NoDup (List.map id (tasks scenario_state)) /\
  tasks (snd (editTask scenario_env (js "B") (js "new") scenario_state)) =
    List.map (fun t => if has_id (js "B") t then set_text (js "new") t else t)
      (tasks scenario_state) /\
  tasks (snd (toggleComplete scenario_env (js "B") scenario_state)) =
    List.map (fun t => if has_id (js "B") t
                       then set_completed (negb (completed t)) t else t)
      (tasks scenario_state).
Proof.
  assert (NoDup (List.map id (tasks scenario_state))) as H
    by (apply (bool_decide_unpack _); vm_compute; exact I).
  split; [exact H |].
  apply (edit_and_toggle_change_one_task scenario_env (js "B") (js "new")
           scenario_state H).
Defined.

Lemma set_completed_twice t :
  set_completed (negb (completed (set_completed (negb (completed t)) t)))
    (set_completed (negb (completed t)) t) = t.
Proof. destruct t as [i x c o]. unfold set_completed. simpl. rewrite negb_involutive. reflexivity. Qed.

Lemma update_first_toggle_twice i ts :
  update_first (has_id i) (fun t => set_completed (negb (completed t)) t)
    (update_first (has_id i) (fun t => set_completed (negb (completed t)) t) ts)
  = ts.
Proof.
  induction ts as [|t ts IH]; [reflexivity |].
  cbn [update_first]. destruct (has_id i t) eqn:E; cbn [update_first].
  - assert (has_id i (set_completed (negb (completed t)) t) = true) as E'
      by exact E.
    rewrite E'. rewrite set_completed_twice. reflexivity.
  - rewrite E, IH. reflexivity.
Qed.

(** X4. Toggling the same id twice gives back the task list as it was,
    whether or not a task has that id, whether or not ids are unique,
    and whether or not storage accepts the writes. *)
Theorem toggle_twice_restores e e' i st :
  tasks (snd (toggleComplete e' i (snd (toggleComplete e i st)))) = tasks st.
Proof.
  rewrite toggleComplete_tasks, toggleComplete_tasks.
  apply update_first_toggle_twice.
Qed.

Lemma findIndex_unique (ts : list Task) i (k : nat) x :
  NoDup (List.map id ts) -> ts !! k = Some x -> id x = i ->
  findIndex (has_id i) ts = Z.of_nat k.
Proof.
  intros Hnd Hk Hx.
  assert (In x ts) as Hin
    by (apply list_elem_of_In; eapply list_elem_of_lookup_2; exact Hk).
  destruct (findIndex_present (has_id i) ts x Hin (proj2 (has_id_true i x) Hx))
    as (k' & y & E & Hk' & Hy & _).
  apply has_id_true in Hy. rewrite E. f_equal.
  apply (NoDup_lookup (List.map id ts) k' k i Hnd).
  - change (List.map id ts) with (id <$> ts).
    rewrite list_lookup_fmap, Hk'. simpl. congruence.
  - change (List.map id ts) with (id <$> ts).
    rewrite list_lookup_fmap, Hk. simpl. congruence.
Qed.

Lemma filter_filter_comm {A : Type} (p q : A -> bool) (l : list A) :
  List.filter p (List.filter q l) = List.filter q (List.filter p l).
Proof.
  induction l as [|a l IH]; [reflexivity |].
  simpl. destruct (q a) eqn:Eq; destruct (p a) eqn:Ep; simpl;
    rewrite ?Eq, ?Ep, IH; reflexivity.
Qed.

Lemma deleteTask_unique e i st :
  NoDup (List.map id (tasks st)) ->
  tasks (snd (deleteTask e i st))
  = List.filter (fun t => negb (has_id i t)) (tasks st).
Proof.
  intros Hnd. rewrite deleteTask_tasks.
  destruct (decide (i ∈ List.map id (tasks st))) as [Hin | Hnin];
    rewrite list_elem_of_In in *.
  - destruct (id_present _ _ Hin) as (x0 & Hx0 & Hp0).
    destruct (findIndex_present (has_id i) _ x0 Hx0 Hp0)
      as (k & x & Ek & Hk & Hx & _).
    rewrite Ek.
    replace (Z.of_nat k =? -1) with false by (symmetry; apply Z.eqb_neq; lia).
    rewrite (splice_remove_one _ _ _ Hk). simpl.
    symmetry. apply (filter_out_unique i _ Hnd k x Hk).
    apply has_id_true. exact Hx.
  - rewrite (findIndex_absent (has_id i) (tasks st) (id_absent _ _ Hnin)).
    simpl. symmetry. apply forallb_filter_id. apply forallb_forall.
    intros y Hy. apply negb_true_iff. apply (id_absent _ _ Hnin y Hy).
Qed.

Lemma deleteTask_unique_gone e i st :
  NoDup (List.map id (tasks st)) ->
  ~ In i (List.map id (tasks (snd (deleteTask e i st)))).
Proof.
  intros Hnd. rewrite (deleteTask_unique e i st Hnd).
  intros Hin. apply in_map_iff in Hin as (t & Et & Ht).
  apply filter_In in Ht as [_ Ht]. apply negb_true_iff, has_id_false in Ht.
  contradiction.
Qed.

(** X5. With unique ids, [deleteTask] removes the task with the given id
    and no other: the stored list is the old one without that task, the
    id is gone, and under every filter the rendered list is the old
    rendered list without that task, the rest in the same sequence. *)
Theorem delete_removes_one_task e i f st :
  NoDup (List.map id (tasks st)) ->
  let ts' := tasks (snd (deleteTask e i st)) in
  ts' = List.filter (fun t => negb (has_id i t)) (tasks st) /\
  ~ In i (List.map id ts') /\
  project ts' f = List.filter (fun t => negb (has_id i t)) (project (tasks st) f).
Proof.
  intros Hnd ts'.
  split; [apply deleteTask_unique; exact Hnd |].
  split; [apply deleteTask_unique_gone; exact Hnd |].
  unfold ts'. rewrite (deleteTask_unique e i st Hnd). unfold project.
  rewrite <- filter_sortByOrder. apply filter_filter_comm.
Qed.

(** The scenario, deleting [B]. *)
Lemma delete_removes_one_task_witness :
  NoDup (List.map id (tasks scenario_state)) /\
  let ts' := tasks (snd (deleteTask scenario_env (js "B") scenario_state)) in
  ts' = List.filter (fun t => negb (has_id (js "B") t)) (tasks scenario_state) /\
  ~ In (js "B") (List.map id ts') /\
  project ts' FILTER.ACTIVE =
    List.filter (fun t => negb (has_id (js "B") t))
      (project (tasks scenario_state) FILTER.ACTIVE).
Proof.
  assert (NoDup (List.map id (tasks scenario_state))) as H
    by (apply (bool_decide_unpack _); vm_compute; exact I).
  split; [exact H |].
  apply (delete_removes_one_task scenario_env (js "B") FILTER.ACTIVE
           scenario_state H).
Defined.

Lemma addTask_tasks e t st :
  t <> [] ->
  tasks (snd (addTask e t st)) =
  tasks st ++ [new_Task (randomUUID e) t false (Date_now e)].
Proof.
  intros Ht. rewrite (addTask_run e t st Ht).
  assert (keeps_store (saveTasks e;; renderTasks;;
            announce (js "Task added");; emit FocusInput)) as Hk by keeps.
  rewrite (proj1 (Hk _)). reflexivity.
Qed.

(** X6. Deleting a task right after it was added, by the id it was
    given, gives back the task list as it was, provided the id was
    fresh. *)
Theorem add_then_delete_restores e e' t st :
  t <> [] -> ~ In (randomUUID e) (List.map id (tasks st)) ->
  tasks (snd (deleteTask e' (randomUUID e) (snd (addTask e t st)))) = tasks st.
Proof.
  intros Ht Hfresh. rewrite deleteTask_tasks, (addTask_tasks e t st Ht).
  set (u := randomUUID e). set (x := new_Task u t false (Date_now e)).
  assert (In x (tasks st ++ [x])) as Hin by (apply in_or_app; right; left; reflexivity).
  assert (has_id u x = true) as Hx by (apply has_id_true; reflexivity).
  destruct (findIndex_present (has_id u) _ x Hin Hx) as (k & y & Ek & Hk & Hy & _).
  assert (k = length (tasks st)) as ->.
  { pose proof (lookup_lt_Some _ _ _ Hk) as Hlt.
    rewrite length_app in Hlt. simpl in Hlt.
    destruct (Nat.lt_ge_cases k (length (tasks st))) as [Hlt' | Hge]; [| lia].
    exfalso. rewrite lookup_app_l in Hk by exact Hlt'.
    apply Hfresh. apply has_id_true in Hy. fold u. rewrite <- Hy.
    apply in_map. apply list_elem_of_In. eapply list_elem_of_lookup_2. exact Hk. }
  rewrite Ek.
  replace (Z.of_nat (length (tasks st)) =? -1) with false
    by (symmetry; apply Z.eqb_neq; lia).
  rewrite (splice_remove_one _ _ _ Hk). simpl.
  rewrite take_app_length.
  rewrite drop_ge by (rewrite length_app; simpl; lia).
  apply app_nil_r.
Qed.

(** Adding to the scenario, then deleting the new task. *)
Lemma add_then_delete_restores_witness :
  js "buy milk" <> [] /\
  ~ In (randomUUID scenario_env) (List.map id (tasks scenario_state)) /\
  tasks (snd (deleteTask scenario_env (randomUUID scenario_env)
                (snd (addTask scenario_env (js "buy milk") scenario_state))))
  = tasks scenario_state.
Proof.
  assert (js "buy milk" <> []) as H1 by discriminate.
  assert (~ In (randomUUID scenario_env) (List.map id (tasks scenario_state)))
    as H2 by (simpl; intros [H | [H | [H | []]]]; discriminate H).
  split; [exact H1 |]. split; [exact H2 |].
  apply (add_then_delete_restores scenario_env scenario_env (js "buy milk")
           scenario_state H1 H2).
Defined.

Lemma NoDup_ids_filter (p : Task -> bool) ts :
  NoDup (List.map id ts) -> NoDup (List.map id (List.filter p ts)).
Proof.
  induction ts as [|t ts IH]; intros Hnd; [exact Hnd |].
  simpl in Hnd. apply NoDup_cons in Hnd as [Hnotin Hnd].
  simpl. destruct (p t); [| apply IH; exact Hnd].
  simpl. apply NoDup_cons. split; [| apply IH; exact Hnd].
  intros Hin. apply Hnotin. apply list_elem_of_In in Hin.
  apply in_map_iff in Hin as (x & Ex & Hx). apply filter_In in Hx as [Hx _].
  apply list_elem_of_In. rewrite <- Ex. apply in_map. exact Hx.
Qed.

Lemma reassign_order_ids now ts :
  List.map id (reassign_order now ts) = List.map id ts.
Proof.
  pose proof (reassign_order_core now ts) as H.
  apply (f_equal (List.map (fun c : jsstring * jsstring * bool => fst (fst c))))
    in H.
  rewrite !List.map_map in H. exact H.
Qed.

(** X7. Ids stay unique: if no two tasks share an id, then no two do
    after any operation, provided the id drawn for an added task is not
    in use. *)
Theorem ids_stay_unique e a st :
  NoDup (List.map id (tasks st)) ->
  (forall t, a = AddTask t -> ~ In (randomUUID e) (List.map id (tasks st))) ->
  NoDup (List.map id (tasks (snd (perform e a st)))).
Proof.
  intros Hnd Hfresh. destruct a as [t | i t | i | i | | d t]; simpl.
  - destruct t as [|c t]; [exact Hnd |].
    rewrite addTask_tasks by discriminate. rewrite List.map_app. simpl.
    apply NoDup_app. split; [exact Hnd |]. split; [| apply NoDup_singleton].
    intros x Hx Hx'. apply list_elem_of_singleton in Hx'. subst x.
    apply (Hfresh (c :: t) eq_refl). apply list_elem_of_In. exact Hx.
  - rewrite editTask_tasks, update_first_ids; [exact Hnd | reflexivity].
  - rewrite (deleteTask_unique e i st Hnd). apply NoDup_ids_filter. exact Hnd.
  - rewrite toggleComplete_tasks, update_first_ids; [exact Hnd | reflexivity].
  - rewrite clearCompleted_run. destruct (existsb completed (tasks st)).
    + rewrite tasks_after_persist. simpl. apply NoDup_ids_filter. exact Hnd.
    + exact Hnd.
  - destruct (onDrop_permutes e d t st) as (moved & Hperm & [E | E]); rewrite E.
    + exact Hnd.
    + rewrite reassign_order_ids.
      apply (Permutation_map id) in Hperm.
      rewrite Hperm. exact Hnd.
Qed.

(** Adding to the scenario under a fresh id. *)
Lemma ids_stay_unique_witness :
  NoDup (List.map id (tasks scenario_state)) /\
  NoDup (List.map id
           (tasks (snd (perform scenario_env (AddTask (js "buy milk"))
                          scenario_state)))).
Proof.
  assert (NoDup (List.map id (tasks scenario_state))) as H
    by (apply (bool_decide_unpack _); vm_compute; exact I).
  split; [exact H |].
  apply (ids_stay_unique scenario_env (AddTask (js "buy milk")) scenario_state H).
  intros t _. simpl. intros [E | [E | [E | []]]]; discriminate E.
Defined.

Section Related.
Variable R : Task -> Task -> Prop.
Hypothesis R_order : forall a b, R a b -> order a = order b.

Lemma sort_insert_related x x' l l' :
  R x x' -> Forall2 R l l' ->
  Forall2 R (sort_insert (fun a b => order a - order b) x l)
            (sort_insert (fun a b => order a - order b) x' l').
Proof.
  intros Hx Hl. induction Hl as [|y y' l l' Hy Hl IH]; simpl.
  - repeat constructor. exact Hx.
  - rewrite (R_order _ _ Hx), (R_order _ _ Hy).
    destruct (order x' - order y' <=? 0).
    + repeat constructor; assumption.
    + constructor; assumption.
Qed.

Lemma sortByOrder_related l l' :
  Forall2 R l l' -> Forall2 R (sortByOrder l) (sortByOrder l').
Proof.
  unfold sortByOrder. intros Hl. induction Hl as [|y y' l l' Hy Hl IH]; simpl.
  - constructor.
  - apply sort_insert_related; assumption.
Qed.

Lemma filter_related (p : Task -> bool) l l' :
  (forall a b, R a b -> p a = p b) ->
  Forall2 R l l' -> Forall2 R (List.filter p l) (List.filter p l').
Proof.
  intros Hp Hl. induction Hl as [|y y' l l' Hy Hl IH]; simpl.
  - constructor.
  - rewrite (Hp _ _ Hy). destruct (p y'); [constructor |]; assumption.
Qed.

Lemma related_ids l l' :
  (forall a b, R a b -> id a = id b) ->
  Forall2 R l l' -> List.map id l = List.map id l'.
Proof.
  intros Hid Hl. induction Hl as [|y y' l l' Hy Hl IH]; simpl.
  - reflexivity.
  - rewrite (Hid _ _ Hy), IH. reflexivity.
Qed.

Lemma update_first_related (p : Task -> bool) (f : Task -> Task) l :
  (forall t, R (f t) t) -> (forall t, R t t) ->
  Forall2 R (update_first p f l) l.
Proof.
  intros Hf Hrefl. induction l as [|t l IH]; simpl.
  - constructor.
  - destruct (p t).
    + constructor; [apply Hf |]. clear IH. induction l; constructor; auto.
    + constructor; [apply Hrefl | exact IH].
Qed.
End Related.

(** X8. Editing a task never moves it or any other task in the rendered
    list, whatever the filter; toggling a task never moves any task in
    the list shown under [All]. *)
Theorem edit_and_toggle_keep_positions e i new f st :
  List.map id (project (tasks (snd (editTask e i new st))) f)
    = List.map id (project (tasks st) f) /\
  List.map id (project (tasks (snd (toggleComplete e i st))) FILTER.ALL)
    = List.map id (project (tasks st) FILTER.ALL).
Proof.
  split.
  - rewrite editTask_tasks. unfold project.
    set (R := fun a b : Task =>
                id a = id b /\ completed a = completed b /\ order a = order b).
    apply (related_ids R); [intros a b Hab; apply Hab |].
    apply (filter_related R).
    { intros a b (_ & Hc & _). unfold passes. rewrite Hc. reflexivity. }
    apply (sortByOrder_related R); [intros a b Hab; apply Hab |].
    apply update_first_related; intros t; repeat split.
  - rewrite toggleComplete_tasks. unfold project.
    rewrite !filter_all_passes.
    set (R := fun a b : Task => id a = id b /\ order a = order b).
    apply (related_ids R); [intros a b Hab; apply Hab |].
    apply (sortByOrder_related R); [intros a b Hab; apply Hab |].
    apply update_first_related; intros t; repeat split.
Qed.

(** ** Where a drop puts the dragged task *)

Lemma persist_changes_state e m st0 st :
  trace st0 = trace st ->
  (saveTasks e;; renderTasks;; announce m) st0 <> (Ret tt, st).
Proof.
  intros Htr. unfold saveTasks, localStorage_setItem, renderTasks, announce,
    emit, get_tasks, get_filter, mbind, M_bind.
  destruct (quota_exceeded e); simpl; [discriminate |].
  intros H. injection H as H. apply (f_equal trace) in H. simpl in H.
  rewrite Htr, <- !app_assoc in H.
  apply (f_equal (@length Effect)) in H. rewrite length_app in H.
  simpl in H. lia.
Qed.

(** X9. A drop is ignored, the whole state staying as it was, exactly
    when there is no payload, or the task is dropped onto itself, or no
    task has the dragged id, or no task has the target id. *)
Theorem drop_ignored_iff e d t st :
  onDrop e d t st = (Ret tt, st) <->
  d = [] \/ d = t \/ ~ In d (List.map id (tasks st))
  \/ ~ In t (List.map id (tasks st)).
Proof.
  destruct (decide (d = [])) as [-> | Hd]; [split; [auto | reflexivity] |].
  destruct (decide (d = t)) as [-> | Hne].
  { split; [auto |]. intros _. unfold onDrop.
    rewrite (proj2 (streq_true t t) eq_refl), orb_true_r. reflexivity. }
  assert (forall b, onDrop e d t st =
            (if (findIndex (fun t0 => streq (id t0) d) (tasks st) =? -1)
                || (findIndex (fun t0 => streq (id t0) t) (tasks st) =? -1)
             then (Ret tt, st) else b) ->
            (findIndex (fun t0 => streq (id t0) d) (tasks st) =? -1)
            || (findIndex (fun t0 => streq (id t0) t) (tasks st) =? -1) = true ->
            onDrop e d t st = (Ret tt, st)) as Hif
    by (intros b -> ->; reflexivity).
  destruct (decide (d ∈ List.map id (tasks st))) as [Hind | Hnd];
    rewrite list_elem_of_In in *.
  - destruct (decide (t ∈ List.map id (tasks st))) as [Hint | Hnt];
      rewrite list_elem_of_In in *.
    + split; [| intros [? | [? | [? | ?]]]; contradiction].
      intros H. exfalso.
      destruct (onDrop_run d t (tasks st) Hd Hne Hind Hint)
        as (di & ti & x & y & _ & _ & _ & _ & _ & Hrun).
      cbv zeta in Hrun. rewrite (Hrun e st eq_refl) in H.
      revert H. apply persist_changes_state. reflexivity.
    + split; [auto |]. intros _. unfold onDrop.
      rewrite (truthy_string_nonempty _ Hd), (proj2 (streq_false d t) Hne).
      cbn [negb orb]. unfold mbind at 1, M_bind at 1, get_tasks at 1.
      cbv beta iota.
      rewrite (findIndex_absent (fun t0 => streq (id t0) t)).
      * rewrite orb_true_r. reflexivity.
      * apply id_absent. exact Hnt.
  - split; [auto |]. intros _. unfold onDrop.
    rewrite (truthy_string_nonempty _ Hd), (proj2 (streq_false d t) Hne).
    cbn [negb orb]. unfold mbind at 1, M_bind at 1, get_tasks at 1.
    cbv beta iota.
    rewrite (findIndex_absent (fun t0 => streq (id t0) d)).
    + reflexivity.
    + apply id_absent. exact Hnd.
Qed.

Lemma lookup_unique_id (ts : list Task) (i j : nat) x y :
  NoDup (List.map id ts) -> ts !! i = Some x -> ts !! j = Some y ->
  id x = id y -> i = j.
Proof.
  intros Hnd Hi Hj E.
  apply (NoDup_lookup (List.map id ts) i j (id x) Hnd).
  - change (List.map id ts) with (id <$> ts).
    rewrite list_lookup_fmap, Hi. reflexivity.
  - change (List.map id ts) with (id <$> ts).
    rewrite list_lookup_fmap, Hj. simpl. congruence.
Qed.

(** With unique ids: the task list after dragging the task at index [i]
    onto the task at index [j]. *)
Lemma onDrop_at (ts : list Task) (i j : nat) x y :
  NoDup (List.map id ts) ->
  ts !! i = Some x -> ts !! j = Some y -> i <> j -> id x <> [] ->
  forall e st, tasks st = ts ->
    tasks (snd (onDrop e (id x) (id y) st)) =
    reassign_order (Date_now e)
      (take (if (i <? j)%nat then (j - 1)%nat else j)
            (take i ts ++ drop (S i) ts)
       ++ x :: drop (if (i <? j)%nat then (j - 1)%nat else j)
                    (take i ts ++ drop (S i) ts)).
Proof.
  intros Hnd Hi Hj Hij Hx e st Hts.
  assert (In x ts) as Hinx
    by (apply list_elem_of_In; eapply list_elem_of_lookup_2; exact Hi).
  assert (In y ts) as Hiny
    by (apply list_elem_of_In; eapply list_elem_of_lookup_2; exact Hj).
  assert (id x <> id y) as Hne.
  { intros E. apply Hij. exact (lookup_unique_id ts i j x y Hnd Hi Hj E). }
  destruct (onDrop_run (id x) (id y) ts Hx Hne (in_map id _ _ Hinx)
              (in_map id _ _ Hiny))
    as (di & ti & x' & y' & Hdi & Ex & Hti & Ey & _ & Hrun).
  assert (di = i) as -> by exact (lookup_unique_id ts di i x' x Hnd Hdi Hi Ex).
  assert (ti = j) as -> by exact (lookup_unique_id ts ti j y' y Hnd Hti Hj Ey).
  assert (x' = x) as -> by congruence.
  cbv zeta in Hrun. rewrite (Hrun e st Hts), tasks_after_persist. reflexivity.
Qed.

(** X10. With unique ids, dragging the task at index [i] onto the task
    at index [j] puts it at index [j - 1] when [i < j] and at index [j]
    otherwise, the other tasks keeping their sequence; that index is
    never the last one, so no drop moves a task to the end of the
    list. *)
Theorem drop_position e (i j : nat) x y st :
  NoDup (List.map id (tasks st)) ->
  tasks st !! i = Some x -> tasks st !! j = Some y -> i <> j -> id x <> [] ->
  let k := if (i <? j)%nat then (j - 1)%nat else j in
  let ts' := tasks (snd (onDrop e (id x) (id y) st)) in
  List.map core ts' !! k = Some (core x) /\
  List.map core (take k ts' ++ drop (S k) ts')
    = List.map core (take i (tasks st) ++ drop (S i) (tasks st)) /\
  (k < length ts' - 1)%nat.
Proof.
  intros Hnd Hi Hj Hij Hx k ts'.
  pose proof (lookup_lt_Some _ _ _ Hi) as Hli.
  pose proof (lookup_lt_Some _ _ _ Hj) as Hlj.
  set (ts1 := take i (tasks st) ++ drop (S i) (tasks st)).
  assert (length ts1 = (length (tasks st) - 1)%nat) as Hlen1.
  { unfold ts1. rewrite length_app, length_take, length_drop. lia. }
  assert (k <= length ts1)%nat as Hk.
  { unfold k. destruct (Nat.ltb_spec i j); lia. }
  assert (List.map core ts' = List.map core (take k ts1 ++ x :: drop k ts1))
    as E.
  { unfold ts'. rewrite (onDrop_at _ i j x y Hnd Hi Hj Hij Hx e st eq_refl).
    apply reassign_order_core. }
  assert (length (take k ts1) = k) as Htk by (rewrite length_take; lia).
  assert (length ts' = length (tasks st)) as Hlen'.
  { apply (f_equal (@length _)) in E.
    rewrite !length_map, length_app in E. simpl in E.
    rewrite Htk, length_drop in E. lia. }
  split; [| split].
  - rewrite E. change (List.map core ?l) with (core <$> l).
    rewrite list_lookup_fmap, lookup_app_r by lia.
    rewrite Htk, Nat.sub_diag. reflexivity.
  - change (List.map core ?l) with (core <$> l) in *.
    rewrite fmap_app, fmap_take, fmap_drop, E.
    rewrite <- fmap_take, <- fmap_drop, <- fmap_app. f_equal.
    rewrite take_app_length' by (symmetry; exact Htk).
    replace (take k ts1 ++ x :: drop k ts1)
      with ((take k ts1 ++ [x]) ++ drop k ts1)
      by (rewrite <- app_assoc; reflexivity).
    rewrite drop_app_length' by (rewrite length_app; simpl; lia).
    apply take_drop.
  - rewrite Hlen'. unfold k. destruct (Nat.ltb_spec i j); lia.
Qed.

(** The scenario, [C] (index 2) dragged onto [A] (index 0). *)
Lemma drop_position_witness :
  let st := scenario_state in
  let x := new_Task (js "C") (js "c") false 3 in
  let y := new_Task (js "A") (js "a") false 1 in
  NoDup (List.map id (tasks st)) /\
  tasks st !! 2%nat = Some x /\ tasks st !! 0%nat = Some y /\
  let ts' := tasks (snd (onDrop scenario_env (id x) (id y) st)) in
  List.map core ts' !! 0%nat = Some (core x) /\
  List.map core (take 0 ts' ++ drop 1 ts')
    = List.map core (take 2 (tasks st) ++ drop 3 (tasks st)) /\
  (0 < length ts' - 1)%nat.
Proof.
  intros st x y.
  assert (NoDup (List.map id (tasks st))) as H
    by (apply (bool_decide_unpack _); vm_compute; exact I).
  split; [exact H |]. split; [reflexivity |]. split; [reflexivity |].
  apply (drop_position scenario_env 2 0 x y st H eq_refl eq_refl).
  - discriminate.
  - discriminate.
Defined.

(** X11. With unique ids, dropping a task onto the task right after it
    moves nothing: the stored sequence of ids, texts and flags is as
    before (only the order keys are renewed). *)
Theorem drop_onto_next_moves_nothing e (i : nat) x y st :
  NoDup (List.map id (tasks st)) ->
  tasks st !! i = Some x -> tasks st !! S i = Some y -> id x <> [] ->
  List.map core (tasks (snd (onDrop e (id x) (id y) st)))
  = List.map core (tasks st).
Proof.
  intros Hnd Hi Hj Hx.
  rewrite (onDrop_at _ i (S i) x y Hnd Hi Hj ltac:(lia) Hx e st eq_refl).
  rewrite reassign_order_core.
  replace (if (i <? S i)%nat then (S i - 1)%nat else S i) with i
    by (destruct (Nat.ltb_spec i (S i)); lia).
  pose proof (lookup_lt_Some _ _ _ Hi) as Hli.
  assert (length (take i (tasks st)) = i) as Hti by (rewrite length_take; lia).
  rewrite take_app_length' by (symmetry; exact Hti).
  rewrite drop_app_length' by (symmetry; exact Hti).
  rewrite take_drop_middle by exact Hi. reflexivity.
Qed.

(** The scenario, [A] dropped onto [B]. *)
Lemma drop_onto_next_moves_nothing_witness :
  let x := new_Task (js "A") (js "a") false 1 in
  let y := new_Task (js "B") (js "b") true 2 in
  NoDup (List.map id (tasks scenario_state)) /\
  List.map core (tasks (snd (onDrop scenario_env (id x) (id y) scenario_state)))
  = List.map core (tasks scenario_state).
Proof.
  intros x y.
  assert (NoDup (List.map id (tasks scenario_state))) as H
    by (apply (bool_decide_unpack _); vm_compute; exact I).
  split; [exact H |].
  apply (drop_onto_next_moves_nothing scenario_env 0 x y scenario_state H
           eq_refl eq_refl).
  discriminate.
Defined.

(** ** What an operation does to the state *)

Lemma display_only_bind (c : M unit) (k : unit -> M unit) :
  display_only c -> (forall a, display_only (k a)) -> display_only (c ≫= k).
Proof.
  intros Hc Hk st. unfold mbind, M_bind.
  destruct (Hc st) as (evs1 & -> & H1).
  destruct (Hk tt (appends evs1 st)) as (evs2 & -> & H2).
  exists (evs1 ++ evs2). split.
  - unfold appends. simpl. rewrite app_assoc. reflexivity.
  - apply Forall_app. split; assumption.
Qed.

Lemma display_only_emit ev : is_display ev -> display_only (emit ev).
Proof.
  intros Hev st. exists [ev]. split; [reflexivity |].
  constructor; [exact Hev | constructor].
Qed.

Lemma display_only_announce m : display_only (announce m).
Proof. apply display_only_emit. exact I. Qed.

Lemma display_only_renderTasks : display_only renderTasks.
Proof.
  intros st. eexists [_]. split; [reflexivity |].
  constructor; [exact I | constructor].
Qed.

Lemma display_only_FocusInput : display_only (emit FocusInput).
Proof. apply display_only_emit. exact I. Qed.

#[export] Hint Resolve display_only_announce display_only_renderTasks
  display_only_FocusInput : store.

Ltac display :=
  repeat first
    [ solve [ auto with store ] | apply display_only_bind; [| intros ? ] ].

(** Every operation is either ignored, or it replaces the task list,
    calls [saveTasks] and then only renders, announces and focuses. *)
Lemma perform_shape a (ts : list Task) :
  (forall e st, tasks st = ts -> perform e a st = (Ret tt, st)) \/
  (exists (next : Z -> jsstring -> list Task) (rest : M unit),
     display_only rest /\
     forall e st, tasks st = ts ->
       perform e a st =
       (saveTasks e;; rest) (with_tasks (next (Date_now e) (randomUUID e)) st)).
Proof.
  destruct a as [t | i t | i | i | | d t]; simpl.
  - destruct t as [|c t]; [left; reflexivity |].
    right.
    exists (fun now uuid =>
              ts ++ [Task_constructor now uuid (c :: t) None None]),
           (renderTasks;; announce (js "Task added");; emit FocusInput).
    split; [display |]. intros e st <-. reflexivity.
  - destruct (List.find (fun t0 => streq (id t0) i) ts) eqn:E.
    + right.
      exists (fun _ _ =>
                update_first (fun t0 => streq (id t0) i) (set_text t) ts),
             (renderTasks;; announce (js "Task edited")).
      split; [display |]. intros e st <-. unfold editTask.
      unfold mbind at 1, M_bind at 1, get_tasks. cbv beta iota.
      rewrite E. reflexivity.
    + left. intros e st <-. unfold editTask.
      unfold mbind at 1, M_bind at 1, get_tasks. cbv beta iota.
      rewrite E. reflexivity.
  - destruct (findIndex (fun t0 => streq (id t0) i) ts =? -1) eqn:E.
    + left. intros e st <-. unfold deleteTask.
      unfold mbind at 1, M_bind at 1, get_tasks. cbv beta iota.
      rewrite E. reflexivity.
    + right.
      exists (fun _ _ =>
                snd (splice ts (findIndex (fun t0 => streq (id t0) i) ts) 1 [])),
             (renderTasks;; announce (js "Task deleted")).
      split; [display |]. intros e st <-. unfold deleteTask.
      unfold mbind at 1, M_bind at 1, get_tasks. cbv beta iota.
      rewrite E. reflexivity.
  - destruct (List.find (fun t0 => streq (id t0) i) ts) as [task|] eqn:E.
    + right.
      exists (fun _ _ =>
                update_first (fun t0 => streq (id t0) i)
                  (fun t0 => set_completed (negb (completed t0)) t0) ts),
             (renderTasks;;
              announce (if negb (completed task) then js "Task completed"
                        else js "Task marked as active")).
      split; [display |]. intros e st <-. unfold toggleComplete.
      unfold mbind at 1, M_bind at 1, get_tasks. cbv beta iota.
      rewrite E. reflexivity.
    + left. intros e st <-. unfold toggleComplete.
      unfold mbind at 1, M_bind at 1, get_tasks. cbv beta iota.
      rewrite E. reflexivity.
  - destruct (existsb completed ts) eqn:E.
    + right.
      exists (fun _ _ => List.filter (fun t => negb (completed t)) ts),
             (renderTasks;; announce (js "Completed tasks cleared")).
      split; [display |]. intros e st <-.
      rewrite clearCompleted_run, E. reflexivity.
    + left. intros e st <-. rewrite clearCompleted_run, E. reflexivity.
  - destruct (onDrop_cases d t ts) as [H | (moved & _ & H)].
    + left. exact H.
    + right.
      exists (fun now _ => reassign_order now moved),
             (renderTasks;; announce (js "Task reordered")).
      split; [display |]. exact H.
Qed.

Lemma save_then_display e rest ts st :
  display_only rest ->
  exists evs, Forall is_display evs /\
    (saveTasks e;; rest) (with_tasks ts st) =
    if quota_exceeded e then (Throw QuotaExceededError, unwritten ts st)
    else (Ret tt, written ts evs st).
Proof.
  intros Hd. unfold saveTasks, localStorage_setItem, get_tasks, mbind, M_bind.
  destruct (quota_exceeded e).
  - exists []. split; [constructor | reflexivity].
  - cbv beta iota.
    match goal with |- context [rest ?s] => destruct (Hd s) as (evs & E & Hevs) end.
    exists evs. split; [exact Hevs |]. rewrite E.
    unfold appends, written, log_effect, with_tasks. simpl.
    rewrite <- app_assoc. reflexivity.
Qed.

Lemma perform_outcome e a st :
  perform e a st = (Ret tt, st) \/
  exists evs, Forall is_display evs /\
    perform e a st =
    if quota_exceeded e
    then (Throw QuotaExceededError, unwritten (tasks (snd (perform e a st))) st)
    else (Ret tt, written (tasks (snd (perform e a st))) evs st).
Proof.
  destruct (perform_shape a (tasks st)) as [E | (next & rest & Hd & E)].
  - left. apply E. reflexivity.
  - right. rewrite (E e st eq_refl).
    destruct (save_then_display e rest (next (Date_now e) (randomUUID e)) st Hd)
      as (evs & Hevs & Erun).
    exists evs. split; [exact Hevs |]. rewrite Erun.
    destruct (quota_exceeded e); reflexivity.
Qed.

(** X12. Every operation on the task list either leaves the whole state
    as it was, or does this and no more: it replaces the task list and
    attempts one write, of the whole new list under the tasks key. If
    storage accepts the write, display effects follow and the operation
    returns; if not, it ends in the [QuotaExceededError] with storage as
    it was. The filter, the other storage keys and the console are never
    touched. *)
Theorem operation_effects e a st :
  let ts' := tasks (snd (perform e a st)) in
  perform e a st = (Ret tt, st) \/
  exists evs, Forall is_display evs /\
    perform e a st =
    if quota_exceeded e then (Throw QuotaExceededError, unwritten ts' st)
    else (Ret tt, written ts' evs st).
Proof. exact (perform_outcome e a st). Qed.

Lemma keys_differ : STORAGE_KEY <> FILTER_KEY.
Proof. intros H. vm_compute in H. discriminate H. Qed.

Lemma loadTasks_same_snapshot (clock : nat -> Z)
    (s s' : gmap jsstring jsstring) :
  s !! STORAGE_KEY = s' !! STORAGE_KEY -> loadTasks clock s = loadTasks clock s'.
Proof. intros H. unfold loadTasks. rewrite H. reflexivity. Qed.

Lemma savedFilter_same (s s' : gmap jsstring jsstring) :
  s !! FILTER_KEY = s' !! FILTER_KEY -> savedFilter s = savedFilter s'.
Proof. intros H. unfold savedFilter, getItem_or. rewrite H. reflexivity. Qed.

Lemma restorable_written ts evs st :
  savedFilter (localStorage st) = currentFilter st ->
  restorable (written ts evs st).
Proof.
  intros Hf. split.
  - intros clock. apply loadTasks_stringify.
  - simpl. rewrite <- Hf. apply savedFilter_same.
    apply lookup_insert_ne. exact keys_differ.
Qed.

Lemma restorable_appends evs st : restorable st -> restorable (appends evs st).
Proof. intros H. exact H. Qed.

(** X13. A write that storage accepts brings storage level with memory,
    whatever happened before: after any operation that was not ignored
    and whose write succeeded, [loadTasks] reads back exactly the task
    list in memory, even if earlier writes had failed. *)
Theorem successful_write_resyncs e a clock st :
  quota_exceeded e = false ->
  perform e a st <> (Ret tt, st) ->
  let st' := snd (perform e a st) in
  loadTasks clock (localStorage st')
    = Ret (List.map obj_of_Task (tasks st'), []).
Proof.
  intros Hq Hrun st'.
  destruct (perform_outcome e a st) as [E | (evs & _ & E)]; [contradiction |].
  rewrite Hq in E. unfold st'. rewrite E. simpl. apply loadTasks_stringify.
Qed.

(** A failed deletion on the scenario, then a successful toggle. *)
Lemma successful_write_resyncs_witness :
  let failing := new_Env 1700000000000 (js "u-1") true in
  let behind := snd (deleteTask failing (js "A") scenario_state) in
  let st' := snd (perform scenario_env (ToggleComplete (js "C")) behind) in
  quota_exceeded scenario_env = false /\
  localStorage behind !! STORAGE_KEY = None /\
  loadTasks (ticking 0) (localStorage st')
    = Ret (List.map obj_of_Task (tasks st'), []).
Proof.
  intros failing behind st'.
  split; [reflexivity |]. split; [reflexivity |].
  apply (successful_write_resyncs scenario_env (ToggleComplete (js "C"))
           (ticking 0) behind).
  - reflexivity.
  - intros H. apply (f_equal (fun r => length (trace (snd r)))) in H.
    vm_compute in H. discriminate H.
Defined.

(** ** Filter changes and whole sessions *)

Lemma put_filter_then e f st :
  f <> [] ->
  onFilterClick e (Some f) st =
  if quota_exceeded e then
    (Throw QuotaExceededError,
     {| tasks := tasks st; currentFilter := f; localStorage := localStorage st;
        trace := trace st ++ [SetItem FILTER_KEY f] |})
  else
    (Ret tt,
     {| tasks := tasks st; currentFilter := f;
        localStorage := <[FILTER_KEY := f]> (localStorage st);
        trace := trace st ++
                 [SetItem FILTER_KEY f;
                  Render (List.map render_item (project (tasks st) f))] |}).
Proof.
  intros Hf. unfold onFilterClick. rewrite (truthy_string_nonempty _ Hf).
  cbn [negb]. unfold put_filter, localStorage_setItem, renderTasks, emit,
    get_tasks, get_filter, log_effect, mbind, M_bind.
  destruct (quota_exceeded e); simpl; [reflexivity |].
  rewrite <- app_assoc. reflexivity.
Qed.

(** X14. A click on a filter button without a filter value, or with an
    empty one, is ignored. Any other click makes the value the current
    filter and attempts to store it under the filter key; it never
    changes the task list or what is stored under the tasks key. If the
    write is accepted the list is rendered under the new filter; if it
    is refused the new filter stays in memory but nothing is rendered. *)
Theorem filter_click_effects e f st :
  onFilterClick e None st = (Ret tt, st) /\
  onFilterClick e (Some []) st = (Ret tt, st) /\
  (f <> [] ->
   let r := onFilterClick e (Some f) st in
   tasks (snd r) = tasks st /\
   currentFilter (snd r) = f /\
   localStorage (snd r) !! STORAGE_KEY = localStorage st !! STORAGE_KEY /\
   if quota_exceeded e then
     fst r = Throw QuotaExceededError /\
     localStorage (snd r) = localStorage st /\
     trace (snd r) = trace st ++ [SetItem FILTER_KEY f]
   else
     fst r = Ret tt /\
     savedFilter (localStorage (snd r)) = f /\
     trace (snd r) = trace st ++
       [SetItem FILTER_KEY f;
        Render (List.map render_item (project (tasks st) f))]).
Proof.
  split; [reflexivity |]. split; [reflexivity |].
  intros Hf r. unfold r. rewrite (put_filter_then e f st Hf).
  destruct (quota_exceeded e); simpl.
  - repeat split; reflexivity.
  - split; [reflexivity |]. split; [reflexivity |]. split.
    + apply lookup_insert_ne. intros H. apply keys_differ. symmetry. exact H.
    + split; [reflexivity |]. split; [| reflexivity].
      unfold savedFilter, getItem_or. rewrite lookup_insert_eq.
      rewrite (truthy_string_nonempty _ Hf). reflexivity.
Qed.

(** Choosing [Active] on the scenario. *)
Lemma filter_click_effects_witness :
  FILTER.ACTIVE <> [] /\
  currentFilter (snd (onFilterClick scenario_env (Some FILTER.ACTIVE)
                        scenario_state)) = FILTER.ACTIVE /\
  savedFilter (localStorage (snd (onFilterClick scenario_env (Some FILTER.ACTIVE)
                                    scenario_state))) = FILTER.ACTIVE.
Proof.
  assert (FILTER.ACTIVE <> []) as H by discriminate.
  split; [exact H |].
  destruct (filter_click_effects scenario_env FILTER.ACTIVE scenario_state)
    as (_ & _ & Hc).
  destruct (Hc H) as (_ & Hcur & _ & _ & Hsaved & _).
  split; [exact Hcur | exact Hsaved].
Defined.

Section Sessions.
Variable toUpperCase : jsstring -> jsstring.

Lemma setFilter_run e f st :
  f <> [] -> quota_exceeded e = false ->
  exists evs,
    setFilter toUpperCase e f st =
    (Ret tt,
     {| tasks := tasks st; currentFilter := f;
        localStorage := <[FILTER_KEY := f]> (localStorage st);
        trace := trace st ++ evs |}).
Proof.
  intros Hf Hq. unfold setFilter, put_filter, localStorage_setItem, renderTasks,
    announce, emit, get_tasks, get_filter, log_effect, mbind, M_bind.
  rewrite Hq. simpl. eexists. rewrite <- !app_assoc. reflexivity.
Qed.

Lemma restorable_filter_stored f evs st :
  f <> [] -> restorable st ->
  restorable {| tasks := tasks st; currentFilter := f;
                localStorage := <[FILTER_KEY := f]> (localStorage st);
                trace := trace st ++ evs |}.
Proof.
  intros Hf [Hload _]. split; simpl.
  - intros clock. rewrite <- (Hload clock). apply loadTasks_same_snapshot.
    apply lookup_insert_ne. intros H. apply keys_differ. symmetry. exact H.
  - unfold savedFilter, getItem_or. rewrite lookup_insert_eq.
    rewrite (truthy_string_nonempty _ Hf). reflexivity.
Qed.

Lemma perform_restorable e a st :
  quota_exceeded e = false -> restorable st ->
  exists st', perform e a st = (Ret tt, st') /\ restorable st'.
Proof.
  intros Hq Hr.
  destruct (perform_outcome e a st) as [E | (evs & _ & E)].
  - exists st. split; assumption.
  - rewrite Hq in E. eexists. split; [exact E |].
    apply restorable_written. apply Hr.
Qed.

(** With storage accepting the writes, a listener returns normally and
    leaves a state that a reload would restore. *)
Lemma listener_restorable e ev st :
  quota_exceeded e = false -> restorable st ->
  exists st', listener toUpperCase e ev st = (Ret tt, st') /\ restorable st'.
Proof.
  intros Hq Hr. destruct ev as [v | i a | i c | i | | d t | f | k]; simpl.
  - unfold onSubmit. destruct (truthy_string (trim v)).
    + destruct (perform_restorable e (AddTask (trim v)) st Hq Hr)
        as (st' & E & Hr').
      simpl in E. unfold mbind, M_bind. rewrite E.
      eexists. split; [reflexivity |]. exact Hr'.
    + exists st. split; [reflexivity | exact Hr].
  - destruct a as [new|]; simpl.
    + apply (perform_restorable e (EditTask i (trim new)) st Hq Hr).
    + exists st. split; [reflexivity | exact Hr].
  - destruct c; simpl.
    + apply (perform_restorable e (DeleteTask i) st Hq Hr).
    + exists st. split; [reflexivity | exact Hr].
  - apply (perform_restorable e (ToggleComplete i) st Hq Hr).
  - apply (perform_restorable e ClearCompleted st Hq Hr).
  - apply (perform_restorable e (Drop d t) st Hq Hr).
  - destruct f as [[|c f]|].
    + exists st. split; [reflexivity | exact Hr].
    + rewrite put_filter_then by discriminate. rewrite Hq.
      eexists. split; [reflexivity |].
      apply (restorable_filter_stored (c :: f)); [discriminate | exact Hr].
    + exists st. split; [reflexivity | exact Hr].
  - unfold onAltKey.
    destruct (streq k (js "1")).
    { destruct (setFilter_run e FILTER.ALL st ltac:(discriminate) Hq) as (evs & ->).
      eexists. split; [reflexivity |].
      apply restorable_filter_stored; [discriminate | exact Hr]. }
    destruct (streq k (js "2")).
    { destruct (setFilter_run e FILTER.ACTIVE st ltac:(discriminate) Hq)
        as (evs & ->).
      eexists. split; [reflexivity |].
      apply restorable_filter_stored; [discriminate | exact Hr]. }
    destruct (streq k (js "3")).
    { destruct (setFilter_run e FILTER.COMPLETED st ltac:(discriminate) Hq)
        as (evs & ->).
      eexists. split; [reflexivity |].
      apply restorable_filter_stored; [discriminate | exact Hr]. }
    exists st. split; [reflexivity | exact Hr].
Qed.

(** X15. Whatever the user does (submit, edit, delete, toggle, clear,
    drop, filter clicks and filter shortcuts, in any number and
    sequence), as long as storage accepts the writes a reload restores
    the page: [loadTasks] reads back exactly the task list in memory and
    the filter read at start-up is the current filter. This holds from
    the empty page and from any state a reload would restore. *)
Theorem session_stays_restorable evs st :
  Forall (fun p : Env * Event => quota_exceeded (fst p) = false) evs ->
  restorable st ->
  restorable (session toUpperCase evs st) /\
  restorable (session toUpperCase evs empty_state).
Proof.
  assert (forall s, Forall (fun p : Env * Event => quota_exceeded (fst p) = false)
                      evs ->
                    restorable s -> restorable (session toUpperCase evs s)) as H.
  { induction evs as [|[e ev] evs IH]; intros s Hq Hr; [exact Hr |].
    apply Forall_cons in Hq as [Hq Hqs]. simpl in Hq. cbn [session].
    apply IH; [exact Hqs |].
    destruct (listener_restorable e ev s Hq Hr) as (s' & E & Hr').
    unfold dispatch. rewrite E. exact Hr'. }
  intros Hq Hr. split; [apply H; assumption |].
  apply H; [exact Hq |]. split; [intros now |]; reflexivity.
Qed.
End Sessions.

(** A session on the empty page: a task is added, the filter is set to
    [Active], the task is completed. *)
Lemma session_stays_restorable_witness :
  let evs := [(scenario_env, Submit (js " buy milk "));
              (scenario_env, FilterClick (Some FILTER.ACTIVE));
              (scenario_env, ToggleClick (js "u-1"))] in
  Forall (fun p : Env * Event => quota_exceeded (fst p) = false) evs /\
  restorable empty_state /\
  restorable (session (fun s => s) evs empty_state).
Proof.
  intros evs.
  assert (Forall (fun p : Env * Event => quota_exceeded (fst p) = false) evs)
    as Hq by (repeat constructor).
  assert (restorable empty_state) as Hr by (split; [intros now |]; reflexivity).
  split; [exact Hq |]. split; [exact Hr |].
  apply (session_stays_restorable (fun s => s) evs empty_state Hq Hr).
Defined.

(** ** Markup, blank edits, repeated deletes *)

Lemma escape_html_In c s :
  In c (escape_html s) -> c <> ch "<" /\ c <> ch ">".
Proof.
  unfold escape_html. intros H. apply in_flat_map in H as (x & _ & H).
  destruct (N.eqb_spec x (ch "<")) as [_ | Hlt].
  { vm_compute in H. intuition (subst; discriminate). }
  destruct (N.eqb_spec x (ch ">")) as [_ | Hgt].
  { vm_compute in H. intuition (subst; discriminate). }
  destruct H as [<- | []]. split; assumption.
Qed.

Lemma escape_html_fixed s :
  escape_html s = s <-> ~ In (ch "<") s /\ ~ In (ch ">") s.
Proof.
  split.
  - intros E. rewrite <- E.
    split; intros H; apply escape_html_In in H; destruct H as [H1 H2];
      [apply H1 | apply H2]; reflexivity.
  - intros [Hlt Hgt]. induction s as [|c s IH]; [reflexivity |].
    unfold escape_html in *. cbn [flat_map].
    destruct (N.eqb_spec c (ch "<")) as [-> | Hc1];
      [exfalso; apply Hlt; left; reflexivity |].
    destruct (N.eqb_spec c (ch ">")) as [-> | Hc2];
      [exfalso; apply Hgt; left; reflexivity |].
    simpl. f_equal. apply IH.
    + intros H. apply Hlt. right. exact H.
    + intros H. apply Hgt. right. exact H.
Qed.

Lemma escape_html_app s t :
  escape_html (s ++ t) = escape_html s ++ escape_html t.
Proof. unfold escape_html. apply flat_map_app. Qed.

(** X16. The [escapedText] that [renderTasks] writes into the markup of
    an item (the string handed to [innerHTML], before the browser reads
    it) holds no [<] and no [>] code unit, whatever the task text is,
    and it is the task text itself exactly when the text holds neither.
    [&] is left as it is, so the replacement is not one-to-one: a task
    whose text holds [<] (or [>]) and the task with [&lt;] (or [&gt;])
    written in its place give the same item. *)
Theorem escapedText_has_no_angle_bracket (ts : list Task) (f : jsstring) :
  (forall item, In item (List.map render_item (project ts f)) ->
     ~ In (ch "<") (escapedText item) /\ ~ In (ch ">") (escapedText item)) /\
  (forall task,
     escapedText (render_item task) = text task <->
     ~ In (ch "<") (text task) /\ ~ In (ch ">") (text task)) /\
  (forall i s t c o o',
     render_item (new_Task i (s ++ js "<" ++ t) c o)
       = render_item (new_Task i (s ++ js "&lt;" ++ t) c o') /\
     render_item (new_Task i (s ++ js ">" ++ t) c o)
       = render_item (new_Task i (s ++ js "&gt;" ++ t) c o')).
Proof.
  split; [| split].
  - intros item Hin. apply in_map_iff in Hin as (t & <- & _). simpl.
    split; intros H; apply escape_html_In in H; destruct H as [H1 H2];
      [apply H1 | apply H2]; reflexivity.
  - intros task. apply escape_html_fixed.
  - intros i s t c o o'. unfold render_item. cbn [id text completed].
    rewrite !escape_html_app. split; reflexivity.
Qed.

Lemma trimStart_all_white s : all_white s -> trimStart s = [].
Proof.
  intros H. induction H as [|c s Hc _ IH]; [reflexivity |].
  simpl. rewrite Hc. exact IH.
Qed.

Lemma trim_all_white s : all_white s -> trim s = [].
Proof.
  intros H. unfold trim. rewrite (trimStart_all_white s H). reflexivity.
Qed.

Lemma update_first_hit (p : Task -> bool) (f : Task -> Task) ts x :
  In x ts -> p x = true ->
  exists y, In y ts /\ p y = true /\ In (f y) (update_first p f ts).
Proof.
  induction ts as [|t ts IH]; intros Hin Hx; [destruct Hin |].
  simpl. destruct (p t) eqn:E.
  - exists t. split; [left; reflexivity |]. split; [exact E | left; reflexivity].
  - destruct Hin as [-> | Hin]; [congruence |].
    destruct (IH Hin Hx) as (y & Hy & Hpy & Hfy).
    exists y. split; [right; exact Hy |]. split; [exact Hpy | right; exact Hfy].
Qed.

Lemma update_first_length {A : Type} (p : A -> bool) (f : A -> A) (l : list A) :
  length (update_first p f l) = length l.
Proof.
  induction l as [|a l IH]; [reflexivity |].
  simpl. destruct (p a); simpl; [reflexivity | rewrite IH; reflexivity].
Qed.

(** X17. The edit path has no guard against an empty text: answering
    the edit prompt with white space only leaves the task in the list
    with the empty string as its text (where the add path ignores such
    an input). Cancelling the prompt changes nothing. *)
Theorem blank_edit_empties_text e i answer st :
  all_white answer -> In i (List.map id (tasks st)) ->
  let ts' := tasks (snd (onEdit e i (Some answer) st)) in
  (exists t', In t' ts' /\ id t' = i /\ text t' = []) /\
  length ts' = length (tasks st) /\
  onEdit e i (Some answer) st <> (Ret tt, st) /\
  onEdit e i None st = (Ret tt, st).
Proof.
  intros Hw Hin ts'.
  destruct (id_present _ _ Hin) as (x & Hx & Hpx).
  assert (ts' = update_first (has_id i) (set_text []) (tasks st)) as E.
  { unfold ts', onEdit. rewrite (trim_all_white _ Hw). apply editTask_tasks. }
  split; [| split; [| split; [| reflexivity]]].
  - destruct (update_first_hit (has_id i) (set_text []) _ x Hx Hpx)
      as (y & _ & Hy & Hfy).
    exists (set_text [] y). rewrite E. split; [exact Hfy |].
    split; [apply has_id_true; exact Hy | reflexivity].
  - rewrite E. apply update_first_length.
  - unfold onEdit, editTask.
    unfold mbind at 1, M_bind at 1, get_tasks. cbv beta iota.
    destruct (List.find (fun t => streq (id t) i) (tasks st)) eqn:Ef.
    + unfold mbind at 1, M_bind at 1, put_tasks. cbv beta iota.
      apply persist_changes_state. reflexivity.
    + rewrite (List.find_none _ _ Ef x Hx) in Hpx. discriminate.
Qed.

(** Answering three blanks when editing [B] of the scenario. *)
Lemma blank_edit_empties_text_witness :
  all_white (js "   ") /\ In (js "B") (List.map id (tasks scenario_state)) /\
  let ts' := tasks (snd (onEdit scenario_env (js "B") (Some (js "   "))
                           scenario_state)) in
  (exists t', In t' ts' /\ id t' = js "B" /\ text t' = []) /\
  length ts' = length (tasks scenario_state) /\
  onEdit scenario_env (js "B") (Some (js "   ")) scenario_state
    <> (Ret tt, scenario_state) /\
  onEdit scenario_env (js "B") None scenario_state = (Ret tt, scenario_state).
Proof.
  assert (all_white (js "   ")) as H1 by (repeat constructor).
  assert (In (js "B") (List.map id (tasks scenario_state))) as H2
    by (simpl; right; left; reflexivity).
  split; [exact H1 |]. split; [exact H2 |].
  apply (blank_edit_empties_text scenario_env (js "B") (js "   ")
           scenario_state H1 H2).
Defined.

(** X18. With unique ids, deleting the same id a second time is ignored:
    the second call leaves the whole state, trace included, as the
    first call left it, so nothing is written or announced twice. *)
Theorem delete_twice_is_ignored e e' i st :
  NoDup (List.map id (tasks st)) ->
  deleteTask e' i (snd (deleteTask e i st)) = (Ret tt, snd (deleteTask e i st)).
Proof.
  intros Hnd.
  pose proof (deleteTask_unique_gone e i st Hnd) as Hgone.
  set (st1 := snd (deleteTask e i st)) in *.
  unfold deleteTask at 1. unfold mbind at 1, M_bind at 1, get_tasks.
  cbv beta iota.
  rewrite (findIndex_absent _ _ (id_absent _ _ Hgone)). reflexivity.
Qed.

(** Deleting [A] of the scenario twice. *)
Lemma delete_twice_is_ignored_witness :
  NoDup (List.map id (tasks scenario_state)) /\
  deleteTask scenario_env (js "A")
    (snd (deleteTask scenario_env (js "A") scenario_state))
  = (Ret tt, snd (deleteTask scenario_env (js "A") scenario_state)).
Proof.
  assert (NoDup (List.map id (tasks scenario_state))) as H
    by (apply (bool_decide_unpack _); vm_compute; exact I).
  split; [exact H |].
  apply (delete_twice_is_ignored scenario_env scenario_env (js "A")
           scenario_state H).
Defined.

Lemma onSubmit_run e v st :
  trim v <> [] ->
  onSubmit e v st =
  (saveTasks e;; renderTasks;; announce (js "Task added");;
   emit FocusInput;; emit ClearInput)
    (with_tasks
       (tasks st ++ [new_Task (randomUUID e) (trim v) false (Date_now e)]) st).
Proof.
  intros Hne. unfold onSubmit. rewrite (truthy_string_nonempty _ Hne).
  unfold mbind at 1, M_bind at 1. rewrite (addTask_run e (trim v) st Hne).
  unfold mbind, M_bind.
  destruct (saveTasks e _) as [[[] | x] s1]; reflexivity.
Qed.

Lemma onSubmit_tasks e v st :
  trim v <> [] ->
  tasks (snd (onSubmit e v st)) =
  tasks st ++ [new_Task (randomUUID e) (trim v) false (Date_now e)].
Proof.
  intros Hne. rewrite (onSubmit_run e v st Hne).
  assert (keeps_store (saveTasks e;; renderTasks;;
            announce (js "Task added");; emit FocusInput;; emit ClearInput))
    as Hk by keeps.
  rewrite (proj1 (Hk _)). reflexivity.
Qed.

(** X19. When storage refuses the write of a submit, the new task is in
    the list in memory, but the listener ends in the error before it
    renders, announces or clears the input field; submitting the text
    that is still in the field once more adds a second task with that
    text. *)
Theorem failed_submit_is_not_cleared e e' v st :
  quota_exceeded e = true -> trim v <> [] ->
  onSubmit e v st =
    (Throw QuotaExceededError,
     unwritten
       (tasks st ++ [new_Task (randomUUID e) (trim v) false (Date_now e)]) st) /\
  tasks (snd (onSubmit e' v (dispatch (onSubmit e v) st))) =
    tasks st ++ [new_Task (randomUUID e) (trim v) false (Date_now e);
                 new_Task (randomUUID e') (trim v) false (Date_now e')].
Proof.
  intros Hq Hne. split.
  - rewrite (onSubmit_run e v st Hne).
    unfold saveTasks, localStorage_setItem, get_tasks, mbind, M_bind.
    rewrite Hq. reflexivity.
  - rewrite (onSubmit_tasks e' v _ Hne), tasks_dispatch,
      (onSubmit_tasks e v st Hne), <- app_assoc. reflexivity.
Qed.

(** Submitting twice on the scenario, the first write refused. *)
Lemma failed_submit_is_not_cleared_witness :
  let failing := new_Env 1700000000000 (js "u-1") true in
  let later := new_Env 1700000005000 (js "u-2") false in
  quota_exceeded failing = true /\ trim (js " buy milk ") <> [] /\
  tasks (snd (onSubmit later (js " buy milk ")
                (dispatch (onSubmit failing (js " buy milk ")) scenario_state)))
  = tasks scenario_state ++
    [new_Task (js "u-1") (js "buy milk") false 1700000000000;
     new_Task (js "u-2") (js "buy milk") false 1700000005000].
Proof.
  intros failing later.
  assert (trim (js " buy milk ") <> []) as H by discriminate.
  split; [reflexivity |]. split; [exact H |].
  apply (failed_submit_is_not_cleared failing later (js " buy milk ")
           scenario_state eq_refl H).
Defined.
